(** * The AST-to-IR emitter of fcc ([src/emitter.c])

    A shallow embedding of the lowering core: the scope offset assigner, the
    function lowerer, the statement dispatch, the control-flow lowerers and
    the return lowerer, followed by the properties of these functions that
    the specification states and by further properties of the lowering as
    a whole: when it is defined, the shape of the IR, the layout of the
    frame, the debug sink and where the jumps go. *)

From Stdlib Require Import ZArith List String Bool Lia.
Import ListNotations.
Local Open Scope Z_scope.

Set Implicit Arguments.

(** ** C [int] arithmetic

    Offsets and sizes are C [int]s.  The operations below are the 32-bit
    two's-complement ones: the result of the mathematical operation reduced
    into [[int_min, int_max]].  They agree with the mathematical result
    whenever that result is representable, which is the only case ISO C
    defines. *)
Module CInt.

Definition int_min : Z := - 2 ^ 31.
Definition int_max : Z := 2 ^ 31 - 1.

Definition in_range (z : Z) : Prop := int_min <= z <= int_max.

Definition wrap (z : Z) : Z := (z + 2 ^ 31) mod 2 ^ 32 - 2 ^ 31.

Definition add (a b : Z) : Z := wrap (a + b).
Definition sub (a b : Z) : Z := wrap (a - b).
Definition mul (a b : Z) : Z := wrap (a * b).
Definition neg (a : Z) : Z := wrap (- a).

End CInt.

(** ** Data model *)

(** Modelled from the spec: the type handle of [inc/type.h], which is not
    among the sources.  It is opaque to the emitter, which only passes it to
    [typeGetSize] and [typeGetReturn]. *)
Inductive type : Type := typeHandle (id : nat).

(** Modelled from the spec: the symbol tags of [inc/sym.h] (a scope, an
    identifier, a parameter, anything else). *)
Inductive symTag : Type := symScope | symId | symParam | symOther.

(** A symbol: [tag], [dt], the [children] vector, the mangled [label]
    (a null pointer is [None]) and the [offset] slot the emitter writes. *)
#[warnings="-register-all"]
Inductive sym : Type :=
  mkSym (tag : symTag) (dt : type) (children : list sym)
        (label : option string) (offset : Z).

Definition sym_tag (s : sym) : symTag := let (t, _, _, _, _) := s in t.
Definition sym_dt (s : sym) : type := let (_, d, _, _, _) := s in d.
Definition sym_children (s : sym) : list sym := let (_, _, c, _, _) := s in c.
Definition sym_label (s : sym) : option string := let (_, _, _, l, _) := s in l.
Definition sym_offset (s : sym) : Z := let (_, _, _, _, o) := s in o.

(** [Symbol->offset = o] *)
Definition sym_set_offset (s : sym) (o : Z) : sym :=
  let (t, d, c, l, _) := s in mkSym t d c l o.

(** The children vector of a symbol replaced by the same vector after its
    elements were written to. *)
Definition sym_set_children (s : sym) (c : list sym) : sym :=
  let (t, d, _, l, o) := s in mkSym t d c l o.

(** The architecture descriptor: [wordsize] and [symbolMangler], which
    writes the label of the symbol it is given. *)
Record architecture : Type := mkArch {
  wordsize : Z;
  symbolMangler : sym -> sym
}.

(** Modelled from the spec: the tag enumeration of [inc/ast.h], which is not
    among the sources.  The tags that [emitter.c] names, the module tag, the
    expression ("value") tags, and two tags that no dispatch handles. *)
Inductive astTag : Type :=
| astUndefined | astInvalid
| astEmpty | astModule | astUsing | astFnImpl | astDecl
| astCode | astBranch | astLoop | astIter | astReturn | astBreak | astContinue
| astBOP | astUOP | astTOP | astIndex | astCall | astCast | astSizeof
| astLiteral.

Definition astTag_eqb (a b : astTag) : bool :=
  match a, b with
  | astUndefined, astUndefined | astInvalid, astInvalid
  | astEmpty, astEmpty | astModule, astModule | astUsing, astUsing
  | astFnImpl, astFnImpl | astDecl, astDecl | astCode, astCode
  | astBranch, astBranch | astLoop, astLoop | astIter, astIter
  | astReturn, astReturn | astBreak, astBreak | astContinue, astContinue
  | astBOP, astBOP | astUOP, astUOP | astTOP, astTOP | astIndex, astIndex
  | astCall, astCall | astCast, astCast | astSizeof, astSizeof
  | astLiteral, astLiteral => true
  | _, _ => false
  end.

(** Modelled from the spec: [astIsValueTag] of [ast.c], true of the
    expression tags. *)
Definition astIsValueTag (t : astTag) : bool :=
  match t with
  | astBOP | astUOP | astTOP | astIndex | astCall | astCast | astSizeof
  | astLiteral => true
  | _ => false
  end.

(** An AST node.  [children] is the chain [firstChild], [nextSibling], ...;
    [l], [r] and [symbol] are pointers, null being [None]. *)
#[warnings="-register-all"]
Inductive ast : Type :=
  mkAst (tag : astTag) (children : list ast) (l r : option ast)
        (symbol : option sym) (dt : type).

Definition ast_tag (n : ast) : astTag := let (t, _, _, _, _, _) := n in t.
Definition ast_children (n : ast) : list ast := let (_, c, _, _, _, _) := n in c.
Definition ast_l (n : ast) : option ast := let (_, _, l, _, _, _) := n in l.
Definition ast_r (n : ast) : option ast := let (_, _, _, r, _, _) := n in r.
Definition ast_symbol (n : ast) : option sym := let (_, _, _, _, s, _) := n in s.
Definition ast_dt (n : ast) : type := let (_, _, _, _, _, d) := n in d.

(** [Node->firstChild] *)
Definition ast_firstChild (n : ast) : option ast := hd_error (ast_children n).

(** An [irBlock*]: block handles are numbered from 1 and the null pointer
    is 0. *)
Definition irBlock : Type := nat.
Definition nullBlock : irBlock := 0%nat.

(** Modelled from the spec: the request passed to the value lowerer
    ([inc/emitter-value.h]). *)
Inductive emitterRequest : Type := requestVoid | requestValue | requestReference.

(** Modelled from the spec: the register indices of [inc/reg.h]; a [reg*] is
    the index of the register it points at, or [None] for a null pointer. *)
Inductive regIndex : Type :=
| regRAX | regRBX | regRCX | regRDX | regRSI | regRDI | regRBP | regRSP.

Definition reg : Type := option regIndex.

Definition regIndex_eqb (a b : regIndex) : bool :=
  match a, b with
  | regRAX, regRAX | regRBX, regRBX | regRCX, regRCX | regRDX, regRDX
  | regRSI, regRSI | regRDI, regRDI | regRBP, regRBP | regRSP, regRSP => true
  | _, _ => false
  end.

Definition reg_eqb (a b : reg) : bool :=
  match a, b with
  | Some x, Some y => regIndex_eqb x y
  | None, None => true
  | _, _ => false
  end.

(** Modelled from the spec: the operands of [inc/operand.h] that the return
    lowerer builds ([operandCreateReg], [operandCreateMem]) or receives. *)
Inductive operand : Type :=
| operandCreateReg (base : reg)
| operandCreateMem (base : reg) (offset size : Z)
| operandLiteral (value : Z)
| operandVoid.

(** [Operand.base] *)
Definition operand_base (o : operand) : reg :=
  match o with
  | operandCreateReg b => b
  | operandCreateMem b _ _ => b
  | _ => None
  end.

(** What has been written to [ctx->Asm]: the moves of the return lowerer and
    the output of the lowerers that are called without a block. *)
Inductive asmOp : Type :=
| asmMove (dst src : operand)
| asmValue (node : ast) (request : emitterRequest)
| asmDecl (node : ast).

(** Modelled from the spec: the operations of the IR layer ([inc/ir.h]) and
    of the lowerers that take a block.  A call of the value, declaration or
    branch-on-value lowerer is one operation of the block it is given. *)
Inductive irOp : Type :=
| opFnPrologue (label : option string) (stacksize : Z)
| opFnEpilogue
| opJump (target : irBlock)
| opBranchOnValue (cond : option ast) (ifTrue ifFalse : irBlock)
| opValue (node : option ast) (request : emitterRequest)
| opDecl (node : ast).

(** Modelled from the spec: the IR context.  It owns the blocks, numbered
    [1 .. blockCount], and the operations appended to them, kept in the order
    of emission. *)
Record irCtx : Type := mkIrCtx {
  output : string;
  blockCount : nat;
  emitted : list (irBlock * irOp)
}.

(** The register file: the registers in use, each with the size it was
    allocated as. *)
Definition regFile : Type := list (regIndex * Z).

(** Calls of the debug sink ([inc/debug.h]). *)
Inductive debugEvent : Type :=
| dbgEnter (what : string)
| dbgLeave
| dbgMsg (msg : string)
| dbgErrorUnhandled (fn what which : string)
| dbgError (fn msg : string)
| dbgReportSymbol (s : sym).

(** The emitter context ([emitterCtx]: [ir], [arch], [Asm] and the three
    jump targets) together with the global state the emitter reaches: the
    register file, the debug sink and the function symbols whose offsets it
    has written. *)
Record emitterCtx : Type := mkCtx {
  ir : irCtx;
  arch : architecture;
  Asm : list asmOp;
  returnTo : irBlock;
  breakTo : irBlock;
  continueTo : irBlock;
  regs : regFile;
  debug : list debugEvent;
  symtab : list sym
}.

(** ** The emitter monad

    Every lowerer takes the context and leaves a context.  A lowerer that
    reads through a null pointer, or whose result is an indeterminate value,
    has no result ([None]); the context reached up to that point is kept. *)
Definition M (A : Type) : Type := emitterCtx -> emitterCtx * option A.

Definition ret {A : Type} (a : A) : M A := fun ctx => (ctx, Some a).

Definition bind {A B : Type} (m : M A) (f : A -> M B) : M B :=
  fun ctx =>
    match m ctx with
    | (ctx', Some a) => f a ctx'
    | (ctx', None) => (ctx', None)
    end.

Definition undefined {A : Type} : M A := fun ctx => (ctx, None).

(** Reading the context. *)
Definition get {A : Type} (f : emitterCtx -> A) : M A :=
  fun ctx => (ctx, Some (f ctx)).

(** A null-pointer check: a pointer that is dereferenced. *)
Definition deref {A : Type} (p : option A) : M A :=
  match p with
  | Some a => ret a
  | None => undefined
  end.

Declare Scope emitter_scope.
Delimit Scope emitter_scope with emitter.
Notation "x <- m ;; k" := (bind m (fun x => k))
  (at level 61, m at next level, right associativity) : emitter_scope.
Notation "m ;; k" := (bind m (fun _ => k))
  (at level 61, right associativity) : emitter_scope.
Local Open Scope emitter_scope.

(** ** Field updates *)

Definition set_ir (i : irCtx) (c : emitterCtx) : emitterCtx :=
  mkCtx i (arch c) (Asm c) (returnTo c) (breakTo c) (continueTo c)
        (regs c) (debug c) (symtab c).
Definition set_Asm (a : list asmOp) (c : emitterCtx) : emitterCtx :=
  mkCtx (ir c) (arch c) a (returnTo c) (breakTo c) (continueTo c)
        (regs c) (debug c) (symtab c).
Definition set_returnTo (b : irBlock) (c : emitterCtx) : emitterCtx :=
  mkCtx (ir c) (arch c) (Asm c) b (breakTo c) (continueTo c)
        (regs c) (debug c) (symtab c).
Definition set_breakTo (b : irBlock) (c : emitterCtx) : emitterCtx :=
  mkCtx (ir c) (arch c) (Asm c) (returnTo c) b (continueTo c)
        (regs c) (debug c) (symtab c).
Definition set_continueTo (b : irBlock) (c : emitterCtx) : emitterCtx :=
  mkCtx (ir c) (arch c) (Asm c) (returnTo c) (breakTo c) b
        (regs c) (debug c) (symtab c).
Definition set_regs (r : regFile) (c : emitterCtx) : emitterCtx :=
  mkCtx (ir c) (arch c) (Asm c) (returnTo c) (breakTo c) (continueTo c)
        r (debug c) (symtab c).
Definition set_debug (d : list debugEvent) (c : emitterCtx) : emitterCtx :=
  mkCtx (ir c) (arch c) (Asm c) (returnTo c) (breakTo c) (continueTo c)
        (regs c) d (symtab c).
Definition set_symtab (s : list sym) (c : emitterCtx) : emitterCtx :=
  mkCtx (ir c) (arch c) (Asm c) (returnTo c) (breakTo c) (continueTo c)
        (regs c) (debug c) s.

(** ** The debug sink *)

Definition debugLog (e : debugEvent) : M unit :=
  fun ctx => (set_debug (debug ctx ++ [e]) ctx, Some tt).

Definition debugEnter (what : string) : M unit := debugLog (dbgEnter what).
Definition debugLeave : M unit := debugLog dbgLeave.
Definition debugMsg (msg : string) : M unit := debugLog (dbgMsg msg).
Definition debugErrorUnhandled (fn what which : string) : M unit :=
  debugLog (dbgErrorUnhandled fn what which).
Definition debugError (fn msg : string) : M unit := debugLog (dbgError fn msg).

(** ** The IR layer *)

(** Modelled from the spec: [irInit], the IR context with no block. *)
Definition irInit (out : string) : irCtx := mkIrCtx out 0 [].

(** Modelled from the spec: an operation appended to a block. *)
Definition irAppend (block : irBlock) (op : irOp) : M unit :=
  fun ctx =>
    (set_ir (mkIrCtx (output (ir ctx)) (blockCount (ir ctx))
                     (emitted (ir ctx) ++ [(block, op)])) ctx,
     Some tt).

(** Modelled from the spec: [irBlockCreate], a fresh, empty block; its handle
    is the next block number. *)
Definition irBlockCreate : M irBlock :=
  fun ctx =>
    (set_ir (mkIrCtx (output (ir ctx)) (S (blockCount (ir ctx)))
                     (emitted (ir ctx))) ctx,
     Some (S (blockCount (ir ctx)))).

(** Modelled from the spec: [irJump], the unconditional terminator. *)
Definition irJump (block target : irBlock) : M unit :=
  irAppend block (opJump target).

(** Modelled from the spec: [irFnPrologue] and [irFnEpilogue]. *)
Definition irFnPrologue (block : irBlock) (label : option string)
                        (stacksize : Z) : M unit :=
  irAppend block (opFnPrologue label stacksize).
Definition irFnEpilogue (block : irBlock) : M unit :=
  irAppend block opFnEpilogue.

(** Blocks created inside a lowerer that is not part of [emitter.c]. *)
Definition irBlocksCreated (k : nat) : M unit :=
  fun ctx =>
    (set_ir (mkIrCtx (output (ir ctx)) (k + blockCount (ir ctx))
                     (emitted (ir ctx))) ctx,
     Some tt).

(** ** The collaborators of the emitter

    The functions [emitter.c] calls and does not define.  Of the value and
    declaration lowerers the emitter uses the operand they return and the
    block they leave as the current one; both, the number of blocks they
    create and the register file they leave are theirs to choose.  The
    branch-on-value lowerer takes its block by value and returns nothing. *)
Class Externals : Type := {
  typeGetSize : architecture -> type -> Z;
  typeGetReturn : type -> type;
  astTagGetStr : astTag -> string;
  (** [emitterValue(ctx, &block, Node, request)] *)
  valueLowered :
    emitterCtx -> irBlock -> option ast -> emitterRequest ->
    nat * irBlock * operand * regFile;
  (** [emitterValue(ctx, Node, request)], as the return lowerer calls it *)
  valueLoweredAsm : emitterCtx -> ast -> emitterRequest -> operand * regFile;
  (** [emitterDecl(ctx, &block, Node)] *)
  declLowered : emitterCtx -> irBlock -> ast -> nat * irBlock * regFile;
  (** [emitterDecl(ctx, Node)], as the module lowerer calls it *)
  declLoweredAsm : emitterCtx -> ast -> regFile;
  (** [emitterBranchOnValue(ctx, block, cond, ifTrue, ifFalse)] *)
  branchLowered :
    emitterCtx -> irBlock -> option ast -> irBlock -> irBlock ->
    nat * regFile;
  (** the register allocator of [reg.c] and [operandFree] *)
  regAlloc : regFile -> Z -> regFile * reg;
  regRequest : regFile -> regIndex -> Z -> regFile * reg;
  regFree : regFile -> reg -> regFile;
  operandFree : regFile -> operand -> regFile
}.

(** Modelled from the spec: [regGet], the address of a register. *)
Definition regGet (r : regIndex) : reg := Some r.

Section Emitter.

Context {X : Externals}.

(** ** Calls of the collaborators *)

Definition setRegs (r : regFile) : M unit :=
  fun ctx => (set_regs r ctx, Some tt).

Definition asmEmit (op : asmOp) : M unit :=
  fun ctx => (set_Asm (Asm ctx ++ [op]) ctx, Some tt).

(** [emitterValue(ctx, &block, Node, request)]: the block left as the
    current one and the operand. *)
Definition emitterValue (block : irBlock) (Node : option ast)
                        (request : emitterRequest) : M (irBlock * operand) :=
  lowered <- get (fun ctx => valueLowered ctx block Node request) ;;
  let '(created, block', result, rf) := lowered in
  irAppend block (opValue Node request) ;;
  irBlocksCreated created ;;
  setRegs rf ;;
  ret (block', result).

(** [emitterValue(ctx, Node, request)], writing to [ctx->Asm]. *)
Definition emitterValueAsm (Node : ast) (request : emitterRequest)
  : M operand :=
  lowered <- get (fun ctx => valueLoweredAsm ctx Node request) ;;
  let '(result, rf) := lowered in
  asmEmit (asmValue Node request) ;;
  setRegs rf ;;
  ret result.

(** [emitterDecl(ctx, &block, Node)]: the block left as the current one. *)
Definition emitterDecl (block : irBlock) (Node : ast) : M irBlock :=
  lowered <- get (fun ctx => declLowered ctx block Node) ;;
  let '(created, block', rf) := lowered in
  irAppend block (opDecl Node) ;;
  irBlocksCreated created ;;
  setRegs rf ;;
  ret block'.

(** [emitterDecl(ctx, Node)], writing to [ctx->Asm]. *)
Definition emitterDeclAsm (Node : ast) : M unit :=
  rf <- get (fun ctx => declLoweredAsm ctx Node) ;;
  asmEmit (asmDecl Node) ;;
  setRegs rf.

(** [emitterBranchOnValue(ctx, block, cond, ifTrue, ifFalse)]: the
    condition lowered from [block], ending in a conditional terminator. *)
Definition emitterBranchOnValue (block : irBlock) (cond : option ast)
                                (ifTrue ifFalse : irBlock) : M unit :=
  lowered <- get (fun ctx => branchLowered ctx block cond ifTrue ifFalse) ;;
  let '(created, rf) := lowered in
  irAppend block (opBranchOnValue cond ifTrue ifFalse) ;;
  irBlocksCreated created ;;
  setRegs rf.

Definition reportSymbol (s : sym) : M unit := debugLog (dbgReportSymbol s).

Fixpoint reportSymbols (l : list sym) : M unit :=
  match l with
  | [] => ret tt
  | s :: rest => reportSymbol s ;; reportSymbols rest
  end.

(** ** [emitterInit] *)

Definition emitterInit (out : string) (a : architecture) : emitterCtx :=
  mkCtx (irInit out) a [] nullBlock nullBlock nullBlock [] [] [].

(** ** [emitterScopeAssignOffsets]

    The function writes [Symbol->offset] in place and calls [reportSymbol]
    on each symbol it has written.  Here it returns the scope as it is left
    in memory, the final offset, and the symbols reported, in order. *)

(** The loop over [Scope->children], from a running [offset]. *)
Definition scopeChildren (assign : sym -> Z -> sym * Z * list sym)
                         (a : architecture)
  : list sym -> Z -> list sym * Z * list sym :=
  fix walk (cs : list sym) (offset : Z) : list sym * Z * list sym :=
    match cs with
    | [] => ([], offset, [])
    | Symbol :: rest =>
        match sym_tag Symbol with
        | symScope =>
            let '(Symbol', offset', reported) := assign Symbol offset in
            let '(rest', final, reported') := walk rest offset' in
            (Symbol' :: rest', final, reported ++ reported')
        | symId =>
            let offset' := CInt.sub offset (typeGetSize a (sym_dt Symbol)) in
            let Symbol' := sym_set_offset Symbol offset' in
            let '(rest', final, reported') := walk rest offset' in
            (Symbol' :: rest', final, Symbol' :: reported')
        | _ =>
            let '(rest', final, reported') := walk rest offset in
            (Symbol :: rest', final, reported')
        end
    end.

Fixpoint emitterScopeAssignOffsets (a : architecture) (Scope : sym)
                                   (offset : Z) {struct Scope}
  : sym * Z * list sym :=
  match Scope with
  | mkSym tag dt children label off =>
      let '(children', final, reported) :=
        scopeChildren (emitterScopeAssignOffsets a) a children offset in
      (mkSym tag dt children' label off, final, reported)
  end.

(** ** [emitterFnImpl]: the parameter pass *)

(** The loop over [Node->symbol->children] that stops at the first child
    that is not a parameter: the children as left in memory, [lastOffset]
    at the end, and the symbols reported. *)
Fixpoint fnParamOffsets (a : architecture) (cs : list sym) (lastOffset : Z)
  : list sym * Z * list sym :=
  match cs with
  | [] => ([], lastOffset, [])
  | Symbol :: rest =>
      match sym_tag Symbol with
      | symParam =>
          let Symbol' := sym_set_offset Symbol lastOffset in
          let lastOffset' :=
            CInt.add lastOffset (typeGetSize a (sym_dt Symbol)) in
          let '(rest', final, reported) := fnParamOffsets a rest lastOffset' in
          (Symbol' :: rest', final, Symbol' :: reported)
      | _ => (cs, lastOffset, [])
      end
  end.

(** [lastOffset] before the parameter loop. *)
Definition fnFirstParamOffset (a : architecture) (symbol : sym) : Z :=
  let lastOffset := CInt.mul 2 (wordsize a) in
  if typeGetSize a (typeGetReturn (sym_dt symbol)) >? wordsize a
  then CInt.add lastOffset (wordsize a)
  else lastOffset.

(** ** [emitterSetBreakTo], [emitterSetContinueTo] *)

Definition emitterSetBreakTo (block : irBlock) : M irBlock :=
  fun ctx => (set_breakTo block ctx, Some (breakTo ctx)).

Definition emitterSetContinueTo (block : irBlock) : M irBlock :=
  fun ctx => (set_continueTo block ctx, Some (continueTo ctx)).

(** The plain assignments [ctx->returnTo = b], [ctx->breakTo = b] and
    [ctx->continueTo = b]. *)
Definition assignReturnTo (b : irBlock) : M unit :=
  fun ctx => (set_returnTo b ctx, Some tt).
Definition assignBreakTo (b : irBlock) : M unit :=
  fun ctx => (set_breakTo b ctx, Some tt).
Definition assignContinueTo (b : irBlock) : M unit :=
  fun ctx => (set_continueTo b ctx, Some tt).

(** ** [emitterReturn] *)

Definition regAllocM (size : Z) : M reg :=
  fun ctx => let (rf, r) := regAlloc (regs ctx) size in
             (set_regs rf ctx, Some r).
Definition regRequestM (r : regIndex) (size : Z) : M reg :=
  fun ctx => let (rf, got) := regRequest (regs ctx) r size in
             (set_regs rf ctx, Some got).
Definition regFreeM (r : reg) : M unit :=
  fun ctx => (set_regs (regFree (regs ctx) r) ctx, Some tt).
Definition operandFreeM (o : operand) : M unit :=
  fun ctx => (set_regs (operandFree (regs ctx) o) ctx, Some tt).

(** The hidden-pointer part: [Ret] copied into the caller's temporary;
    the reference to the temporary is the value returned. *)
Definition returnThroughTemp (a : architecture) (retSize : Z) (Ret : operand)
  : M operand :=
  base <- regAllocM (wordsize a) ;;
  let tempRef := operandCreateReg base in
  asmEmit (asmMove tempRef
             (operandCreateMem (Some regRBP) (CInt.mul 2 (wordsize a))
                               (wordsize a))) ;;
  asmEmit (asmMove (operandCreateMem (operand_base tempRef) 0 retSize) Ret) ;;
  operandFreeM Ret ;;
  ret tempRef.

(** The body of [if (Node->r)], [value] being [Node->r]. *)
Definition emitterReturnValue (value : ast) : M unit :=
  Ret <- emitterValueAsm value requestValue ;;
  a <- get arch ;;
  let retSize := typeGetSize a (ast_dt value) in
  let retInTemp := retSize >? wordsize a in
  Ret <- (if retInTemp then returnThroughTemp a retSize Ret
          else ret Ret) ;;
  rax <- regRequestM regRAX (if retInTemp then wordsize a else retSize) ;;
  match rax with
  | Some _ =>
      asmEmit (asmMove (operandCreateReg rax) Ret) ;;
      regFreeM rax
  | None =>
      if negb (reg_eqb (operand_base Ret) (regGet regRAX))
      then debugError "emitterLine" "unable to allocate RAX for return"
      else ret tt
  end ;;
  operandFreeM Ret.

Definition emitterReturn (block : irBlock) (Node : ast) : M unit :=
  match ast_r Node with
  | Some value => emitterReturnValue value
  | None => ret tt
  end ;;
  target <- get returnTo ;;
  irJump block target.

(** ** The statement lowerers

    [emitterLine], [emitterCode], [emitterBranch], [emitterLoop] and
    [emitterIter] call each other.  Each is first written over the
    statement lowerer [line] it calls, and [emitterLine] then closes the
    recursion on the node. *)

(** The loop of [emitterCode] over the children, threading [block]. *)
Definition emitterLines_of (line : irBlock -> ast -> M irBlock)
  : irBlock -> list ast -> M irBlock :=
  fix lines (block : irBlock) (cs : list ast) : M irBlock :=
    match cs with
    | [] => ret block
    | Current :: rest =>
        block' <- line block Current ;;
        lines block' rest
    end.

Definition emitterCode_of (line : irBlock -> ast -> M irBlock)
           (block : irBlock) (Node : ast) (continuation : irBlock) : M unit :=
  block' <- emitterLines_of line block (ast_children Node) ;;
  irJump block' continuation.

Definition emitterBranch_of (line : irBlock -> ast -> M irBlock)
           (block : irBlock) (Node : ast) : M irBlock :=
  continuation <- irBlockCreate ;;
  ifTrue <- irBlockCreate ;;
  ifFalse <- irBlockCreate ;;
  emitterBranchOnValue block (ast_firstChild Node) ifTrue ifFalse ;;
  match ast_l Node with
  | Some l => emitterCode_of line ifTrue l continuation
  | None => undefined
  end ;;
  match ast_r Node with
  | Some r => emitterCode_of line ifFalse r continuation
  | None => undefined
  end ;;
  ret continuation.

Definition emitterLoop_of (line : irBlock -> ast -> M irBlock)
           (block : irBlock) (Node : ast) : M irBlock :=
  continuation <- irBlockCreate ;;
  body <- irBlockCreate ;;
  loopCheck <- irBlockCreate ;;
  match ast_l Node with
  | None => undefined
  | Some l =>
      let isDo := astTag_eqb (ast_tag l) astCode in
      let cond := if isDo then ast_r Node else Some l in
      (if isDo then irJump block body
       else emitterBranchOnValue block cond body continuation) ;;
      oldBreakTo <- emitterSetBreakTo continuation ;;
      oldContinueTo <- emitterSetContinueTo loopCheck ;;
      (* emitterCode(ctx, body, code, loopCheck), where [code] is
         [Node->l] of a do-while and [Node->r] of a while *)
      (if isDo then emitterCode_of line body l loopCheck
       else match ast_r Node with
            | Some code => emitterCode_of line body code loopCheck
            | None => undefined
            end) ;;
      assignBreakTo oldBreakTo ;;
      assignContinueTo oldContinueTo ;;
      emitterBranchOnValue loopCheck cond body continuation ;;
      ret continuation
  end.

Definition emitterIter_of (line : irBlock -> ast -> M irBlock)
           (block : irBlock) (Node : ast) : M irBlock :=
  continuation <- irBlockCreate ;;
  body <- irBlockCreate ;;
  iterate <- irBlockCreate ;;
  match ast_children Node with
  | init :: cond :: after =>
      let iter := hd_error after in
      block <- (if astTag_eqb (ast_tag init) astDecl
                then emitterDecl block init
                else lowered <- emitterValue block (Some init) requestVoid ;;
                     ret (fst lowered)) ;;
      emitterBranchOnValue block (Some cond) body continuation ;;
      oldBreakTo <- emitterSetBreakTo continuation ;;
      oldContinueTo <- emitterSetContinueTo iterate ;;
      match ast_l Node with
      | Some code => emitterCode_of line body code iterate
      | None => undefined
      end ;;
      assignBreakTo oldBreakTo ;;
      assignContinueTo oldContinueTo ;;
      lowered <- emitterValue iterate iter requestVoid ;;
      emitterBranchOnValue (fst lowered) (Some cond) body continuation ;;
      ret continuation
  | _ => undefined
  end.

(** The dispatch of [emitterLine]: the value of the local [continuation],
    which the last branch leaves unassigned ([None]). *)
Definition emitterLineDispatch_of (line : irBlock -> ast -> M irBlock)
           (block : irBlock) (Node : ast) : M (option irBlock) :=
  let tag := ast_tag Node in
  if astTag_eqb tag astBranch then
    continuation <- emitterBranch_of line block Node ;;
    ret (Some continuation)
  else if astTag_eqb tag astLoop then
    continuation <- emitterLoop_of line block Node ;;
    ret (Some continuation)
  else if astTag_eqb tag astIter then
    continuation <- emitterIter_of line block Node ;;
    ret (Some continuation)
  else if astTag_eqb tag astCode then
    continuation <- irBlockCreate ;;
    emitterCode_of line block Node continuation ;;
    ret (Some continuation)
  else if astTag_eqb tag astReturn then
    emitterReturn block Node ;;
    continuation <- irBlockCreate ;;
    ret (Some continuation)
  else if astTag_eqb tag astBreak then
    target <- get breakTo ;;
    irJump block target ;;
    continuation <- irBlockCreate ;;
    ret (Some continuation)
  else if astTag_eqb tag astContinue then
    target <- get continueTo ;;
    irJump block target ;;
    continuation <- irBlockCreate ;;
    ret (Some continuation)
  else if astTag_eqb tag astDecl then
    block <- emitterDecl block Node ;;
    ret (Some block)
  else if astIsValueTag tag then
    lowered <- emitterValue block (Some Node) requestVoid ;;
    ret (Some (fst lowered))
  else if astTag_eqb tag astEmpty then
    ret (Some block)
  else
    debugErrorUnhandled "emitterLine" "AST tag" (astTagGetStr tag) ;;
    ret None.

Fixpoint emitterLine (block : irBlock) (Node : ast) {struct Node}
  : M irBlock :=
  debugEnter (astTagGetStr (ast_tag Node)) ;;
  continuation <- emitterLineDispatch_of emitterLine block Node ;;
  debugLeave ;;
  (* return continuation; *)
  deref continuation.

Definition emitterLines : irBlock -> list ast -> M irBlock :=
  emitterLines_of emitterLine.
Definition emitterCode : irBlock -> ast -> irBlock -> M unit :=
  emitterCode_of emitterLine.
Definition emitterBranch : irBlock -> ast -> M irBlock :=
  emitterBranch_of emitterLine.
Definition emitterLoop : irBlock -> ast -> M irBlock :=
  emitterLoop_of emitterLine.
Definition emitterIter : irBlock -> ast -> M irBlock :=
  emitterIter_of emitterLine.
Definition emitterLineDispatch : irBlock -> ast -> M (option irBlock) :=
  emitterLineDispatch_of emitterLine.

(** ** [emitterFnImpl] *)

Definition storeSymbol (s : sym) : M unit :=
  fun ctx => (set_symtab (symtab ctx ++ [s]) ctx, Some tt).

(** The function symbol after the label check: [symbolMangler] is called
    on a symbol that has no label. *)
Definition fnLabelled (a : architecture) (symbol : sym) : sym :=
  match sym_label symbol with
  | None => symbolMangler a symbol
  | Some _ => symbol
  end.

(** The function symbol after the label check and the parameter loop, and
    the symbols that loop reported. *)
Definition fnAssignParams (a : architecture) (symbol : sym)
  : sym * list sym :=
  let symbol := fnLabelled a symbol in
  let '(children, _, reported) :=
    fnParamOffsets a (sym_children symbol) (fnFirstParamOffset a symbol) in
  (sym_set_children symbol children, reported).

Definition emitterFnImpl (Node : ast) : M unit :=
  debugEnter "FnImpl" ;;
  symbol <- deref (ast_symbol Node) ;;
  a <- get arch ;;
  let '(symbol, reported) := fnAssignParams a symbol in
  reportSymbols reported ;;
  let '(symbol, offset, reported) := emitterScopeAssignOffsets a symbol 0 in
  reportSymbols reported ;;
  let stacksize := CInt.neg offset in
  storeSymbol symbol ;;
  block <- irBlockCreate ;;
  epilogue <- irBlockCreate ;;
  assignReturnTo epilogue ;;
  irFnPrologue block (sym_label symbol) stacksize ;;
  body <- deref (ast_r Node) ;;
  emitterCode block body epilogue ;;
  irFnEpilogue epilogue ;;
  debugLeave.

(** ** [emitterModule] *)

(** The body of the loop of [emitterModule], for the child [Current];
    [module] is [emitterModule] itself. *)
Definition emitterModuleChild_of (module : ast -> M unit) (Current : ast)
  : M unit :=
  let tag := ast_tag Current in
  if astTag_eqb tag astUsing then
    match ast_r Current with
    | Some r => module r
    | None => ret tt
    end
  else if astTag_eqb tag astFnImpl then
    emitterFnImpl Current
  else if astTag_eqb tag astDecl then
    emitterDeclAsm Current
  else if astTag_eqb tag astEmpty then
    debugMsg "Empty"
  else
    debugErrorUnhandled "emitterModule" "AST tag" (astTagGetStr tag).

Definition emitterModuleChildren_of (module : ast -> M unit)
  : list ast -> M unit :=
  fix children (cs : list ast) : M unit :=
    match cs with
    | [] => ret tt
    | Current :: rest =>
        emitterModuleChild_of module Current ;;
        children rest
    end.

Fixpoint emitterModule (Node : ast) {struct Node} : M unit :=
  debugEnter "Module" ;;
  emitterModuleChildren_of emitterModule (ast_children Node) ;;
  debugLeave.

Definition emitterModuleChild : ast -> M unit :=
  emitterModuleChild_of emitterModule.
Definition emitterModuleChildren : list ast -> M unit :=
  emitterModuleChildren_of emitterModule.

(** ** [emitter]: the context after [emitterModule], handed to [irEmit] *)
Definition emitter (Tree : ast) (out : string) (a : architecture)
  : emitterCtx * option unit :=
  emitterModule Tree (emitterInit out a).

End Emitter.

(** * Notions used in the statements *)

Section Notions.

Context {X : Externals}.

(** A relation between the context before and the context after that every
    step of a lowerer keeps, whether or not the lowerer has a result. *)
Definition preserves (R : emitterCtx -> emitterCtx -> Prop)
           {A : Type} (m : M A) : Prop :=
  forall ctx, R ctx (fst (m ctx)).

(** The same for the runs that have a result. *)
Definition preserves_ok (R : emitterCtx -> emitterCtx -> Prop)
           {A : Type} (m : M A) : Prop :=
  forall ctx ctx' a, m ctx = (ctx', Some a) -> R ctx ctx'.

(** What no lowerer undoes: the jump target [returnTo] and the
    architecture are left alone, blocks are only created, and the IR
    operations and the debug events are only appended. *)
Record grows (ctx ctx' : emitterCtx) : Prop := mkGrows {
  grows_returnTo : returnTo ctx' = returnTo ctx;
  grows_arch : arch ctx' = arch ctx;
  grows_blocks : (blockCount (ir ctx) <= blockCount (ir ctx'))%nat;
  grows_emitted : exists new, emitted (ir ctx') = emitted (ir ctx) ++ new;
  grows_debug : exists new, debug ctx' = debug ctx ++ new;
  grows_symtab : symtab ctx' = symtab ctx
}.

(** The loop jump targets, which the lowerers that have a result leave as
    they found them. *)
Definition sameLoopTargets (ctx ctx' : emitterCtx) : Prop :=
  breakTo ctx' = breakTo ctx /\ continueTo ctx' = continueTo ctx.

(** The context after an operation was appended to a block. *)
Definition emit (block : irBlock) (op : irOp) (ctx : emitterCtx)
  : emitterCtx :=
  fst (irAppend block op ctx).

(** The context after [k] blocks were created. *)
Definition newBlocks (k : nat) (ctx : emitterCtx) : emitterCtx :=
  fst (irBlocksCreated k ctx).

(** The context in which a loop or iter body is lowered, and the context
    after it, with the two jump targets put back. *)
Definition enterLoop (K L : irBlock) (ctx : emitterCtx) : emitterCtx :=
  set_continueTo L (set_breakTo K ctx).
Definition leaveLoop (oldBreakTo oldContinueTo : irBlock) (ctx : emitterCtx)
  : emitterCtx :=
  set_continueTo oldContinueTo (set_breakTo oldBreakTo ctx).

(** The context after a call of [emitterBranchOnValue]. *)
Definition branched (block : irBlock) (cond : option ast)
           (ifTrue ifFalse : irBlock) (ctx : emitterCtx) : emitterCtx :=
  fst (emitterBranchOnValue block cond ifTrue ifFalse ctx).

(** The context after a call of the debug sink. *)
Definition logged (e : debugEvent) (ctx : emitterCtx) : emitterCtx :=
  fst (debugLog e ctx).

(** The tags for which a branch of [emitterLine] assigns [continuation]. *)
Definition lineHandles (tag : astTag) : bool :=
  match tag with
  | astBranch | astLoop | astIter | astCode | astReturn | astBreak
  | astContinue | astDecl | astEmpty => true
  | _ => astIsValueTag tag
  end.

(** The tags for which the loop of [emitterModule] has a branch. *)
Definition moduleHandles (tag : astTag) : bool :=
  match tag with
  | astUsing | astFnImpl | astDecl | astEmpty => true
  | _ => false
  end.

(** What [emitterReturn] writes to [ctx->Asm] for a returned expression
    [value], from the context [ctx]: the value lowered, then, when the
    value is larger than a word, the load of the hidden pointer into a
    register allocated at word size and the copy through it, and last the
    move into RAX when the request for RAX is granted.  The request is made
    once the source value has been freed. *)
Definition returnAsm (ctx : emitterCtx) (value : ast) : list asmOp :=
  let ws := wordsize (arch ctx) in
  let retSize := typeGetSize (arch ctx) (ast_dt value) in
  let (Ret, rf) := valueLoweredAsm ctx value requestValue in
  if retSize >? ws then
    let (rf1, base) := regAlloc rf ws in
    let tempRef := operandCreateReg base in
    let (_, rax) := regRequest (operandFree rf1 Ret) regRAX ws in
    [asmValue value requestValue;
     asmMove tempRef (operandCreateMem (Some regRBP) (CInt.mul 2 ws) ws);
     asmMove (operandCreateMem base 0 retSize) Ret]
    ++ match rax with
       | Some _ => [asmMove (operandCreateReg rax) tempRef]
       | None => []
       end
  else
    let (_, rax) := regRequest rf regRAX retSize in
    [asmValue value requestValue]
    ++ match rax with
       | Some _ => [asmMove (operandCreateReg rax) Ret]
       | None => []
       end.

(** The target of the jump that a [break], [continue] or [return]
    statement stands for. *)
Definition jumpStatementTarget (tag : astTag) (ctx : emitterCtx)
  : option irBlock :=
  match tag with
  | astBreak => Some (breakTo ctx)
  | astContinue => Some (continueTo ctx)
  | astReturn => Some (returnTo ctx)
  | _ => None
  end.

(** [loose t s]: the statement [s] contains a statement of tag [t] that no
    loop or iter inside [s] encloses.  The search follows the lowerers:
    the lines of a block and of the two arms of a branch. *)
Fixpoint loose (t : astTag) (s : ast) {struct s} : bool :=
  match s with
  | mkAst tag children l r _ _ =>
      if astTag_eqb tag t then true
      else if astTag_eqb tag astCode then existsb (loose t) children
      else if astTag_eqb tag astBranch then
        match l with
        | Some (mkAst _ lines _ _ _ _) => existsb (loose t) lines
        | None => false
        end
        || match r with
           | Some (mkAst _ lines _ _ _ _) => existsb (loose t) lines
           | None => false
           end
      else false
  end.

(** The same for the lines of the block [n]. *)
Definition looseIn (t : astTag) (n : ast) : bool :=
  existsb (loose t) (ast_children n).

Definition looseInPtr (t : astTag) (n : option ast) : bool :=
  match n with
  | Some n => looseIn t n
  | None => false
  end.

(** Between [ctx] and [ctx'] a jump to [T] was appended to some block. *)
Definition emitsJump (ctx ctx' : emitterCtx) (T : irBlock) : Prop :=
  exists b pre post,
    emitted (ir ctx') = emitted (ir ctx) ++ pre ++ (b, opJump T) :: post.

(** The body and the condition of a loop: [code] and [cond] of
    [emitterLoop]. *)
Definition loopCode (Node : ast) : option ast :=
  match ast_l Node with
  | Some l => if astTag_eqb (ast_tag l) astCode then Some l else ast_r Node
  | None => None
  end.

Definition loopCond (Node : ast) : option ast :=
  match ast_l Node with
  | Some l => if astTag_eqb (ast_tag l) astCode then ast_r Node else Some l
  | None => None
  end.

(** The edge into a loop, from [block]: the jump to [body] of a do-while,
    the test of a while. *)
Definition loopEntry (Node : ast) (body continuation : irBlock) : irOp :=
  match ast_l Node with
  | Some l =>
      if astTag_eqb (ast_tag l) astCode then opJump body
      else opBranchOnValue (Some l) body continuation
  | None => opJump body
  end.

(** The operation that stands for the initializer of an iter. *)
Definition iterInit (init : ast) : irOp :=
  if astTag_eqb (ast_tag init) astDecl then opDecl init
  else opValue (Some init) requestVoid.

(** [wellFormed s]: every pointer that lowering [s] reads through is
    there, and the tag of every statement is one that [emitterLine]
    handles. *)
Fixpoint wellFormed (s : ast) {struct s} : bool :=
  match s with
  | mkAst tag children l r _ _ =>
      let lines (n : option ast) :=
        match n with
        | Some (mkAst _ cs _ _ _ _) => forallb wellFormed cs
        | None => false
        end in
      if astTag_eqb tag astBranch then lines l && lines r
      else if astTag_eqb tag astLoop then
        match l with
        | Some (mkAst ltag cs _ _ _ _) =>
            if astTag_eqb ltag astCode then forallb wellFormed cs
            else lines r
        | None => false
        end
      else if astTag_eqb tag astIter then
        match children with
        | _ :: _ :: _ => lines l
        | _ => false
        end
      else if astTag_eqb tag astCode then forallb wellFormed children
      else lineHandles tag
  end.

Definition wellFormedCode (n : ast) : bool :=
  forallb wellFormed (ast_children n).

Definition wellFormedPtr (n : option ast) : bool :=
  match n with
  | Some n => wellFormedCode n
  | None => false
  end.

(** A lowerer that has a result from every context. *)
Definition total {A : Type} (m : M A) : Prop :=
  forall ctx, exists ctx' a, m ctx = (ctx', Some a).

(** The function symbol as [emitterFnImpl] leaves it, and the stack size
    it passes to [irFnPrologue]. *)
Definition fnSymbolAfter (a : architecture) (symbol : sym) : sym :=
  fst (fst (emitterScopeAssignOffsets a (fst (fnAssignParams a symbol)) 0)).

Definition fnStackSize (a : architecture) (symbol : sym) : Z :=
  CInt.neg
    (snd (fst (emitterScopeAssignOffsets a (fst (fnAssignParams a symbol))
                                         0))).

(** No jump of [ops] goes to the null block. *)
Definition jumpsNonNull (ops : list (irBlock * irOp)) : Prop :=
  forall b T, In (b, opJump T) ops -> T <> nullBlock.

(** What was appended between [ctx] and [ctx'] has no jump to the null
    block. *)
Definition appendsNonNull (ctx ctx' : emitterCtx) : Prop :=
  exists new,
    emitted (ir ctx') = emitted (ir ctx) ++ new /\ jumpsNonNull new.

(** [guarded inLoop s]: every [break] and [continue] of [s] is inside the
    body of a loop or iter of [s], or of one around [s] when [inLoop]. *)
Fixpoint guarded (inLoop : bool) (s : ast) {struct s} : bool :=
  match s with
  | mkAst tag children l r _ _ =>
      let lines (b : bool) (n : option ast) :=
        match n with
        | Some (mkAst _ cs _ _ _ _) => forallb (guarded b) cs
        | None => true
        end in
      if astTag_eqb tag astBreak then inLoop
      else if astTag_eqb tag astContinue then inLoop
      else if astTag_eqb tag astCode then forallb (guarded inLoop) children
      else if astTag_eqb tag astBranch then
        lines inLoop l && lines inLoop r
      else if astTag_eqb tag astLoop then
        match l with
        | Some (mkAst ltag cs _ _ _ _) =>
            if astTag_eqb ltag astCode then forallb (guarded true) cs
            else lines true r
        | None => true
        end
      else if astTag_eqb tag astIter then lines true l
      else true
  end.

Definition guardedCode (inLoop : bool) (n : ast) : bool :=
  forallb (guarded inLoop) (ast_children n).

Definition guardedPtr (inLoop : bool) (n : option ast) : bool :=
  match n with
  | Some n => guardedCode inLoop n
  | None => true
  end.

(** The jump targets that a statement may use are not null. *)
Definition targetsNonNull (inLoop : bool) (ctx : emitterCtx) : Prop :=
  returnTo ctx <> nullBlock /\
  (inLoop = true ->
   breakTo ctx <> nullBlock /\ continueTo ctx <> nullBlock).

(** Across a lowerer the IR is only appended to, and [breakTo] and
    [continueTo] are left as they were. *)
Definition keeps (a b : emitterCtx) : Prop :=
  (exists new, emitted (ir b) = emitted (ir a) ++ new) /\
  sameLoopTargets a b.

(** The parameters of a function: the children up to the first one that
    is not a parameter. *)
Fixpoint leadingParams (cs : list sym) : list sym :=
  match cs with
  | Symbol :: rest =>
      match sym_tag Symbol with
      | symParam => Symbol :: leadingParams rest
      | _ => []
      end
  | [] => []
  end.

Definition paramSize (a : architecture) (p : sym) : Z :=
  typeGetSize a (sym_dt p).

(** Parameters given offsets in order: each one the offset of the one
    before it plus the size of the one before it, the first one [o]. *)
Fixpoint offsetsInOrder (a : architecture) (ps : list sym) (o : Z)
  : list sym :=
  match ps with
  | [] => []
  | p :: rest =>
      sym_set_offset p o :: offsetsInOrder a rest (CInt.add o (paramSize a p))
  end.

(** The sum of the sizes of parameters, as an integer. *)
Definition sizeSum (a : architecture) (ps : list sym) : Z :=
  fold_right (fun p acc => paramSize a p + acc) 0 ps.

(** The sizes of parameters added up one after the other, in C. *)
Definition addSizes (a : architecture) (ps : list sym) (o : Z) : Z :=
  fold_left (fun acc p => CInt.add acc (paramSize a p)) ps o.

(** The running offset after the child [Symbol], from [offset]. *)
Definition scopeStep (a : architecture) (offset : Z) (Symbol : sym) : Z :=
  match sym_tag Symbol with
  | symScope => snd (fst (emitterScopeAssignOffsets a Symbol offset))
  | symId => CInt.sub offset (typeGetSize a (sym_dt Symbol))
  | _ => offset
  end.

(** The child [Symbol] as it is left, from the running [offset]. *)
Definition scopeChildAfter (a : architecture) (offset : Z) (Symbol : sym)
  : sym :=
  match sym_tag Symbol with
  | symScope => fst (fst (emitterScopeAssignOffsets a Symbol offset))
  | symId =>
      sym_set_offset Symbol
                     (CInt.sub offset (typeGetSize a (sym_dt Symbol)))
  | _ => Symbol
  end.

(** The children in declaration order, each left as [scopeChildAfter]
    says, the running offset going from each to the next. *)
Fixpoint scopeChildrenAfter (a : architecture) (cs : list sym) (offset : Z)
  : list sym :=
  match cs with
  | [] => []
  | Symbol :: rest =>
      scopeChildAfter a offset Symbol
      :: scopeChildrenAfter a rest (scopeStep a offset Symbol)
  end.

(** The size of the locals of a scope: of its identifiers and of the
    scopes nested in it, all added up. *)
Fixpoint scopeSize (a : architecture) (Scope : sym) {struct Scope} : Z :=
  match Scope with
  | mkSym _ _ children _ _ =>
      fold_right
        (fun Symbol acc =>
           match sym_tag Symbol with
           | symScope => scopeSize a Symbol
           | symId => typeGetSize a (sym_dt Symbol)
           | _ => 0
           end + acc)
        0 children
  end.

(** No local of the scope has a negative size. *)
Fixpoint sizesNonNeg (a : architecture) (Scope : sym) {struct Scope}
  : bool :=
  match Scope with
  | mkSym _ _ children _ _ =>
      forallb
        (fun Symbol =>
           match sym_tag Symbol with
           | symScope => sizesNonNeg a Symbol
           | symId => 0 <=? typeGetSize a (sym_dt Symbol)
           | _ => true
           end)
        children
  end.

Definition childSize (a : architecture) (Symbol : sym) : Z :=
  match sym_tag Symbol with
  | symScope => scopeSize a Symbol
  | symId => typeGetSize a (sym_dt Symbol)
  | _ => 0
  end.

Definition childNonNeg (a : architecture) (Symbol : sym) : bool :=
  match sym_tag Symbol with
  | symScope => sizesNonNeg a Symbol
  | symId => 0 <=? typeGetSize a (sym_dt Symbol)
  | _ => true
  end.

Definition childrenSize (a : architecture) (cs : list sym) : Z :=
  fold_right (fun Symbol acc => childSize a Symbol + acc) 0 cs.

(** The offsets written are between the final offset and the starting
    one. *)
Definition offsetsBetween (lo hi : Z) (reported : list sym) : Prop :=
  Forall (fun s => lo <= sym_offset s <= hi) reported.

Definition scopeExact (a : architecture) (Scope : sym) : Prop :=
  sizesNonNeg a Scope = true ->
  0 <= scopeSize a Scope /\
  forall x,
    CInt.in_range x ->
    CInt.in_range (x - scopeSize a Scope) ->
    snd (fst (emitterScopeAssignOffsets a Scope x)) = x - scopeSize a Scope /\
    offsetsBetween (x - scopeSize a Scope) x
                   (snd (emitterScopeAssignOffsets a Scope x)).

(** ** Notions for the properties of the whole lowering *)

(** A function node that [emitterFnImpl] can lower: the symbol and the
    body are there and the body is well formed. *)
Definition fnWellFormed (Node : ast) : bool :=
  match ast_symbol Node, ast_r Node with
  | Some _, Some body => wellFormedCode body
  | _, _ => false
  end.

(** A module that [emitterModule] can lower: every function among its
    children, and among those of the modules its [using] children point
    at, is one that [emitterFnImpl] can lower. *)
Fixpoint moduleWellFormed (Node : ast) {struct Node} : bool :=
  match Node with
  | mkAst _ children _ _ _ _ =>
      forallb
        (fun Current =>
           match Current with
           | mkAst tag _ _ r symbol _ =>
               if astTag_eqb tag astUsing then
                 match r with
                 | Some m => moduleWellFormed m
                 | None => true
                 end
               else if astTag_eqb tag astFnImpl then
                 match symbol, r with
                 | Some _, Some body => wellFormedCode body
                 | _, _ => false
                 end
               else true
           end)
        children
  end.

(** What [moduleWellFormed] asks of one child. *)
Definition moduleChildWellFormed (Current : ast) : bool :=
  if astTag_eqb (ast_tag Current) astUsing then
    match ast_r Current with
    | Some m => moduleWellFormed m
    | None => true
    end
  else if astTag_eqb (ast_tag Current) astFnImpl then fnWellFormed Current
  else true.

(** The function nodes that [emitterModule] reaches, in the order in which
    it reaches them: its own and, at each [using], those of the module
    used. *)
Fixpoint moduleFunctions (Node : ast) {struct Node} : list ast :=
  match Node with
  | mkAst _ children _ _ _ _ =>
      flat_map
        (fun Current =>
           match Current with
           | mkAst tag _ _ r _ _ =>
               if astTag_eqb tag astUsing then
                 match r with
                 | Some m => moduleFunctions m
                 | None => []
                 end
               else if astTag_eqb tag astFnImpl then [Current]
               else []
           end)
        children
  end.

Definition moduleChildFunctions (Current : ast) : list ast :=
  if astTag_eqb (ast_tag Current) astUsing then
    match ast_r Current with
    | Some m => moduleFunctions m
    | None => []
    end
  else if astTag_eqb (ast_tag Current) astFnImpl then [Current]
  else [].

(** The symbols of function nodes. *)
Definition fnSymbols (fns : list ast) : list sym :=
  flat_map (fun fn => match ast_symbol fn with
                      | Some s => [s]
                      | None => []
                      end) fns.

(** The label and the stack size of each prologue among [ops], in
    order. *)
Definition prologues (ops : list (irBlock * irOp))
  : list (option string * Z) :=
  flat_map (fun p => match snd p with
                     | opFnPrologue label stacksize => [(label, stacksize)]
                     | _ => []
                     end) ops.

(** The prologue and the epilogue, which open and close a function. *)
Definition isFnBracket (op : irOp) : bool :=
  match op with
  | opFnPrologue _ _ | opFnEpilogue => true
  | _ => false
  end.

(** [fnBracketed inFn ops]: read from a point inside a function or not,
    [ops] is a sequence of functions, each a prologue, operations that are
    neither prologue nor epilogue, and an epilogue, with nothing between
    two functions and nothing after the last. *)
Fixpoint fnBracketed (inFn : bool) (ops : list (irBlock * irOp)) : bool :=
  match ops with
  | [] => negb inFn
  | (_, opFnPrologue _ _) :: rest => negb inFn && fnBracketed true rest
  | (_, opFnEpilogue) :: rest => inFn && fnBracketed false rest
  | _ :: rest => inFn && fnBracketed inFn rest
  end.

(** No operation of [ops] opens or closes a function. *)
Definition noFnBracket (ops : list (irBlock * irOp)) : bool :=
  forallb (fun p => negb (isFnBracket (snd p))) ops.

(** Between [ctx] and [ctx'] the IR was appended to, with operations that
    neither open nor close a function. *)
Definition appendsBody (ctx ctx' : emitterCtx) : Prop :=
  exists new,
    emitted (ir ctx') = emitted (ir ctx) ++ new /\ noFnBracket new = true.

(** Between [ctx] and [ctx'] the IR was appended to, with whole
    functions. *)
Definition appendsFunctions (ctx ctx' : emitterCtx) : Prop :=
  exists new,
    emitted (ir ctx') = emitted (ir ctx) ++ new /\
    fnBracketed false new = true.

(** The nesting depth of the debug sink after [events], from [depth]:
    [debugEnter] goes one level in and [debugLeave] one level out;
    [None] when a [debugLeave] has no [debugEnter] to close. *)
Fixpoint debugDepth (depth : nat) (events : list debugEvent) : option nat :=
  match events with
  | [] => Some depth
  | dbgEnter _ :: rest => debugDepth (S depth) rest
  | dbgLeave :: rest =>
      match depth with
      | O => None
      | S d => debugDepth d rest
      end
  | _ :: rest => debugDepth depth rest
  end.

(** Between [ctx] and [ctx'] the debug sink was written to, and is back at
    the depth it was at. *)
Definition debugBalanced (ctx ctx' : emitterCtx) : Prop :=
  exists new,
    debug ctx' = debug ctx ++ new /\
    forall depth, debugDepth depth new = Some depth.

(** The identifiers that [emitterScopeAssignOffsets] reaches in a scope,
    in the order in which it reaches them. *)
Fixpoint scopeIds (Scope : sym) {struct Scope} : list sym :=
  match Scope with
  | mkSym _ _ children _ _ =>
      flat_map
        (fun Symbol =>
           match sym_tag Symbol with
           | symScope => scopeIds Symbol
           | symId => [Symbol]
           | _ => []
           end)
        children
  end.

Definition childIds (Symbol : sym) : list sym :=
  match sym_tag Symbol with
  | symScope => scopeIds Symbol
  | symId => [Symbol]
  | _ => []
  end.

(** [stackedBelow a top l bottom]: the symbols of [l] lie one below the
    other from [top] down to [bottom], each one ending where the one
    before it begins. *)
Fixpoint stackedBelow (a : architecture) (top : Z) (l : list sym)
                      (bottom : Z) : Prop :=
  match l with
  | [] => bottom = top
  | s :: rest =>
      sym_offset s + typeGetSize a (sym_dt s) = top /\
      stackedBelow a (sym_offset s) rest bottom
  end.

(** A symbol with every [offset] of it set to 0: what of a symbol is not
    an offset. *)
Fixpoint eraseOffsets (s : sym) {struct s} : sym :=
  match s with
  | mkSym tag dt children label _ =>
      mkSym tag dt (map eraseOffsets children) label 0
  end.

(** The blocks an operation transfers control to. *)
Definition opTargets (op : irOp) : list irBlock :=
  match op with
  | opJump target => [target]
  | opBranchOnValue _ ifTrue ifFalse => [ifTrue; ifFalse]
  | _ => []
  end.

(** What [emitterReturn] writes to the debug sink for a returned
    expression [value], from the context [ctx]: the error, when the
    request for RAX is refused and the operand to return is not in RAX. *)
Definition returnDebug (ctx : emitterCtx) (value : ast) : list debugEvent :=
  let ws := wordsize (arch ctx) in
  let retSize := typeGetSize (arch ctx) (ast_dt value) in
  let (Ret, rf) := valueLoweredAsm ctx value requestValue in
  let complaint :=
    [dbgError "emitterLine" "unable to allocate RAX for return"] in
  if retSize >? ws then
    let (rf1, base) := regAlloc rf ws in
    match snd (regRequest (operandFree rf1 Ret) regRAX ws) with
    | Some _ => []
    | None => if reg_eqb base (regGet regRAX) then [] else complaint
    end
  else
    match snd (regRequest rf regRAX retSize) with
    | Some _ => []
    | None =>
        if reg_eqb (operand_base Ret) (regGet regRAX) then []
        else complaint
    end.

(** [jumpsWithin lo hi allowed ops]: every block that an operation of
    [ops] transfers control to is one of the blocks [lo + 1 .. hi] or one
    of [allowed]. *)
Definition jumpsWithin (lo hi : nat) (allowed : list irBlock)
                       (ops : list (irBlock * irOp)) : Prop :=
  forall blk op T,
    In (blk, op) ops -> In T (opTargets op) ->
    (lo < T <= hi)%nat \/ In T allowed.

(** The jump targets of a context. *)
Definition jumpTargets (ctx : emitterCtx) : list irBlock :=
  [breakTo ctx; continueTo ctx; returnTo ctx].

(** Between [ctx] and [ctx'] the IR was appended to, with operations
    that transfer control only to the blocks [lo + 1 .. hi] and to
    [allowed]. *)
Definition appendsWithin (lo hi : nat) (allowed : list irBlock)
                         (ctx ctx' : emitterCtx) : Prop :=
  exists new,
    emitted (ir ctx') = emitted (ir ctx) ++ new /\
    jumpsWithin lo hi allowed new.

(** Between [ctx] and [ctx'] the IR was appended to, and what was
    appended transfers control only to blocks created in between, to the
    jump targets of [ctx] and to the blocks [extra]. *)
Definition scoped (extra : list irBlock) (ctx ctx' : emitterCtx) : Prop :=
  appendsWithin (blockCount (ir ctx)) (blockCount (ir ctx'))
                (extra ++ jumpTargets ctx) ctx ctx'.

(** The statements that are lowered to a jump alone. *)
Definition isJumpStatement (tag : astTag) : bool :=
  match tag with
  | astReturn | astBreak | astContinue => true
  | _ => false
  end.

(** ** The contexts in which bodies are lowered *)

(** The context in which [emitterFnImpl] lowers the body of the function
    whose symbol is [symbol], from [ctx]: after [debugEnter], the reports
    of the parameters and of the locals, the two blocks created, the
    assignment of [returnTo] and the prologue. *)
Definition fnBodyContext (ctx : emitterCtx) (symbol : sym) : emitterCtx :=
  let params := fnAssignParams (arch ctx) symbol in
  let locals := emitterScopeAssignOffsets (arch ctx) (fst params) 0 in
  let block := S (blockCount (ir ctx)) in
  let epilogue := S block in
  emit block
       (opFnPrologue (sym_label (fst (fst locals)))
                     (CInt.neg (snd (fst locals))))
       (set_returnTo epilogue
          (newBlocks 2
             (set_symtab (symtab ctx ++ [fst (fst locals)])
                (set_debug
                   (debug ctx
                    ++ dbgEnter "FnImpl"
                       :: map dbgReportSymbol (snd params ++ snd locals))
                   ctx)))).




(** The context in which [emitterLine] lowers the lines of a nested
    block [s], from [ctx]. *)
Definition codeContext (s : ast) (ctx : emitterCtx) : emitterCtx :=
  newBlocks 1 (logged (dbgEnter (astTagGetStr (ast_tag s))) ctx).

(** The context in which [emitterLine] lowers the first arm of a branch
    [s], from the block [block] and [ctx]. *)
Definition branchContext (block : irBlock) (s : ast) (ctx : emitterCtx)
  : emitterCtx :=
  branched block (ast_firstChild s)
           (S (S (blockCount (ir ctx)))) (S (S (S (blockCount (ir ctx)))))
           (newBlocks 3 (logged (dbgEnter (astTagGetStr (ast_tag s))) ctx)).

(** [loweredIn block lines ctx bj j cj]: while [lines] are lowered from
    the block [block] in [ctx], the statement [j] is lowered from the
    block [bj] in the context [cj], and no loop or iter of [lines]
    encloses [j].  The statement is one of the lines, or is lowered in a
    nested block or in an arm of a branch among them. *)
Inductive loweredIn
  : irBlock -> list ast -> emitterCtx -> irBlock -> ast -> emitterCtx -> Prop :=
| loweredIn_line block pre j post ctx c0 b0 :
    emitterLines block pre ctx = (c0, Some b0) ->
    loweredIn block (pre ++ j :: post) ctx b0 j c0
| loweredIn_code block pre s post ctx c0 b0 bj j cj :
    emitterLines block pre ctx = (c0, Some b0) ->
    ast_tag s = astCode ->
    loweredIn b0 (ast_children s) (codeContext s c0) bj j cj ->
    loweredIn block (pre ++ s :: post) ctx bj j cj
| loweredIn_true block pre s post ctx c0 b0 l bj j cj :
    emitterLines block pre ctx = (c0, Some b0) ->
    ast_tag s = astBranch ->
    ast_l s = Some l ->
    loweredIn (S (S (blockCount (ir c0)))) (ast_children l)
              (branchContext b0 s c0) bj j cj ->
    loweredIn block (pre ++ s :: post) ctx bj j cj
| loweredIn_false block pre s post ctx c0 b0 l r cF bj j cj :
    emitterLines block pre ctx = (c0, Some b0) ->
    ast_tag s = astBranch ->
    ast_l s = Some l ->
    ast_r s = Some r ->
    emitterCode (S (S (blockCount (ir c0)))) l (S (blockCount (ir c0)))
                (branchContext b0 s c0) = (cF, Some tt) ->
    loweredIn (S (S (S (blockCount (ir c0))))) (ast_children r) cF bj j cj ->
    loweredIn block (pre ++ s :: post) ctx bj j cj.

End Notions.

(** ** Induction over AST nodes *)

Section AstInduction.

Variable P : ast -> Prop.
Hypothesis step :
  forall tag children l r symbol dt,
    Forall P children ->
    (forall n, l = Some n -> P n) ->
    (forall n, r = Some n -> P n) ->
    P (mkAst tag children l r symbol dt).

Fixpoint ast_nested_ind (n : ast) : P n :=
  match n with
  | mkAst tag children l r symbol dt =>
      step tag symbol dt
        ((fix all (cs : list ast) : Forall P cs :=
            match cs with
            | [] => Forall_nil P
            | c :: rest => Forall_cons c (ast_nested_ind c) (all rest)
            end) children)
        (match l as o return forall m, o = Some m -> P m with
         | Some a =>
             fun m e => match e in _ = s
                              return match s with Some x => P x | None => True end
                        with eq_refl => ast_nested_ind a end
         | None => fun m e => match e in _ = s
                                    return match s with Some x => P x | None => True end
                              with eq_refl => I end
         end)
        (match r as o return forall m, o = Some m -> P m with
         | Some a =>
             fun m e => match e in _ = s
                              return match s with Some x => P x | None => True end
                        with eq_refl => ast_nested_ind a end
         | None => fun m e => match e in _ = s
                                    return match s with Some x => P x | None => True end
                              with eq_refl => I end
         end)
  end.

End AstInduction.

(** ** Induction over symbols *)

Section SymInduction.

Variable P : sym -> Prop.
Hypothesis step :
  forall tag dt children label offset,
    Forall P children -> P (mkSym tag dt children label offset).

Fixpoint sym_nested_ind (s : sym) : P s :=
  match s with
  | mkSym tag dt children label offset =>
      step tag dt label offset
        ((fix all (cs : list sym) : Forall P cs :=
            match cs with
            | [] => Forall_nil P
            | c :: rest => Forall_cons c (sym_nested_ind c) (all rest)
            end) children)
  end.

End SymInduction.

(** * A concrete instance

    Collaborators on which the definitions can be run: a type handle is the
    size of its type, a function type is [100 +] the size of what it
    returns, the lowerers create no block and leave the current block as it
    is, and the register allocator grants a register that is not in use. *)
Module Demo.

Definition inUse (rf : regFile) (r : regIndex) : bool :=
  existsb (fun p => regIndex_eqb (fst p) r) rf.

Definition demoRequest (rf : regFile) (r : regIndex) (size : Z)
  : regFile * reg :=
  if inUse rf r then (rf, None) else ((r, size) :: rf, Some r).

Definition demoAlloc (rf : regFile) (size : Z) : regFile * reg :=
  match filter (fun r => negb (inUse rf r))
               [regRBX; regRCX; regRDX; regRSI; regRDI; regRAX] with
  | r :: _ => ((r, size) :: rf, Some r)
  | [] => (rf, None)
  end.

Definition demoFree (rf : regFile) (r : reg) : regFile :=
  match r with
  | Some i => filter (fun p => negb (regIndex_eqb (fst p) i)) rf
  | None => rf
  end.

Definition demoTagStr (t : astTag) : string :=
  match t with
  | astUndefined => "undefined" | astInvalid => "invalid"
  | astEmpty => "empty" | astModule => "module" | astUsing => "using"
  | astFnImpl => "fn impl" | astDecl => "decl" | astCode => "code"
  | astBranch => "branch" | astLoop => "loop" | astIter => "iter"
  | astReturn => "return" | astBreak => "break" | astContinue => "continue"
  | astBOP => "bop" | astUOP => "uop" | astTOP => "top"
  | astIndex => "index" | astCall => "call" | astCast => "cast"
  | astSizeof => "sizeof" | astLiteral => "literal"
  end.

(** The value lowerer leaves its result in RAX, which it takes if it is
    free. *)
Definition demoValue (rf : regFile) : operand * regFile :=
  (operandCreateReg (Some regRAX), fst (demoRequest rf regRAX 8)).

#[export] Instance demo : Externals := {
  typeGetSize := fun _ t => let (id) := t in Z.of_nat id;
  typeGetReturn := fun t => let (id) := t in typeHandle (id - 100);
  astTagGetStr := demoTagStr;
  valueLowered := fun ctx block _ _ => (0%nat, block, operandVoid, regs ctx);
  valueLoweredAsm := fun ctx _ _ => demoValue (regs ctx);
  declLowered := fun ctx block _ => (0%nat, block, regs ctx);
  declLoweredAsm := fun ctx _ => regs ctx;
  branchLowered := fun ctx _ _ _ _ => (0%nat, regs ctx);
  regAlloc := demoAlloc;
  regRequest := demoRequest;
  regFree := demoFree;
  operandFree := fun rf o => demoFree rf (operand_base o)
}.

Definition amd64 : architecture := mkArch 8 (fun s =>
  let (t, d, c, _, o) := s in mkSym t d c (Some "_f"%string) o).

Definition ctx0 : emitterCtx := emitterInit "out.s" amd64.

Definition void : type := typeHandle 0.
Definition int : type := typeHandle 4.

Definition node (tag : astTag) (children : list ast) (l r : option ast)
  : ast :=
  mkAst tag children l r None void.

Definition leaf (tag : astTag) : ast := node tag [] None None.
Definition code (lines : list ast) : ast := node astCode lines None None.
Definition literal : ast := mkAst astLiteral [] None None None int.

(** [while (1) { break; continue; }] and [do { break; } while (1);] *)
Definition whileLoop : ast :=
  node astLoop [] (Some literal)
       (Some (code [leaf astBreak; leaf astContinue])).
Definition doLoop : ast :=
  node astLoop [] (Some (code [leaf astBreak])) (Some literal).

(** [for (1; 1; 1) { continue; }] *)
Definition forLoop : ast :=
  node astIter [literal; literal; literal]
       (Some (code [leaf astContinue])) None.

(** [if (1) {} else {}] *)
Definition ifElse : ast :=
  node astBranch [literal] (Some (code [])) (Some (code [])).

(** [return;] and [return 1;] *)
Definition returnVoid : ast := leaf astReturn.
Definition returnInt : ast := node astReturn [] None (Some literal).

Definition local (size : nat) : sym :=
  mkSym symId (typeHandle size) [] None 0.
Definition param (size : nat) : sym :=
  mkSym symParam (typeHandle size) [] None 0.
Definition scope (children : list sym) : sym :=
  mkSym symScope void children None 0.

(** [int f (int a, long b) { int x; { long y; } { int z; } ... }] *)
Definition fnSymbol : sym :=
  mkSym symOther (typeHandle 104)
        [param 4; param 8; local 4; scope [local 8]; scope [local 4]]
        None 0.

Definition fnImpl (body : list ast) : ast :=
  mkAst astFnImpl [] None (Some (code body)) (Some fnSymbol) void.

(** [void g () { break; }] as the only function of a module, and
  [int f (...) { while (1) { break; continue; } }]. *)
Definition breakFn : ast := fnImpl [leaf astBreak].
Definition breakModule : ast := node astModule [breakFn] None None.
Definition loopFn : ast := fnImpl [whileLoop].

(** A statement that no branch of [emitterLine] handles, alone and followed
  by an empty statement. *)
Definition invalid : ast := leaf astInvalid.
Definition invalidBlock : ast := code [invalid; leaf astEmpty].

(** [struct s f () { return v; }] with [v] three words wide. *)
Definition wide : ast := mkAst astLiteral [] None None None (typeHandle 24).
Definition returnWide : ast := node astReturn [] None (Some wide).

(** [void g (int a) { int x; { long y; } }], with its label. *)
Definition labelled : sym :=
  mkSym symOther (typeHandle 100) [param 4; local 4; scope [local 8]]
        (Some "_g"%string) 0.

(** A module that is used, and a module that uses it and has a
  declaration, a function, an empty child and a child of a tag that the
  module lowerer does not handle. *)
Definition usedModule : ast :=
  node astModule
       [mkAst astFnImpl [] None (Some (code [returnVoid])) (Some labelled)
              void]
       None None.
Definition program : ast :=
  node astModule
       [node astUsing [] None (Some usedModule); leaf astDecl;
        fnImpl [forLoop; returnInt]; leaf astEmpty; leaf astInvalid]
       None None.

(** [1; return; 1;] *)
Definition deadLines : list ast := [literal; returnVoid; literal].

(** Collaborators with no register to spare: the value is lowered into
  RBX and every request for a register is refused. *)
Definition busy : Externals := {|
  typeGetSize := fun _ t => let (id) := t in Z.of_nat id;
  typeGetReturn := fun t => t;
  astTagGetStr := demoTagStr;
  valueLowered := fun ctx block _ _ => (0%nat, block, operandVoid, regs ctx);
  valueLoweredAsm :=
    fun ctx _ _ => (operandCreateReg (Some regRBX), regs ctx);
  declLowered := fun ctx block _ => (0%nat, block, regs ctx);
  declLoweredAsm := fun ctx _ => regs ctx;
  branchLowered := fun ctx _ _ _ _ => (0%nat, regs ctx);
  regAlloc := fun rf _ => (rf, Some regRCX);
  regRequest := fun rf _ _ => (rf, None);
  regFree := fun rf _ => rf;
  operandFree := fun rf _ => rf
|}.

End Demo.

(** * Reasoning about the emitter *)

(** ** Runs of the monad *)

Lemma bind_run {A B : Type} (m : M A) (f : A -> M B) ctx :
  bind m f ctx =
  match m ctx with
  | (ctx', Some a) => f a ctx'
  | (ctx', None) => (ctx', None)
  end.
Proof. reflexivity. Qed.

Lemma bind_ok {A B : Type} (m : M A) (f : A -> M B) ctx ctx' b :
  bind m f ctx = (ctx', Some b) ->
  exists ctx1 a, m ctx = (ctx1, Some a) /\ f a ctx1 = (ctx', Some b).
Proof.
  unfold bind. destruct (m ctx) as [ctx1 [a|]]; intros H.
  - exists ctx1, a. split; [reflexivity | exact H].
  - discriminate H.
Qed.

Lemma bind_ok_intro {A B : Type} (m : M A) (f : A -> M B) ctx ctx1 a :
  m ctx = (ctx1, Some a) -> bind m f ctx = f a ctx1.
Proof. unfold bind. intros ->. reflexivity. Qed.

Lemma deref_ok {A : Type} (p : option A) ctx ctx' a :
  deref p ctx = (ctx', Some a) -> p = Some a /\ ctx' = ctx.
Proof.
  destruct p; cbn; intros H; inversion H; subst; auto.
Qed.

Section Preserves.

Variable R : emitterCtx -> emitterCtx -> Prop.
Hypothesis R_refl : forall c, R c c.
Hypothesis R_trans : forall a b c, R a b -> R b c -> R a c.

Lemma preserves_ret {A : Type} (a : A) : preserves R (ret a).
Proof. intros ctx. apply R_refl. Qed.

Lemma preserves_undefined {A : Type} : preserves R (@undefined A).
Proof. intros ctx. apply R_refl. Qed.

Lemma preserves_get {A : Type} (f : emitterCtx -> A) : preserves R (get f).
Proof. intros ctx. apply R_refl. Qed.

Lemma preserves_deref {A : Type} (p : option A) : preserves R (deref p).
Proof. destruct p; intros ctx; apply R_refl. Qed.

Lemma preserves_bind {A B : Type} (m : M A) (f : A -> M B) :
  preserves R m -> (forall a, preserves R (f a)) -> preserves R (bind m f).
Proof.
  intros Hm Hf ctx. rewrite bind_run.
  specialize (Hm ctx). destruct (m ctx) as [ctx1 [a|]]; cbn in *.
  - eapply R_trans; [exact Hm | apply Hf].
  - exact Hm.
Qed.

Lemma preserves_ok_ret {A : Type} (a : A) : preserves_ok R (ret a).
Proof. intros ctx ctx' x H. inversion H; subst. apply R_refl. Qed.

Lemma preserves_ok_undefined {A : Type} : preserves_ok R (@undefined A).
Proof. intros ctx ctx' x H. discriminate H. Qed.

Lemma preserves_ok_get {A : Type} (f : emitterCtx -> A) :
  preserves_ok R (get f).
Proof. intros ctx ctx' x H. inversion H; subst. apply R_refl. Qed.

Lemma preserves_ok_deref {A : Type} (p : option A) :
  preserves_ok R (deref p).
Proof.
  intros ctx ctx' x H. apply deref_ok in H. destruct H as [_ ->].
  apply R_refl.
Qed.

Lemma preserves_ok_bind {A B : Type} (m : M A) (f : A -> M B) :
  preserves_ok R m -> (forall a, preserves_ok R (f a)) ->
  preserves_ok R (bind m f).
Proof.
  intros Hm Hf ctx ctx' b H.
  apply bind_ok in H. destruct H as (ctx1 & a & H1 & H2).
  eapply R_trans; [eapply Hm; exact H1 | eapply Hf; exact H2].
Qed.

Lemma preserves_is_ok {A : Type} (m : M A) :
  preserves R m -> preserves_ok R m.
Proof. intros Hm ctx ctx' a H. specialize (Hm ctx). rewrite H in Hm. exact Hm. Qed.

End Preserves.

(** ** What no lowerer undoes *)

Lemma grows_refl c : grows c c.
Proof.
  constructor; auto; exists []; symmetry; apply app_nil_r.
Qed.

Lemma grows_trans a b c : grows a b -> grows b c -> grows a c.
Proof.
  intros [r1 a1 b1 [e1 E1] [d1 D1] s1] [r2 a2 b2 [e2 E2] [d2 D2] s2].
  constructor.
  - congruence.
  - congruence.
  - lia.
  - exists (e1 ++ e2). rewrite E2, E1. symmetry. apply app_assoc.
  - exists (d1 ++ d2). rewrite D2, D1. symmetry. apply app_assoc.
  - congruence.
Qed.

Lemma sameLoopTargets_refl c : sameLoopTargets c c.
Proof. split; reflexivity. Qed.

Lemma sameLoopTargets_trans a b c :
  sameLoopTargets a b -> sameLoopTargets b c -> sameLoopTargets a c.
Proof. intros [H1 H2] [H3 H4]. split; congruence. Qed.

Lemma emitter_ind (PL PC : ast -> Prop) :
  (forall n, Forall PL (ast_children n) -> PC n) ->
  (forall n, PC n ->
             (forall l, ast_l n = Some l -> PC l) ->
             (forall r, ast_r n = Some r -> PC r) -> PL n) ->
  forall n, PL n /\ PC n.
Proof.
  intros Hcode Hline.
  apply ast_nested_ind.
  intros tag children l r symbol dt Hc Hl Hr.
  assert (C : PC (mkAst tag children l r symbol dt)).
  { apply Hcode. cbn. eapply Forall_impl; [| exact Hc]. intros a [H _]. exact H. }
  split; [| exact C].
  apply Hline.
  - exact C.
  - cbn. intros n E. apply (Hl n E).
  - cbn. intros n E. apply (Hr n E).
Qed.

Create HintDb grows.
Create HintDb targets.

Section EmitterFacts.

Context {X : Externals}.

Lemma emitterLine_eq block Node :
  emitterLine block Node =
  (debugEnter (astTagGetStr (ast_tag Node)) ;;
   continuation <- emitterLineDispatch block Node ;;
   debugLeave ;;
   deref continuation).
Proof. destruct Node; reflexivity. Qed.

Lemma emitterModule_eq Node :
  emitterModule Node =
  (debugEnter "Module" ;;
   emitterModuleChildren (ast_children Node) ;;
   debugLeave).
Proof. destruct Node; reflexivity. Qed.

Lemma emitterLines_nil block : emitterLines block [] = ret block.
Proof. reflexivity. Qed.

Lemma emitterLines_cons block Current rest :
  emitterLines block (Current :: rest) =
  (block' <- emitterLine block Current ;; emitterLines block' rest).
Proof. reflexivity. Qed.

Lemma emitterCode_eq block Node continuation :
  emitterCode block Node continuation =
  (block' <- emitterLines block (ast_children Node) ;;
   irJump block' continuation).
Proof. reflexivity. Qed.

(** *** Every lowerer only adds to the IR *)

Lemma grows_bind {A B : Type} (m : M A) (f : A -> M B) :
  preserves grows m -> (forall a, preserves grows (f a)) ->
  preserves grows (bind m f).
Proof. apply (preserves_bind grows_trans). Qed.

Ltac prim :=
  intros ctx; unfold regAllocM, regRequestM; cbn;
  repeat match goal with
         | |- context [let (_, _) := ?x in _] => destruct x
         end;
  constructor; cbn;
  first [ reflexivity | lia
        | exists []; symmetry; apply app_nil_r
        | eexists; reflexivity ].

Lemma grows_debugLog e : preserves grows (debugLog e).
Proof. prim. Qed.
Lemma grows_irAppend block op : preserves grows (irAppend block op).
Proof. prim. Qed.
Lemma grows_irBlockCreate : preserves grows irBlockCreate.
Proof. prim. Qed.
Lemma grows_irBlocksCreated k : preserves grows (irBlocksCreated k).
Proof. prim. Qed.
Lemma grows_setRegs r : preserves grows (setRegs r).
Proof. prim. Qed.
Lemma grows_asmEmit op : preserves grows (asmEmit op).
Proof. prim. Qed.
Lemma grows_emitterSetBreakTo b : preserves grows (emitterSetBreakTo b).
Proof. prim. Qed.
Lemma grows_emitterSetContinueTo b : preserves grows (emitterSetContinueTo b).
Proof. prim. Qed.
Lemma grows_assignBreakTo b : preserves grows (assignBreakTo b).
Proof. prim. Qed.
Lemma grows_assignContinueTo b : preserves grows (assignContinueTo b).
Proof. prim. Qed.
Lemma grows_regAllocM size : preserves grows (regAllocM size).
Proof. prim. Qed.
Lemma grows_regRequestM r size : preserves grows (regRequestM r size).
Proof. prim. Qed.
Lemma grows_regFreeM r : preserves grows (regFreeM r).
Proof. prim. Qed.
Lemma grows_operandFreeM o : preserves grows (operandFreeM o).
Proof. prim. Qed.

Hint Resolve grows_debugLog grows_irAppend grows_irBlockCreate
     grows_irBlocksCreated grows_setRegs grows_asmEmit
     grows_emitterSetBreakTo grows_emitterSetContinueTo
     grows_assignBreakTo grows_assignContinueTo grows_regAllocM
     grows_regRequestM grows_regFreeM grows_operandFreeM : grows.

Ltac grows_tac :=
  repeat first
    [ solve [eauto with grows]
    | match goal with
      | |- preserves _ (bind _ _) => apply grows_bind; [| intros ?]
      | |- preserves _ (ret _) => apply (preserves_ret grows grows_refl)
      | |- preserves _ undefined =>
          apply (preserves_undefined grows grows_refl)
      | |- preserves _ (get _) => apply (preserves_get grows grows_refl)
      | |- preserves _ (deref _) => apply (preserves_deref grows grows_refl)
      | |- preserves _ (match ?x with _ => _ end) => destruct x eqn:?
      end ].

Lemma grows_emitterValue block Node request :
  preserves grows (emitterValue block Node request).
Proof. unfold emitterValue. grows_tac. Qed.

Lemma grows_emitterValueAsm Node request :
  preserves grows (emitterValueAsm Node request).
Proof. unfold emitterValueAsm. grows_tac. Qed.

Lemma grows_emitterDecl block Node : preserves grows (emitterDecl block Node).
Proof. unfold emitterDecl. grows_tac. Qed.

Lemma grows_emitterDeclAsm Node : preserves grows (emitterDeclAsm Node).
Proof. unfold emitterDeclAsm. grows_tac. Qed.

Lemma grows_emitterBranchOnValue block cond t f :
  preserves grows (emitterBranchOnValue block cond t f).
Proof. unfold emitterBranchOnValue. grows_tac. Qed.

Hint Resolve grows_emitterValue grows_emitterValueAsm grows_emitterDecl
     grows_emitterDeclAsm grows_emitterBranchOnValue : grows.

Lemma grows_emitterReturn block Node :
  preserves grows (emitterReturn block Node).
Proof.
  unfold emitterReturn, emitterReturnValue, returnThroughTemp, irJump,
    debugError.
  grows_tac.
Qed.

Hint Resolve grows_emitterReturn : grows.

Lemma grows_emitterLines_of block cs :
  Forall (fun n => forall b, preserves grows (emitterLine b n)) cs ->
  preserves grows (emitterLines block cs).
Proof.
  intros H. revert block. induction H as [| c rest Hc _ IH]; intros block.
  - apply (preserves_ret grows grows_refl).
  - rewrite emitterLines_cons. apply grows_bind; [apply Hc | exact IH].
Qed.

Lemma grows_statements :
  forall n : ast,
    (forall block, preserves grows (emitterLine block n)) /\
    (forall block k, preserves grows (emitterCode block n k)).
Proof.
  apply emitter_ind.
  - intros n H block k. rewrite emitterCode_eq.
    apply grows_bind; [apply grows_emitterLines_of; exact H | intros b].
    unfold irJump. auto with grows.
  - intros n C L R block. rewrite emitterLine_eq.
    unfold emitterLineDispatch, emitterLineDispatch_of, emitterBranch_of,
      emitterLoop_of, emitterIter_of, irJump, debugEnter, debugLeave,
      debugErrorUnhandled.
    change (emitterCode_of emitterLine) with emitterCode.
    grows_tac.
Qed.

Lemma grows_emitterLine block n : preserves grows (emitterLine block n).
Proof. apply grows_statements. Qed.

Lemma grows_emitterCode block n k : preserves grows (emitterCode block n k).
Proof. apply grows_statements. Qed.

Lemma grows_emitterLines block cs : preserves grows (emitterLines block cs).
Proof.
  apply grows_emitterLines_of. apply Forall_forall. intros n _ b.
  apply grows_emitterLine.
Qed.

Hint Resolve grows_emitterLine grows_emitterCode grows_emitterLines : grows.

Lemma grows_emitterBranch block n : preserves grows (emitterBranch block n).
Proof.
  unfold emitterBranch, emitterBranch_of.
  change (emitterCode_of emitterLine) with emitterCode. grows_tac.
Qed.

Lemma grows_emitterLoop block n : preserves grows (emitterLoop block n).
Proof.
  unfold emitterLoop, emitterLoop_of, irJump.
  change (emitterCode_of emitterLine) with emitterCode. grows_tac.
Qed.

Lemma grows_emitterIter block n : preserves grows (emitterIter block n).
Proof.
  unfold emitterIter, emitterIter_of.
  change (emitterCode_of emitterLine) with emitterCode. grows_tac.
Qed.

(** *** The loop jump targets across a lowerer *)

Lemma targets_bind {A B : Type} (m : M A) (f : A -> M B) :
  preserves_ok sameLoopTargets m ->
  (forall a, preserves_ok sameLoopTargets (f a)) ->
  preserves_ok sameLoopTargets (bind m f).
Proof. apply (preserves_ok_bind sameLoopTargets_trans). Qed.

Ltac prim_targets :=
  apply preserves_is_ok;
  intros ctx; unfold regAllocM, regRequestM; cbn;
  repeat match goal with
         | |- context [let (_, _) := ?x in _] => destruct x
         end;
  split; reflexivity.

Lemma targets_debugLog e : preserves_ok sameLoopTargets (debugLog e).
Proof. prim_targets. Qed.
Lemma targets_irAppend block op :
  preserves_ok sameLoopTargets (irAppend block op).
Proof. prim_targets. Qed.
Lemma targets_irBlockCreate : preserves_ok sameLoopTargets irBlockCreate.
Proof. prim_targets. Qed.
Lemma targets_irBlocksCreated k :
  preserves_ok sameLoopTargets (irBlocksCreated k).
Proof. prim_targets. Qed.
Lemma targets_setRegs r : preserves_ok sameLoopTargets (setRegs r).
Proof. prim_targets. Qed.
Lemma targets_asmEmit op : preserves_ok sameLoopTargets (asmEmit op).
Proof. prim_targets. Qed.
Lemma targets_regAllocM size : preserves_ok sameLoopTargets (regAllocM size).
Proof. prim_targets. Qed.
Lemma targets_regRequestM r size :
  preserves_ok sameLoopTargets (regRequestM r size).
Proof. prim_targets. Qed.
Lemma targets_regFreeM r : preserves_ok sameLoopTargets (regFreeM r).
Proof. prim_targets. Qed.
Lemma targets_operandFreeM o : preserves_ok sameLoopTargets (operandFreeM o).
Proof. prim_targets. Qed.

Hint Resolve targets_debugLog targets_irAppend targets_irBlockCreate
     targets_irBlocksCreated targets_setRegs targets_asmEmit
     targets_regAllocM targets_regRequestM targets_regFreeM
     targets_operandFreeM : targets.

(** The loop and iter lowerers set [breakTo] and [continueTo] for the body
    and put the old values back after it. *)
Lemma targets_save_restore {A B : Type} K L (body : M A) (rest : M B) :
  preserves_ok sameLoopTargets rest ->
  preserves_ok sameLoopTargets
    (oldBreakTo <- emitterSetBreakTo K ;;
     oldContinueTo <- emitterSetContinueTo L ;;
     body ;;
     assignBreakTo oldBreakTo ;;
     assignContinueTo oldContinueTo ;;
     rest).
Proof.
  intros Hrest ctx ctx' b H.
  apply bind_ok in H. destruct H as (c1 & oldB & H1 & H).
  apply bind_ok in H. destruct H as (c2 & oldC & H2 & H).
  apply bind_ok in H. destruct H as (c3 & x & H3 & H).
  apply bind_ok in H. destruct H as (c4 & u4 & H4 & H).
  apply bind_ok in H. destruct H as (c5 & u5 & H5 & H).
  cbn in H1, H2, H4, H5.
  inversion H1; subst c1 oldB; clear H1.
  inversion H2; subst c2 oldC; clear H2.
  inversion H4; subst c4; clear H4.
  inversion H5; subst c5; clear H5.
  apply Hrest in H. destruct H as [Hb Hc]. cbn in Hb, Hc.
  split; assumption.
Qed.

Ltac targets_tac :=
  repeat first
    [ solve [eauto with targets]
    | match goal with
      | |- preserves_ok _ (bind (emitterSetBreakTo _) _) =>
          apply targets_save_restore
      | |- preserves_ok _ (bind _ _) => apply targets_bind; [| intros ?]
      | |- preserves_ok _ (ret _) =>
          apply (preserves_ok_ret sameLoopTargets sameLoopTargets_refl)
      | |- preserves_ok _ undefined =>
          apply (preserves_ok_undefined sameLoopTargets)
      | |- preserves_ok _ (get _) =>
          apply (preserves_ok_get sameLoopTargets sameLoopTargets_refl)
      | |- preserves_ok _ (deref _) =>
          apply (preserves_ok_deref sameLoopTargets sameLoopTargets_refl)
      | |- preserves_ok _ (match ?x with _ => _ end) => destruct x eqn:?
      end ].

Lemma targets_emitterValue block Node request :
  preserves_ok sameLoopTargets (emitterValue block Node request).
Proof. unfold emitterValue. targets_tac. Qed.

Lemma targets_emitterValueAsm Node request :
  preserves_ok sameLoopTargets (emitterValueAsm Node request).
Proof. unfold emitterValueAsm. targets_tac. Qed.

Lemma targets_emitterDecl block Node :
  preserves_ok sameLoopTargets (emitterDecl block Node).
Proof. unfold emitterDecl. targets_tac. Qed.

Lemma targets_emitterBranchOnValue block cond t f :
  preserves_ok sameLoopTargets (emitterBranchOnValue block cond t f).
Proof. unfold emitterBranchOnValue. targets_tac. Qed.

Hint Resolve targets_emitterValue targets_emitterValueAsm
     targets_emitterDecl targets_emitterBranchOnValue : targets.

Lemma targets_emitterReturn block Node :
  preserves_ok sameLoopTargets (emitterReturn block Node).
Proof.
  unfold emitterReturn, emitterReturnValue, returnThroughTemp, irJump,
    debugError.
  targets_tac.
Qed.

Hint Resolve targets_emitterReturn : targets.

Lemma targets_emitterLines_of block cs :
  Forall (fun n => forall b, preserves_ok sameLoopTargets (emitterLine b n))
         cs ->
  preserves_ok sameLoopTargets (emitterLines block cs).
Proof.
  intros H. revert block. induction H as [| c rest Hc _ IH]; intros block.
  - apply (preserves_ok_ret sameLoopTargets sameLoopTargets_refl).
  - rewrite emitterLines_cons. apply targets_bind; [apply Hc | exact IH].
Qed.

Lemma targets_statements :
  forall n : ast,
    (forall block, preserves_ok sameLoopTargets (emitterLine block n)) /\
    (forall block k, preserves_ok sameLoopTargets (emitterCode block n k)).
Proof.
  apply emitter_ind.
  - intros n H block k. rewrite emitterCode_eq.
    apply targets_bind; [apply targets_emitterLines_of; exact H | intros b].
    unfold irJump. auto with targets.
  - intros n C L R block. rewrite emitterLine_eq.
    unfold emitterLineDispatch, emitterLineDispatch_of, emitterBranch_of,
      emitterLoop_of, emitterIter_of, irJump, debugEnter, debugLeave,
      debugErrorUnhandled.
    change (emitterCode_of emitterLine) with emitterCode.
    targets_tac.
Qed.

Lemma targets_emitterLine block n :
  preserves_ok sameLoopTargets (emitterLine block n).
Proof. apply targets_statements. Qed.

Lemma targets_emitterCode block n k :
  preserves_ok sameLoopTargets (emitterCode block n k).
Proof. apply targets_statements. Qed.

Lemma targets_emitterLines block cs :
  preserves_ok sameLoopTargets (emitterLines block cs).
Proof.
  apply targets_emitterLines_of. apply Forall_forall. intros n _ b.
  apply targets_emitterLine.
Qed.

Hint Resolve targets_emitterLine targets_emitterCode targets_emitterLines
  : targets.

Lemma targets_emitterBranch block n :
  preserves_ok sameLoopTargets (emitterBranch block n).
Proof.
  unfold emitterBranch, emitterBranch_of.
  change (emitterCode_of emitterLine) with emitterCode. targets_tac.
Qed.



(** *** The runs of the lowerers, step by step *)

Lemma emitted_emit block op ctx :
  emitted (ir (emit block op ctx)) = emitted (ir ctx) ++ [(block, op)].
Proof. reflexivity. Qed.

Lemma emitterBranchOnValue_run block cond t f ctx :
  emitterBranchOnValue block cond t f ctx
  = (branched block cond t f ctx, Some tt).
Proof.
  unfold branched, emitterBranchOnValue, bind, get.
  destruct (branchLowered ctx block cond t f) as [created rf]. reflexivity.
Qed.

Lemma branched_facts block cond t f ctx :
  emitted (ir (branched block cond t f ctx))
  = emitted (ir ctx) ++ [(block, opBranchOnValue cond t f)] /\
  breakTo (branched block cond t f ctx) = breakTo ctx /\
  continueTo (branched block cond t f ctx) = continueTo ctx /\
  returnTo (branched block cond t f ctx) = returnTo ctx.
Proof.
  unfold branched, emitterBranchOnValue, bind, get.
  destruct (branchLowered ctx block cond t f) as [created rf]. cbn. auto.
Qed.

Lemma emitted_branched block cond t f ctx :
  emitted (ir (branched block cond t f ctx))
  = emitted (ir ctx) ++ [(block, opBranchOnValue cond t f)].
Proof. apply branched_facts. Qed.

Lemma grows_branched block cond t f ctx :
  grows ctx (branched block cond t f ctx).
Proof. apply grows_emitterBranchOnValue. Qed.

Lemma targets_branched block cond t f k ctx :
  sameLoopTargets ctx (branched block cond t f (newBlocks k ctx)).
Proof.
  destruct (branched_facts block cond t f (newBlocks k ctx))
    as (_ & Bb & Bc & _).
  split; [rewrite Bb | rewrite Bc]; reflexivity.
Qed.

Ltac inv_branch H :=
  rewrite emitterBranchOnValue_run in H; inversion H; subst; clear H.

Ltac inv_bind H :=
  let c := fresh "c" in
  let a := fresh "a" in
  let Hrun := fresh "Hrun" in
  apply bind_ok in H; destruct H as (c & a & Hrun & H).

Ltac inv_prim H :=
  cbn in H; inversion H; subst; clear H.

Ltac units :=
  repeat match goal with
         | u : unit |- _ => destruct u
         end.

Lemma irBlockCreate_run ctx ctx' b :
  irBlockCreate ctx = (ctx', Some b) ->
  b = S (blockCount (ir ctx)) /\ ctx' = newBlocks 1 ctx.
Proof. intros H. inv_prim H. split; reflexivity. Qed.

Lemma create3_run {A : Type} (f : irBlock -> irBlock -> irBlock -> M A)
      ctx ctx' a :
  (b1 <- irBlockCreate ;; b2 <- irBlockCreate ;; b3 <- irBlockCreate ;;
   f b1 b2 b3) ctx = (ctx', Some a) ->
  f (S (blockCount (ir ctx))) (S (S (blockCount (ir ctx))))
    (S (S (S (blockCount (ir ctx))))) (newBlocks 3 ctx) = (ctx', Some a).
Proof. intros H. exact H. Qed.

Lemma emitterBranch_run block Node ctx ctx' K :
  emitterBranch block Node ctx = (ctx', Some K) ->
  exists l r ctx1,
    let continuation := S (blockCount (ir ctx)) in
    let ifTrue := S continuation in
    let ifFalse := S ifTrue in
    K = continuation /\
    ast_l Node = Some l /\ ast_r Node = Some r /\
    emitterCode ifTrue l continuation
      (branched block (ast_firstChild Node) ifTrue ifFalse
                (newBlocks 3 ctx)) = (ctx1, Some tt) /\
    emitterCode ifFalse r continuation ctx1 = (ctx', Some tt).
Proof.
  intros H. unfold emitterBranch, emitterBranch_of in H.
  apply create3_run in H.
  inv_bind H. inv_branch Hrun.
  inv_bind H. destruct (ast_l Node) as [l|]; [| discriminate Hrun].
  inv_bind H. destruct (ast_r Node) as [r|]; [| discriminate Hrun0].
  inv_prim H. units.
  exists l, r, c. cbn. auto.
Qed.

Lemma emitterLoop_run block Node ctx ctx' K :
  emitterLoop block Node ctx = (ctx', Some K) ->
  exists l code ctx1,
    let continuation := S (blockCount (ir ctx)) in
    let body := S continuation in
    let loopCheck := S body in
    let isDo := astTag_eqb (ast_tag l) astCode in
    let cond := if isDo then ast_r Node else Some l in
    let entered :=
      if isDo then emit block (opJump body) (newBlocks 3 ctx)
      else branched block cond body continuation (newBlocks 3 ctx) in
    K = continuation /\
    ast_l Node = Some l /\
    (if isDo then code = l else ast_r Node = Some code) /\
    emitterCode body code loopCheck
      (enterLoop continuation loopCheck entered) = (ctx1, Some tt) /\
    ctx' = branched loopCheck cond body continuation
                    (leaveLoop (breakTo ctx) (continueTo ctx) ctx1).
Proof.
  intros H. unfold emitterLoop, emitterLoop_of in H.
  apply create3_run in H.
  destruct (ast_l Node) as [l|]; [| discriminate H].
  cbv zeta in H.
  destruct (astTag_eqb (ast_tag l) astCode) eqn:isDo.
  - inv_bind H. inv_prim Hrun.
    inv_bind H. inv_prim Hrun.
    inv_bind H. inv_prim Hrun.
    inv_bind H. units.
    inv_bind H. inv_prim Hrun0.
    inv_bind H. inv_prim Hrun0.
    inv_bind H. inv_branch Hrun0. inv_prim H.
    exists l, l, c. cbn. rewrite isDo. auto 6.
  - inv_bind H. inv_branch Hrun.
    destruct (branched_facts block (Some l) (S (S (blockCount (ir ctx))))
                (S (blockCount (ir ctx))) (newBlocks 3 ctx))
      as (_ & Bb & Bc & _).
    inv_bind H. inv_prim Hrun.
    inv_bind H. inv_prim Hrun.
    inv_bind H. units.
    destruct (ast_r Node) as [code|] eqn:Er; [| discriminate Hrun].
    inv_bind H. inv_prim Hrun0.
    inv_bind H. inv_prim Hrun0.
    inv_bind H. inv_branch Hrun0. inv_prim H.
    exists l, code, c. cbn. rewrite isDo. cbn in Bb, Bc. rewrite Bb, Bc.
    auto 6.
Qed.

Lemma emitterIter_run block Node ctx ctx' K :
  emitterIter block Node ctx = (ctx', Some K) ->
  exists init cond after code ctx1 block1 ctx2 ctx3 lowered,
    let continuation := S (blockCount (ir ctx)) in
    let body := S continuation in
    let iterate := S body in
    K = continuation /\
    ast_children Node = init :: cond :: after /\
    ast_l Node = Some code /\
    (if astTag_eqb (ast_tag init) astDecl
     then emitterDecl block init (newBlocks 3 ctx) = (ctx1, Some block1)
     else exists o, emitterValue block (Some init) requestVoid
                                 (newBlocks 3 ctx)
                    = (ctx1, Some (block1, o))) /\
    emitterCode body code iterate
      (enterLoop continuation iterate
         (branched block1 (Some cond) body continuation ctx1))
    = (ctx2, Some tt) /\
    emitterValue iterate (hd_error after) requestVoid
                 (leaveLoop (breakTo ctx) (continueTo ctx) ctx2)
    = (ctx3, Some lowered) /\
    ctx' = branched (fst lowered) (Some cond) body continuation ctx3.
Proof.
  intros H. unfold emitterIter, emitterIter_of in H.
  apply create3_run in H.
  destruct (ast_children Node) as [| init [| cond after]];
    try discriminate H.
  cbv zeta in H.
  inv_bind H. rename c into ctx1, a into block1.
  assert (Init :
            if astTag_eqb (ast_tag init) astDecl
            then emitterDecl block init (newBlocks 3 ctx)
                 = (ctx1, Some block1)
            else exists o, emitterValue block (Some init) requestVoid
                                        (newBlocks 3 ctx)
                           = (ctx1, Some (block1, o))).
  { destruct (astTag_eqb (ast_tag init) astDecl).
    - exact Hrun.
    - apply bind_ok in Hrun. destruct Hrun as (cx & [b o] & Hv & Hret).
      inv_prim Hret. exists o. exact Hv. }
  clear Hrun.
  assert (T1 : sameLoopTargets (newBlocks 3 ctx) ctx1).
  { destruct (astTag_eqb (ast_tag init) astDecl).
    - eapply targets_emitterDecl; exact Init.
    - destruct Init as [o Init].
      eapply targets_emitterValue; exact Init. }
  destruct T1 as [Tb Tc]. cbn in Tb, Tc.
  inv_bind H. inv_branch Hrun.
  destruct (branched_facts block1 (Some cond) (S (S (blockCount (ir ctx))))
              (S (blockCount (ir ctx))) ctx1)
    as (_ & Bb & Bc & _).
  inv_bind H. inv_prim Hrun.
  inv_bind H. inv_prim Hrun.
  inv_bind H. units.
  destruct (ast_l Node) as [code|]; [| discriminate Hrun].
  inv_bind H. inv_prim Hrun0.
  inv_bind H. inv_prim Hrun0.
  inv_bind H. rename c0 into ctx3, a into lowered.
  inv_bind H. inv_branch Hrun1. inv_prim H.
  exists init, cond, after, code, ctx1, block1, c, ctx3, lowered.
  cbn. rewrite Bb, Bc, Tb, Tc in Hrun0.
  repeat split; auto.
Qed.

Lemma emitterLine_run block Node ctx ctx' k :
  emitterLine block Node ctx = (ctx', Some k) ->
  exists ctx1,
    emitterLineDispatch block Node
      (logged (dbgEnter (astTagGetStr (ast_tag Node))) ctx)
    = (ctx1, Some (Some k)) /\
    ctx' = logged dbgLeave ctx1.
Proof.
  intros H. rewrite emitterLine_eq in H.
  inv_bind H. inv_prim Hrun.
  inv_bind H. inv_bind H. inv_prim Hrun0.
  apply deref_ok in H. destruct H as [-> ->].
  eexists. split; [exact Hrun | reflexivity].
Qed.

Lemma emitterLine_intro block Node ctx ctx1 k :
  emitterLineDispatch block Node
    (logged (dbgEnter (astTagGetStr (ast_tag Node))) ctx)
  = (ctx1, Some (Some k)) ->
  emitterLine block Node ctx = (logged dbgLeave ctx1, Some k).
Proof.
  intros H. rewrite emitterLine_eq.
  erewrite bind_ok_intro; [| reflexivity].
  erewrite bind_ok_intro; [| exact H]. reflexivity.
Qed.

(** *** The dispatch of [emitterLine], tag by tag *)

Ltac dispatch E :=
  unfold emitterLineDispatch, emitterLineDispatch_of; rewrite E;
  reflexivity.

Lemma dispatch_branch block Node :
  ast_tag Node = astBranch ->
  emitterLineDispatch block Node =
  (continuation <- emitterBranch block Node ;; ret (Some continuation)).
Proof. intros E. dispatch E. Qed.

Lemma dispatch_loop block Node :
  ast_tag Node = astLoop ->
  emitterLineDispatch block Node =
  (continuation <- emitterLoop block Node ;; ret (Some continuation)).
Proof. intros E. dispatch E. Qed.

Lemma dispatch_iter block Node :
  ast_tag Node = astIter ->
  emitterLineDispatch block Node =
  (continuation <- emitterIter block Node ;; ret (Some continuation)).
Proof. intros E. dispatch E. Qed.

Lemma dispatch_code block Node :
  ast_tag Node = astCode ->
  emitterLineDispatch block Node =
  (continuation <- irBlockCreate ;;
   emitterCode block Node continuation ;;
   ret (Some continuation)).
Proof. intros E. dispatch E. Qed.

Lemma dispatch_return block Node :
  ast_tag Node = astReturn ->
  emitterLineDispatch block Node =
  (emitterReturn block Node ;;
   continuation <- irBlockCreate ;;
   ret (Some continuation)).
Proof. intros E. dispatch E. Qed.

Lemma dispatch_break block Node :
  ast_tag Node = astBreak ->
  emitterLineDispatch block Node =
  (target <- get breakTo ;;
   irJump block target ;;
   continuation <- irBlockCreate ;;
   ret (Some continuation)).
Proof. intros E. dispatch E. Qed.

Lemma dispatch_continue block Node :
  ast_tag Node = astContinue ->
  emitterLineDispatch block Node =
  (target <- get continueTo ;;
   irJump block target ;;
   continuation <- irBlockCreate ;;
   ret (Some continuation)).
Proof. intros E. dispatch E. Qed.

Lemma dispatch_decl block Node :
  ast_tag Node = astDecl ->
  emitterLineDispatch block Node =
  (block' <- emitterDecl block Node ;; ret (Some block')).
Proof. intros E. dispatch E. Qed.

Lemma dispatch_value block Node :
  astIsValueTag (ast_tag Node) = true ->
  emitterLineDispatch block Node =
  (lowered <- emitterValue block (Some Node) requestVoid ;;
   ret (Some (fst lowered))).
Proof.
  intros E. unfold emitterLineDispatch, emitterLineDispatch_of.
  destruct (ast_tag Node); try discriminate E; reflexivity.
Qed.

Lemma dispatch_empty block Node :
  ast_tag Node = astEmpty ->
  emitterLineDispatch block Node = ret (Some block).
Proof. intros E. dispatch E. Qed.

Lemma dispatch_unhandled block Node :
  lineHandles (ast_tag Node) = false ->
  emitterLineDispatch block Node =
  (debugErrorUnhandled "emitterLine" "AST tag"
                       (astTagGetStr (ast_tag Node)) ;;
   ret None).
Proof.
  intros E. unfold emitterLineDispatch, emitterLineDispatch_of.
  destruct (ast_tag Node); try discriminate E; reflexivity.
Qed.

Lemma moduleChild_unhandled Current :
  moduleHandles (ast_tag Current) = false ->
  emitterModuleChild Current =
  debugErrorUnhandled "emitterModule" "AST tag"
                      (astTagGetStr (ast_tag Current)).
Proof.
  intros E. unfold emitterModuleChild, emitterModuleChild_of.
  destruct (ast_tag Current); try discriminate E; reflexivity.
Qed.

(** ** Unhandled tags *)

(** C9.  A node whose tag neither dispatch handles is reported to the
    debug sink with the string form of its tag and adds nothing to the IR.
    The module lowerer goes on with the next child.  The statement lowerer
    does not: no branch has assigned [continuation], so what it returns is
    an indeterminate value and not a block for the following statements. *)
Theorem unhandled_tag_reported block Node ctx :
  let which := astTagGetStr (ast_tag Node) in
  (moduleHandles (ast_tag Node) = false ->
   emitterModuleChild Node ctx =
     (set_debug
        (debug ctx ++ [dbgErrorUnhandled "emitterModule" "AST tag" which])
        ctx,
      Some tt)) /\
  (lineHandles (ast_tag Node) = false ->
   emitterLine block Node ctx =
     (set_debug
        (debug ctx ++ [dbgEnter which;
                       dbgErrorUnhandled "emitterLine" "AST tag" which;
                       dbgLeave])
        ctx,
      None)).
Proof.
  intros which. split.
  - intros HM. rewrite (moduleChild_unhandled _ HM). reflexivity.
  - intros HL. rewrite emitterLine_eq, (dispatch_unhandled block _ HL).
    unfold bind, debugEnter, debugErrorUnhandled, debugLeave, debugLog, ret.
    cbn. unfold set_debug. cbn. rewrite <- !app_assoc. reflexivity.
Qed.

(** ** The return lowerer *)

Lemma emitterReturnValue_run value ctx :
  exists ctx1,
    emitterReturnValue value ctx = (ctx1, Some tt) /\
    ir ctx1 = ir ctx /\
    returnTo ctx1 = returnTo ctx /\
    breakTo ctx1 = breakTo ctx /\
    continueTo ctx1 = continueTo ctx /\
    Asm ctx1 = Asm ctx ++ returnAsm ctx value.
Proof.
  unfold emitterReturnValue, returnAsm.
  unfold emitterValueAsm, returnThroughTemp, regAllocM, regRequestM,
    regFreeM, operandFreeM, asmEmit, setRegs, debugError, debugLog,
    bind, get, ret.
  cbn.
  destruct (valueLoweredAsm ctx value requestValue) as [Ret rf]. cbn.
  destruct (typeGetSize (arch ctx) (ast_dt value) >? wordsize (arch ctx)).
  - cbn. destruct (regAlloc rf (wordsize (arch ctx))) as [rf1 base]. cbn.
    destruct (regRequest (operandFree rf1 Ret) regRAX (wordsize (arch ctx)))
      as [rf2 [rax|]]; cbn.
    + eexists. split; [reflexivity |]. cbn.
      rewrite <- !app_assoc. repeat split; reflexivity.
    + destruct (negb (reg_eqb base (regGet regRAX))); cbn;
        (eexists; split; [reflexivity |]; cbn;
         rewrite <- ?app_assoc, ?app_nil_r; repeat split; reflexivity).
  - cbn.
    destruct (regRequest rf regRAX (typeGetSize (arch ctx) (ast_dt value)))
      as [rf2 [rax|]]; cbn.
    + eexists. split; [reflexivity |]. cbn.
      rewrite <- !app_assoc. repeat split; reflexivity.
    + destruct (negb (reg_eqb (operand_base Ret) (regGet regRAX))); cbn;
        (eexists; split; [reflexivity |]; cbn;
         rewrite <- ?app_assoc, ?app_nil_r; repeat split; reflexivity).
Qed.

Lemma emitterReturn_run block Node ctx :
  exists ctx1,
    emitterReturn block Node ctx
    = (emit block (opJump (returnTo ctx)) ctx1, Some tt) /\
    ir ctx1 = ir ctx /\
    returnTo ctx1 = returnTo ctx /\
    breakTo ctx1 = breakTo ctx /\
    continueTo ctx1 = continueTo ctx /\
    match ast_r Node with
    | None => ctx1 = ctx
    | Some value => Asm ctx1 = Asm ctx ++ returnAsm ctx value
    end.
Proof.
  unfold emitterReturn.
  destruct (ast_r Node) as [value|].
  - destruct (emitterReturnValue_run value ctx)
      as (ctx1 & Hrun & Hir & Hr & Hb & Hc & HA).
    exists ctx1. split; [| auto].
    erewrite bind_ok_intro; [| exact Hrun].
    unfold bind, get, irJump. cbn. rewrite Hr. reflexivity.
  - exists ctx. repeat split; reflexivity.
Qed.

(** C4.  The return lowerer always has a result and ends by
    appending the jump to [returnTo] to the block it was given; nothing
    else is added to the IR.  Without an expression nothing else happens
    at all.  With one, what is written to [ctx->Asm] is [returnAsm]: the
    load of the hidden pointer from [[RBP + 2 * wordsize]] into a register
    allocated at word size and the copy of [retSize] bytes through it when
    the value is larger than a word, then the request of RAX at word size
    (hidden pointer) or at [retSize], and the move into RAX only when that
    request is granted. *)
Theorem return_lowering_sequence block Node ctx :
  exists ctx1,
    emitterReturn block Node ctx
    = (emit block (opJump (returnTo ctx)) ctx1, Some tt) /\
    ir ctx1 = ir ctx /\
    match ast_r Node with
    | None => ctx1 = ctx
    | Some value => Asm ctx1 = Asm ctx ++ returnAsm ctx value
    end.
Proof.
  destruct (emitterReturn_run block Node ctx)
    as (ctx1 & Hrun & Hir & _ & _ & _ & HA).
  exists ctx1. auto.
Qed.

(** ** Statements that jump away *)

Lemma emitterCode_run block Node K ctx ctx' :
  emitterCode block Node K ctx = (ctx', Some tt) ->
  exists ctx1 b,
    emitterLines block (ast_children Node) ctx = (ctx1, Some b) /\
    ctx' = emit b (opJump K) ctx1.
Proof.
  intros H. rewrite emitterCode_eq in H.
  inv_bind H. inv_prim H. exists c, a. split; [exact Hrun | reflexivity].
Qed.

Lemma emitterLines_cons_run block Current rest ctx ctx' b :
  emitterLines block (Current :: rest) ctx = (ctx', Some b) ->
  exists ctx1 b1,
    emitterLine block Current ctx = (ctx1, Some b1) /\
    emitterLines b1 rest ctx1 = (ctx', Some b).
Proof.
  intros H. rewrite emitterLines_cons in H.
  inv_bind H. exists c, a. split; assumption.
Qed.

(** Lowering the lines [xs ++ ys] is lowering [xs], then [ys]. *)
Lemma emitterLines_app xs ys block ctx :
  emitterLines block (xs ++ ys) ctx
  = (block' <- emitterLines block xs ;; emitterLines block' ys) ctx.
Proof.
  revert block ctx. induction xs as [| x xs IH]; intros block ctx.
  - reflexivity.
  - cbn [app]. rewrite !emitterLines_cons, !bind_run.
    destruct (emitterLine block x ctx) as [c1 [b1|]]; [| reflexivity].
    rewrite IH, !bind_run. reflexivity.
Qed.

Lemma emitterLines_app_run pre j post block ctx ctx' b :
  emitterLines block (pre ++ j :: post) ctx = (ctx', Some b) ->
  exists ctx0 b0 ctx1 k,
    emitterLines block pre ctx = (ctx0, Some b0) /\
    emitterLine b0 j ctx0 = (ctx1, Some k) /\
    emitterLines k post ctx1 = (ctx', Some b).
Proof.
  intros H. rewrite emitterLines_app in H.
  inv_bind H. apply emitterLines_cons_run in H.
  destruct H as (ctx1 & k & H1 & H2).
  exists c, a, ctx1, k. auto.
Qed.

Lemma jump_statement_run block Node ctx T :
  jumpStatementTarget (ast_tag Node) ctx = Some T ->
  exists ctx',
    emitterLine block Node ctx = (ctx', Some (S (blockCount (ir ctx)))) /\
    emitted (ir ctx') = emitted (ir ctx) ++ [(block, opJump T)] /\
    blockCount (ir ctx') = S (blockCount (ir ctx)) /\
    returnTo ctx' = returnTo ctx /\
    breakTo ctx' = breakTo ctx /\
    continueTo ctx' = continueTo ctx.
Proof.
  intros HT.
  destruct (ast_tag Node) eqn:E; try discriminate HT;
    cbn in HT; inversion HT; subst T; clear HT.
  - (* return *)
    destruct (emitterReturn_run block Node
                (logged (dbgEnter (astTagGetStr astReturn)) ctx))
      as (ctx1 & Hrun & Hir & Hr & Hb & Hc & _).
    cbn in Hir, Hr, Hb, Hc.
    replace (blockCount (ir ctx)) with (blockCount (ir ctx1))
      by (rewrite Hir; reflexivity).
    eexists. split.
    + apply emitterLine_intro.
      rewrite (dispatch_return block _ E), E.
      erewrite bind_ok_intro; [| exact Hrun]. reflexivity.
    + cbn. rewrite Hir, Hr, Hb, Hc. cbn. auto 6.
  - (* break *)
    eexists. split.
    + apply emitterLine_intro. rewrite (dispatch_break block _ E).
      reflexivity.
    + cbn. auto 6.
  - (* continue *)
    eexists. split.
    + apply emitterLine_intro. rewrite (dispatch_continue block _ E).
      reflexivity.
    + cbn. auto 6.
Qed.

Lemma loose_eq t s :
  loose t s =
  if astTag_eqb (ast_tag s) t then true
  else if astTag_eqb (ast_tag s) astCode then looseIn t s
  else if astTag_eqb (ast_tag s) astBranch
       then looseInPtr t (ast_l s) || looseInPtr t (ast_r s)
       else false.
Proof.
  destruct s as [tag children [[]|] [[]|] symbol dt]; reflexivity.
Qed.

Lemma astTag_eqb_eq a b : astTag_eqb a b = true -> a = b.
Proof. destruct a, b; cbn; intros H; try discriminate H; reflexivity. Qed.

Lemma emitsJump_grows_r a b c T :
  emitsJump a b T -> grows b c -> emitsJump a c T.
Proof.
  intros (blk & pre & post & E) [_ _ _ [new N] _ _].
  exists blk, pre, (post ++ new). rewrite N, E.
  rewrite <- !app_assoc. reflexivity.
Qed.

Lemma emitsJump_grows_l a b c T :
  grows a b -> emitsJump b c T -> emitsJump a c T.
Proof.
  intros [_ _ _ [new N] _ _] (blk & pre & post & E).
  exists blk, (new ++ pre), post. rewrite E, N.
  rewrite <- !app_assoc. reflexivity.
Qed.

Lemma grows_run {A : Type} (m : M A) ctx ctx' r :
  preserves grows m -> m ctx = (ctx', r) -> grows ctx ctx'.
Proof. intros P H. specialize (P ctx). rewrite H in P. exact P. Qed.

Lemma grows_logged e ctx : grows ctx (logged e ctx).
Proof. apply grows_debugLog. Qed.

Lemma grows_emit block op ctx : grows ctx (emit block op ctx).
Proof. apply grows_irAppend. Qed.

Lemma grows_newBlocks k ctx : grows ctx (newBlocks k ctx).
Proof. apply grows_irBlocksCreated. Qed.

Lemma loopTarget_same t a b T :
  t = astBreak \/ t = astContinue ->
  sameLoopTargets a b ->
  jumpStatementTarget t a = Some T ->
  jumpStatementTarget t b = Some T.
Proof.
  intros [-> | ->] [Hb Hc] H; cbn in *; congruence.
Qed.

Section Loose.

Variable t : astTag.
Hypothesis t_loop : t = astBreak \/ t = astContinue.

Let PL (n : ast) : Prop :=
  forall block ctx ctx' k T,
    loose t n = true ->
    jumpStatementTarget t ctx = Some T ->
    emitterLine block n ctx = (ctx', Some k) ->
    emitsJump ctx ctx' T.

Let PC (n : ast) : Prop :=
  forall block K ctx ctx' T,
    looseIn t n = true ->
    jumpStatementTarget t ctx = Some T ->
    emitterCode block n K ctx = (ctx', Some tt) ->
    emitsJump ctx ctx' T.

Lemma loose_lines cs :
  Forall PL cs ->
  forall block ctx ctx' b T,
    existsb (loose t) cs = true ->
    jumpStatementTarget t ctx = Some T ->
    emitterLines block cs ctx = (ctx', Some b) ->
    emitsJump ctx ctx' T.
Proof.
  induction 1 as [| c rest Hc _ IH]; intros block ctx ctx' b T E HT Hrun.
  - discriminate E.
  - apply emitterLines_cons_run in Hrun.
    destruct Hrun as (c1 & b1 & H1 & H2).
    cbn in E. apply orb_true_iff in E. destruct E as [E | E].
    + eapply emitsJump_grows_r.
      * eapply Hc; eassumption.
      * eapply grows_run; [apply grows_emitterLines | exact H2].
    + eapply emitsJump_grows_l.
      * eapply grows_run; [apply grows_emitterLine | exact H1].
      * eapply IH; [exact E | | exact H2].
        eapply loopTarget_same; [exact t_loop | | exact HT].
        eapply targets_emitterLine; exact H1.
Qed.

Lemma loose_code n : Forall PL (ast_children n) -> PC n.
Proof.
  intros H block K ctx ctx' T E HT Hrun.
  apply emitterCode_run in Hrun. destruct Hrun as (c1 & b & H1 & ->).
  eapply emitsJump_grows_r.
  - eapply loose_lines; eassumption.
  - apply grows_emit.
Qed.

Lemma loose_line n :
  PC n ->
  (forall l, ast_l n = Some l -> PC l) ->
  (forall r, ast_r n = Some r -> PC r) ->
  PL n.
Proof.
  intros C L R block ctx ctx' k T E HT Hrun.
  rewrite loose_eq in E.
  destruct (astTag_eqb (ast_tag n) t) eqn:Et.
  { (* the statement itself *)
    apply astTag_eqb_eq in Et.
    assert (HT' : jumpStatementTarget (ast_tag n) ctx = Some T)
      by (rewrite Et; exact HT).
    destruct (jump_statement_run block n ctx HT')
      as (c & Hc & Hem & _).
    rewrite Hc in Hrun. inversion Hrun; subst.
    exists block, [], []. exact Hem. }
  apply emitterLine_run in Hrun. destruct Hrun as (c1 & Hrun & ->).
  eapply emitsJump_grows_r; [| apply grows_logged].
  apply emitsJump_grows_l
    with (b := logged (dbgEnter (astTagGetStr (ast_tag n))) ctx);
    [apply grows_logged |].
  assert (HT1 : jumpStatementTarget t
                  (logged (dbgEnter (astTagGetStr (ast_tag n))) ctx)
                = Some T).
  { eapply loopTarget_same; [exact t_loop | | exact HT].
    split; reflexivity. }
  revert Hrun HT1.
  generalize (logged (dbgEnter (astTagGetStr (ast_tag n))) ctx).
  intros c0 Hrun HT1.
  destruct (astTag_eqb (ast_tag n) astCode) eqn:Ec.
  { apply astTag_eqb_eq in Ec. rewrite (dispatch_code block _ Ec) in Hrun.
    inv_bind Hrun. inv_prim Hrun0.
    inv_bind Hrun. inv_prim Hrun. units.
    eapply emitsJump_grows_l; [apply (grows_newBlocks 1) |].
    eapply C; [exact E | | exact Hrun0].
    eapply loopTarget_same; [exact t_loop | | exact HT1].
    split; reflexivity. }
  destruct (astTag_eqb (ast_tag n) astBranch) eqn:Eb;
    [| discriminate E].
  apply astTag_eqb_eq in Eb. rewrite (dispatch_branch block _ Eb) in Hrun.
  inv_bind Hrun. inv_prim Hrun.
  apply emitterBranch_run in Hrun0.
  destruct Hrun0 as (l & r & cl & _ & El & Er & Hl & Hr).
  rewrite El, Er in E. cbn in E.
  apply orb_true_iff in E. destruct E as [E | E].
  - eapply emitsJump_grows_r;
      [| eapply grows_run; [apply grows_emitterCode | exact Hr]].
    eapply emitsJump_grows_l;
      [eapply grows_trans;
       [apply (grows_newBlocks 3) | apply grows_branched] |].
    eapply L; [exact El | exact E | | exact Hl].
    eapply loopTarget_same; [exact t_loop | | exact HT1].
    apply targets_branched.
  - eapply emitsJump_grows_l.
    + eapply grows_trans; [apply (grows_newBlocks 3) |].
      eapply grows_trans; [apply grows_branched |].
      eapply grows_run; [apply grows_emitterCode | exact Hl].
    + eapply R; [exact Er | exact E | | exact Hr].
      eapply loopTarget_same; [exact t_loop | | exact HT1].
      eapply sameLoopTargets_trans;
        [| eapply targets_emitterCode; exact Hl].
      apply targets_branched.
Qed.

Lemma loose_statements : forall n : ast, PL n /\ PC n.
Proof. apply emitter_ind; [apply loose_code | apply loose_line]. Qed.

End Loose.

Lemma emitsJump_in a b T new :
  emitsJump a b T ->
  emitted (ir b) = emitted (ir a) ++ new ->
  exists blk, In (blk, opJump T) new.
Proof.
  intros (blk & pre & post & E) N. rewrite N in E.
  apply app_inv_head in E. subst new.
  exists blk. apply in_or_app. right. left. reflexivity.
Qed.

(** The run of [emitterLoop], in terms of what is appended to the IR. *)
Lemma emitterLoop_emitted block Node ctx ctx' K :
  emitterLoop block Node ctx = (ctx', Some K) ->
  exists code ctxb ctx1 bodyOps,
    let continuation := S (blockCount (ir ctx)) in
    let body := S continuation in
    let loopCheck := S body in
    K = continuation /\
    loopCode Node = Some code /\
    emitterCode body code loopCheck ctxb = (ctx1, Some tt) /\
    breakTo ctxb = continuation /\
    continueTo ctxb = loopCheck /\
    returnTo ctxb = returnTo ctx /\
    emitted (ir ctxb)
    = emitted (ir ctx) ++ [(block, loopEntry Node body continuation)] /\
    emitted (ir ctx1) = emitted (ir ctxb) ++ bodyOps /\
    emitted (ir ctx')
    = emitted (ir ctx) ++ [(block, loopEntry Node body continuation)]
      ++ bodyOps
      ++ [(loopCheck, opBranchOnValue (loopCond Node) body continuation)] /\
    breakTo ctx' = breakTo ctx /\
    continueTo ctx' = continueTo ctx.
Proof.
  intros H. apply emitterLoop_run in H.
  destruct H as (l & code & ctx1 & HK & El & Ecode & Hbody & ->).
  cbv zeta in *.
  destruct (grows_run _ (grows_emitterCode _ _ _) Hbody)
    as [_ _ _ [bodyOps HB] _ _].
  match type of Hbody with
  | emitterCode _ _ _ (enterLoop _ _ ?e) = _ => set (entered := e) in *
  end.
  assert (E : emitted (ir entered)
              = emitted (ir ctx)
                ++ [(block, loopEntry Node (S (S (blockCount (ir ctx))))
                                      (S (blockCount (ir ctx))))]
              /\ returnTo entered = returnTo ctx).
  { unfold entered, loopEntry. rewrite El.
    destruct (astTag_eqb (ast_tag l) astCode).
    - split; reflexivity.
    - destruct (branched_facts block (Some l) (S (S (blockCount (ir ctx))))
                  (S (blockCount (ir ctx))) (newBlocks 3 ctx))
        as (B1 & _ & _ & B4).
      split; [exact B1 | exact B4]. }
  destruct E as [Ee Er].
  match goal with
  | |- context [branched ?b ?c ?t ?f ?x] =>
      destruct (branched_facts b c t f x) as (F1 & F2 & F3 & _)
  end.
  exists code, (enterLoop (S (blockCount (ir ctx)))
                          (S (S (S (blockCount (ir ctx))))) entered),
    ctx1, bodyOps.
  cbv zeta.
  split; [exact HK |].
  split.
  { unfold loopCode. rewrite El.
    destruct (astTag_eqb (ast_tag l) astCode); congruence. }
  split; [exact Hbody |].
  split; [reflexivity |]. split; [reflexivity |].
  split; [exact Er |]. split; [exact Ee |]. split; [exact HB |].
  split; [| split; [rewrite F2 | rewrite F3]; reflexivity].
  rewrite F1. cbn [leaveLoop set_continueTo set_breakTo ir].
  rewrite HB. cbn [enterLoop set_continueTo set_breakTo ir]. rewrite Ee.
  unfold loopCond. rewrite El. rewrite <- !app_assoc. reflexivity.
Qed.

Lemma emitterValue_run block Node request ctx ctx' r :
  emitterValue block Node request ctx = (ctx', Some r) ->
  emitted (ir ctx') = emitted (ir ctx) ++ [(block, opValue Node request)] /\
  breakTo ctx' = breakTo ctx /\ continueTo ctx' = continueTo ctx /\
  returnTo ctx' = returnTo ctx.
Proof.
  unfold emitterValue, bind, get.
  destruct (valueLowered ctx block Node request) as [[[k b] o] rf].
  cbn. intros H. inversion H; subst; clear H. cbn. auto.
Qed.

Lemma emitterDecl_run block Node ctx ctx' b :
  emitterDecl block Node ctx = (ctx', Some b) ->
  emitted (ir ctx') = emitted (ir ctx) ++ [(block, opDecl Node)] /\
  breakTo ctx' = breakTo ctx /\ continueTo ctx' = continueTo ctx /\
  returnTo ctx' = returnTo ctx.
Proof.
  unfold emitterDecl, bind, get.
  destruct (declLowered ctx block Node) as [[k b'] rf].
  cbn. intros H. inversion H; subst; clear H. cbn. auto.
Qed.

(** The run of [emitterIter], in terms of what is appended to the IR. *)
Lemma emitterIter_emitted block Node ctx ctx' K :
  emitterIter block Node ctx = (ctx', Some K) ->
  exists init cond after code ctxb ctx1 bodyOps block1 block2,
    let continuation := S (blockCount (ir ctx)) in
    let body := S continuation in
    let iterate := S body in
    K = continuation /\
    ast_children Node = init :: cond :: after /\
    ast_l Node = Some code /\
    emitterCode body code iterate ctxb = (ctx1, Some tt) /\
    breakTo ctxb = continuation /\
    continueTo ctxb = iterate /\
    returnTo ctxb = returnTo ctx /\
    emitted (ir ctxb)
    = emitted (ir ctx)
      ++ [(block, iterInit init);
          (block1, opBranchOnValue (Some cond) body continuation)] /\
    emitted (ir ctx1) = emitted (ir ctxb) ++ bodyOps /\
    emitted (ir ctx')
    = emitted (ir ctx)
      ++ [(block, iterInit init);
          (block1, opBranchOnValue (Some cond) body continuation)]
      ++ bodyOps
      ++ [(iterate, opValue (hd_error after) requestVoid);
          (block2, opBranchOnValue (Some cond) body continuation)] /\
    breakTo ctx' = breakTo ctx /\
    continueTo ctx' = continueTo ctx.
Proof.
  intros H. apply emitterIter_run in H.
  destruct H as (init & cond & after & code & ctx1 & block1 & ctx2 & ctx3
                 & lowered & HK & Ech & El & Hinit & Hbody & Hstep & ->).
  cbv zeta in *.
  destruct (grows_run _ (grows_emitterCode _ _ _) Hbody)
    as [_ _ _ [bodyOps HB] _ _].
  assert (I : emitted (ir ctx1) = emitted (ir ctx) ++ [(block, iterInit init)]
              /\ returnTo ctx1 = returnTo ctx).
  { unfold iterInit. destruct (astTag_eqb (ast_tag init) astDecl).
    - apply emitterDecl_run in Hinit. cbn in Hinit. tauto.
    - destruct Hinit as [o Hinit]. apply emitterValue_run in Hinit.
      cbn in Hinit. tauto. }
  destruct I as [I Ir].
  apply emitterValue_run in Hstep.
  destruct Hstep as (S1 & S2 & S3 & S4). cbn in S1, S2, S3, S4.
  destruct (branched_facts block1 (Some cond) (S (S (blockCount (ir ctx))))
              (S (blockCount (ir ctx))) ctx1) as (B1 & _ & _ & B4).
  destruct (branched_facts (fst lowered) (Some cond)
              (S (S (blockCount (ir ctx)))) (S (blockCount (ir ctx))) ctx3)
    as (F1 & F2 & F3 & _).
  eexists init, cond, after, code, _, ctx2, bodyOps, block1, (fst lowered).
  cbv zeta.
  split; [exact HK |]. split; [exact Ech |]. split; [exact El |].
  split; [exact Hbody |].
  split; [reflexivity |]. split; [reflexivity |].
  split; [cbn; rewrite B4; exact Ir |].
  split; [cbn; rewrite B1, I, <- app_assoc; reflexivity |].
  split; [exact HB |].
  split; [| split; [rewrite F2; exact S2 | rewrite F3; exact S3]].
  rewrite F1, S1, HB. cbn. rewrite B1, I.
  rewrite <- !app_assoc. reflexivity.
Qed.

(** The run of [emitterBranch], in terms of what is appended to the IR. *)
Lemma emitterBranch_emitted block Node ctx ctx' K :
  emitterBranch block Node ctx = (ctx', Some K) ->
  exists l r ctxT ctxT' ctxF' bT bF opsT opsF,
    let continuation := S (blockCount (ir ctx)) in
    let ifTrue := S continuation in
    let ifFalse := S ifTrue in
    K = continuation /\
    ast_l Node = Some l /\ ast_r Node = Some r /\
    emitterLines ifTrue (ast_children l) ctxT = (ctxT', Some bT) /\
    emitterLines ifFalse (ast_children r)
                 (emit bT (opJump continuation) ctxT') = (ctxF', Some bF) /\
    emitted (ir ctxT)
    = emitted (ir ctx)
      ++ [(block, opBranchOnValue (ast_firstChild Node) ifTrue ifFalse)] /\
    emitted (ir ctxT') = emitted (ir ctxT) ++ opsT /\
    emitted (ir ctxF')
    = emitted (ir ctxT') ++ [(bT, opJump continuation)] ++ opsF /\
    emitted (ir ctx')
    = emitted (ir ctx)
      ++ [(block, opBranchOnValue (ast_firstChild Node) ifTrue ifFalse)]
      ++ opsT ++ [(bT, opJump continuation)]
      ++ opsF ++ [(bF, opJump continuation)].
Proof.
  intros H. apply emitterBranch_run in H.
  destruct H as (l & r & ctx1 & HK & El & Er & HT & HF).
  cbv zeta in *.
  apply emitterCode_run in HT. destruct HT as (ctxT' & bT & HT & ->).
  apply emitterCode_run in HF. destruct HF as (ctxF' & bF & HF & ->).
  destruct (grows_run _ (grows_emitterLines _ _) HT)
    as [_ _ _ [opsT HopsT] _ _].
  destruct (grows_run _ (grows_emitterLines _ _) HF)
    as [_ _ _ [opsF HopsF] _ _].
  rewrite emitted_emit in HopsF.
  eexists l, r, _, ctxT', ctxF', bT, bF, opsT, opsF. cbv zeta.
  split; [exact HK |]. split; [exact El |]. split; [exact Er |].
  split; [exact HT |]. split; [exact HF |].
  split; [rewrite emitted_branched; reflexivity |]. split; [exact HopsT |].
  split.
  - rewrite HopsF. rewrite <- app_assoc. reflexivity.
  - rewrite emitted_emit, HopsF, HopsT, emitted_branched. cbn.
    rewrite <- !app_assoc. reflexivity.
Qed.

(** ** Statements on which the lowerers have a result *)

Lemma wellFormed_eq s :
  wellFormed s =
  if astTag_eqb (ast_tag s) astBranch
  then wellFormedPtr (ast_l s) && wellFormedPtr (ast_r s)
  else if astTag_eqb (ast_tag s) astLoop then wellFormedPtr (loopCode s)
  else if astTag_eqb (ast_tag s) astIter then
    match ast_children s with
    | _ :: _ :: _ => wellFormedPtr (ast_l s)
    | _ => false
    end
  else if astTag_eqb (ast_tag s) astCode then wellFormedCode s
  else lineHandles (ast_tag s).
Proof.
  destruct s as [tag children [[ltag]|] [[]|] symbol dt]; cbn;
    try reflexivity;
    destruct (astTag_eqb ltag astCode); reflexivity.
Qed.

Lemma total_bind {A B : Type} (m : M A) (f : A -> M B) :
  total m -> (forall a, total (f a)) -> total (bind m f).
Proof.
  intros Hm Hf ctx. destruct (Hm ctx) as (c1 & a & H1).
  destruct (Hf a c1) as (c2 & b & H2).
  exists c2, b. erewrite bind_ok_intro; eassumption.
Qed.

Lemma total_prim {A : Type} (g : emitterCtx -> emitterCtx)
      (h : emitterCtx -> A) :
  total (fun ctx => (g ctx, Some (h ctx))).
Proof. intros ctx. eexists. eexists. reflexivity. Qed.

Lemma total_regAllocM size : total (regAllocM size).
Proof.
  intros ctx. unfold regAllocM. destruct (regAlloc (regs ctx) size).
  eexists. eexists. reflexivity.
Qed.

Lemma total_regRequestM r size : total (regRequestM r size).
Proof.
  intros ctx. unfold regRequestM. destruct (regRequest (regs ctx) r size).
  eexists. eexists. reflexivity.
Qed.

Ltac total_tac :=
  repeat first
    [ solve [eauto]
    | apply total_regAllocM
    | apply total_regRequestM
    | match goal with
      | |- total (bind _ _) => apply total_bind; [| intros ?]
      | |- total (match ?x with _ => _ end) => destruct x eqn:?
      | |- total _ => solve [apply total_prim]
      end ].

Lemma total_emitterValue block Node request :
  total (emitterValue block Node request).
Proof.
  unfold emitterValue, get, irAppend, irBlocksCreated, setRegs, ret.
  total_tac.
Qed.

Lemma total_emitterDecl block Node : total (emitterDecl block Node).
Proof.
  unfold emitterDecl, get, irAppend, irBlocksCreated, setRegs, ret.
  total_tac.
Qed.

Lemma total_emitterReturn block Node : total (emitterReturn block Node).
Proof.
  intros ctx. destruct (emitterReturn_run block Node ctx) as (c & H & _).
  eexists. eexists. exact H.
Qed.

Lemma total_emitterLines block cs :
  Forall (fun n => forall b, total (emitterLine b n)) cs ->
  total (emitterLines block cs).
Proof.
  intros H. revert block. induction H as [| c rest Hc _ IH]; intros block.
  - apply total_prim.
  - rewrite emitterLines_cons. apply total_bind; [apply Hc | exact IH].
Qed.

Lemma Forall_wellFormed (P : ast -> Prop) cs :
  Forall (fun n => wellFormed n = true -> P n) cs ->
  forallb wellFormed cs = true ->
  Forall P cs.
Proof.
  induction 1 as [| c rest Hc _ IH]; cbn; intros E.
  - constructor.
  - apply andb_true_iff in E. destruct E as [E1 E2].
    constructor; auto.
Qed.

Lemma total_statements :
  forall n : ast,
    (wellFormed n = true -> forall block, total (emitterLine block n)) /\
    (wellFormedCode n = true ->
     forall block K, total (emitterCode block n K)).
Proof.
  apply emitter_ind.
  - intros n H W block K. rewrite emitterCode_eq.
    apply total_bind.
    + apply total_emitterLines. apply Forall_wellFormed; assumption.
    + intros b. apply total_prim.
  - intros n C L R W block. rewrite emitterLine_eq.
    rewrite wellFormed_eq in W.
    apply total_bind; [apply total_prim | intros _].
    assert (D : forall ctx, exists ctx' k,
               emitterLineDispatch block n ctx = (ctx', Some (Some k))).
    { destruct (astTag_eqb (ast_tag n) astBranch) eqn:Eb.
      { apply astTag_eqb_eq in Eb. rewrite (dispatch_branch block _ Eb).
        apply andb_true_iff in W. destruct W as [Wl Wr].
        destruct (ast_l n) as [l|] eqn:El; [| discriminate Wl].
        destruct (ast_r n) as [r|] eqn:Er; [| discriminate Wr].
        assert (T : total (emitterBranch block n)).
        { unfold emitterBranch, emitterBranch_of. rewrite El, Er.
          change (emitterCode_of emitterLine) with emitterCode.
          unfold emitterBranchOnValue, irAppend, irBlockCreate, ret.
          total_tac. }
        intros ctx. destruct (T ctx) as (c & k & Hk).
        exists c, k. erewrite bind_ok_intro; [| exact Hk]. reflexivity. }
      destruct (astTag_eqb (ast_tag n) astLoop) eqn:Elo.
      { apply astTag_eqb_eq in Elo. rewrite (dispatch_loop block _ Elo).
        unfold loopCode in W.
        destruct (ast_l n) as [l|] eqn:El; [| discriminate W].
        assert (T : total (emitterLoop block n)).
        { unfold emitterLoop, emitterLoop_of. rewrite El.
          change (emitterCode_of emitterLine) with emitterCode.
          unfold emitterBranchOnValue, irJump, irAppend, irBlockCreate,
            emitterSetBreakTo, emitterSetContinueTo, assignBreakTo,
            assignContinueTo, ret.
          cbv zeta.
          destruct (astTag_eqb (ast_tag l) astCode).
          - total_tac.
          - destruct (ast_r n) as [r|] eqn:Er; [| discriminate W].
            total_tac. }
        intros ctx. destruct (T ctx) as (c & k & Hk).
        exists c, k. erewrite bind_ok_intro; [| exact Hk]. reflexivity. }
      destruct (astTag_eqb (ast_tag n) astIter) eqn:Ei.
      { apply astTag_eqb_eq in Ei. rewrite (dispatch_iter block _ Ei).
        destruct (ast_children n) as [| init [| cond after]] eqn:Ech;
          try discriminate W.
        destruct (ast_l n) as [l|] eqn:El; [| discriminate W].
        assert (T : total (emitterIter block n)).
        { unfold emitterIter, emitterIter_of. rewrite Ech, El.
          change (emitterCode_of emitterLine) with emitterCode.
          pose proof total_emitterValue. pose proof total_emitterDecl.
          unfold emitterBranchOnValue, irAppend, irBlockCreate,
            emitterSetBreakTo, emitterSetContinueTo, assignBreakTo,
            assignContinueTo, ret.
          total_tac. }
        intros ctx. destruct (T ctx) as (c & k & Hk).
        exists c, k. erewrite bind_ok_intro; [| exact Hk]. reflexivity. }
      destruct (astTag_eqb (ast_tag n) astCode) eqn:Ec.
      { apply astTag_eqb_eq in Ec. rewrite (dispatch_code block _ Ec).
        intros ctx.
        destruct (C W block (S (blockCount (ir ctx))) (newBlocks 1 ctx))
          as (c & [] & Hc).
        exists c, (S (blockCount (ir ctx))).
        erewrite bind_ok_intro; [| reflexivity].
        erewrite bind_ok_intro; [| exact Hc]. reflexivity. }
      destruct (astIsValueTag (ast_tag n)) eqn:Ev.
      { rewrite (dispatch_value block n Ev). intros ctx.
        destruct (total_emitterValue block (Some n) requestVoid ctx)
          as (c & b & Hb).
        exists c, (fst b).
        erewrite bind_ok_intro; [| exact Hb]. reflexivity. }
      destruct (ast_tag n) eqn:Et; try discriminate W;
        try discriminate Eb; try discriminate Elo; try discriminate Ei;
        try discriminate Ec; try discriminate Ev.
      - (* empty *)
        rewrite (dispatch_empty block _ Et). intros ctx.
        eexists. eexists. reflexivity.
      - (* decl *)
        rewrite (dispatch_decl block _ Et). intros ctx.
        destruct (total_emitterDecl block n ctx) as (c & b & Hb).
        exists c, b. erewrite bind_ok_intro; [| exact Hb]. reflexivity.
      - (* return *)
        rewrite (dispatch_return block _ Et). intros ctx.
        destruct (total_emitterReturn block n ctx) as (c & [] & Hc).
        eexists. eexists. erewrite bind_ok_intro; [| exact Hc].
        reflexivity.
      - rewrite (dispatch_break block _ Et). intros ctx.
        eexists. eexists. reflexivity.
      - rewrite (dispatch_continue block _ Et). intros ctx.
        eexists. eexists. reflexivity.
    }
    intros ctx. destruct (D ctx) as (c & k & Hk).
    eexists. eexists. erewrite bind_ok_intro; [| exact Hk]. reflexivity.
Qed.

Lemma total_emitterLine block n :
  wellFormed n = true -> total (emitterLine block n).
Proof. intros W. apply total_statements. exact W. Qed.

Lemma total_emitterCode block n K :
  wellFormedCode n = true -> total (emitterCode block n K).
Proof. intros W. apply total_statements. exact W. Qed.

(** ** The control-flow lowerers *)

(** C5.  A loop whose body [code] is there and well formed is lowered with
    a result, the continuation block, created first.  The node is a
    do-while exactly when its left child is a [code] node: the edge into
    the loop is then a jump from the incoming block to [body], and
    otherwise the test of the condition, to [body] or the continuation.
    Everything after that edge is the same for both: the body lowered from
    [body] with continuation [loopCheck], then the test of the condition
    appended to [loopCheck]. *)
Theorem loop_flavours_differ_in_entry block Node ctx code :
  loopCode Node = Some code ->
  wellFormedCode code = true ->
  let continuation := S (blockCount (ir ctx)) in
  let body := S continuation in
  let loopCheck := S body in
  exists ctx' ctxb ctx1 bodyOps,
    emitterLoop block Node ctx = (ctx', Some continuation) /\
    emitterCode body code loopCheck ctxb = (ctx1, Some tt) /\
    emitted (ir ctxb)
    = emitted (ir ctx) ++ [(block, loopEntry Node body continuation)] /\
    emitted (ir ctx1) = emitted (ir ctxb) ++ bodyOps /\
    emitted (ir ctx')
    = emitted (ir ctx) ++ [(block, loopEntry Node body continuation)]
      ++ bodyOps
      ++ [(loopCheck, opBranchOnValue (loopCond Node) body continuation)] /\
    forall l,
      ast_l Node = Some l ->
      (ast_tag l = astCode ->
       loopEntry Node body continuation = opJump body /\
       code = l /\ loopCond Node = ast_r Node) /\
      (ast_tag l <> astCode ->
       loopEntry Node body continuation
       = opBranchOnValue (Some l) body continuation /\
       ast_r Node = Some code /\ loopCond Node = Some l).
Proof.
  intros Hcode W continuation body loopCheck.
  assert (T : total (emitterLoop block Node)).
  { unfold emitterLoop, emitterLoop_of. unfold loopCode in Hcode.
    destruct (ast_l Node) as [l|] eqn:El; [| discriminate Hcode].
    pose proof (fun b K => @total_emitterCode b code K W) as Tc.
    change (emitterCode_of emitterLine) with emitterCode.
    unfold emitterBranchOnValue, irJump, irAppend, irBlockCreate,
      emitterSetBreakTo, emitterSetContinueTo, assignBreakTo,
      assignContinueTo, ret.
    cbv zeta.
    destruct (astTag_eqb (ast_tag l) astCode).
    - inversion Hcode; subst. total_tac.
    - rewrite Hcode. total_tac. }
  destruct (T ctx) as (ctx' & K & Hrun).
  destruct (emitterLoop_emitted _ _ _ Hrun)
    as (code' & ctxb & ctx1 & bodyOps & HK & Hc' & Hbody & _ & _ & _
        & Eb & E1 & E' & _).
  rewrite Hcode in Hc'. inversion Hc'; subst code'. subst K.
  exists ctx', ctxb, ctx1, bodyOps.
  repeat (split; [assumption |]).
  intros l El. unfold loopEntry, loopCond. unfold loopCode in Hcode.
  rewrite El in *. split.
  - intros Et. rewrite Et in *. cbn in *. inversion Hcode. auto.
  - intros Et. destruct (astTag_eqb (ast_tag l) astCode) eqn:Eq.
    + apply astTag_eqb_eq in Eq. contradiction.
    + auto.
Qed.

(** C6.  A branch whose two arms are there and well formed is lowered with
    a result, the continuation block, created first.  Both arms are
    lowered with that block as their continuation, the lines of each arm
    are followed by a jump to it from the block they end in, and nothing
    is emitted after the second of these jumps. *)
Theorem branch_joins_at_continuation block Node ctx l r :
  ast_l Node = Some l ->
  ast_r Node = Some r ->
  wellFormedCode l = true ->
  wellFormedCode r = true ->
  let continuation := S (blockCount (ir ctx)) in
  let ifTrue := S continuation in
  let ifFalse := S ifTrue in
  exists ctx' ctxT ctxF bT bF opsT opsF,
    emitterBranch block Node ctx = (ctx', Some continuation) /\
    emitterCode ifTrue l continuation ctxT = (ctxF, Some tt) /\
    emitterCode ifFalse r continuation ctxF = (ctx', Some tt) /\
    emitted (ir ctxF)
    = emitted (ir ctxT) ++ opsT ++ [(bT, opJump continuation)] /\
    emitted (ir ctx')
    = emitted (ir ctxF) ++ opsF ++ [(bF, opJump continuation)] /\
    emitted (ir ctx')
    = emitted (ir ctx)
      ++ [(block, opBranchOnValue (ast_firstChild Node) ifTrue ifFalse)]
      ++ opsT ++ [(bT, opJump continuation)]
      ++ opsF ++ [(bF, opJump continuation)].
Proof.
  intros El Er Wl Wr continuation ifTrue ifFalse.
  assert (T : total (emitterBranch block Node)).
  { unfold emitterBranch, emitterBranch_of. rewrite El, Er.
    pose proof (fun b K => @total_emitterCode b l K Wl) as Tl.
    pose proof (fun b K => @total_emitterCode b r K Wr) as Tr.
    change (emitterCode_of emitterLine) with emitterCode.
    unfold emitterBranchOnValue, irAppend, irBlockCreate, ret.
    total_tac. }
  destruct (T ctx) as (ctx' & K & Hrun).
  pose proof (emitterBranch_run _ _ _ Hrun) as R.
  destruct R as (l' & r' & ctxF & HK & El' & Er' & HT & HF).
  rewrite El in El'. rewrite Er in Er'.
  inversion El'; subst l'. inversion Er'; subst r'. subst K.
  cbv zeta in HT, HF.
  pose proof (emitterCode_run _ _ _ _ HT) as (cT & bT & LT & ET).
  pose proof (emitterCode_run _ _ _ _ HF) as (cF & bF & LF & EF).
  destruct (grows_run _ (grows_emitterLines _ _) LT)
    as [_ _ _ [opsT HopsT] _ _].
  destruct (grows_run _ (grows_emitterLines _ _) LF)
    as [_ _ _ [opsF HopsF] _ _].
  eexists ctx', _, ctxF, bT, bF, opsT, opsF.
  split; [exact Hrun |]. split; [exact HT |]. split; [exact HF |].
  assert (E1 : emitted (ir ctxF)
               = emitted
                   (ir (branched block (ast_firstChild Node) ifTrue ifFalse
                                 (newBlocks 3 ctx)))
                 ++ opsT ++ [(bT, opJump continuation)]).
  { rewrite ET, emitted_emit, HopsT. rewrite <- app_assoc. reflexivity. }
  assert (E2 : emitted (ir ctx')
               = emitted (ir ctxF) ++ opsF ++ [(bF, opJump continuation)]).
  { rewrite EF, emitted_emit, HopsF. rewrite <- app_assoc. reflexivity. }
  split; [exact E1 |]. split; [exact E2 |].
  rewrite E2, E1, emitted_branched. cbn. rewrite <- !app_assoc. reflexivity.
Qed.

Lemma jumpTargets_same a b :
  grows a b -> sameLoopTargets a b -> jumpTargets b = jumpTargets a.
Proof.
  intros G [Tb Tc]. unfold jumpTargets.
  rewrite Tb, Tc, (grows_returnTo G). reflexivity.
Qed.

(** A statement that is lowered while lines are lowered, outside their
    loops, is lowered with the jump targets the lines were given. *)
Lemma loweredIn_targets block lines ctx bj j cj :
  loweredIn block lines ctx bj j cj -> jumpTargets cj = jumpTargets ctx.
Proof.
  induction 1 as [block pre j post ctx c0 b0 Hpre
                 | block pre s post ctx c0 b0 bj j cj Hpre Et _ IH
                 | block pre s post ctx c0 b0 l bj j cj Hpre Et El _ IH
                 | block pre s post ctx c0 b0 l r cF bj j cj Hpre Et El Er
                         Hl _ IH];
    pose proof (jumpTargets_same
                  (grows_run _ (grows_emitterLines _ _) Hpre)
                  (targets_emitterLines _ _ _ Hpre)) as J0.
  - exact J0.
  - rewrite IH. exact J0.
  - rewrite IH, <- J0. unfold branchContext, jumpTargets.
    match goal with
    | |- context [branched ?b ?c ?t ?f ?x] =>
        destruct (branched_facts b c t f x) as (_ & Bb & Bc & Br)
    end.
    rewrite Bb, Bc, Br. reflexivity.
  - rewrite IH.
    rewrite (jumpTargets_same
               (grows_run _ (grows_emitterCode _ _ _) Hl)
               (targets_emitterCode _ _ _ _ Hl)).
    rewrite <- J0. unfold branchContext, jumpTargets.
    match goal with
    | |- context [branched ?b ?c ?t ?f ?x] =>
        destruct (branched_facts b c t f x) as (_ & Bb & Bc & Br)
    end.
    rewrite Bb, Bc, Br. reflexivity.
Qed.

(** A statement that is lowered while lines are lowered has a result when
    the lines have one, and is lowered between what came before it and
    what comes after it. *)
Lemma loweredIn_run block lines ctx bj j cj :
  loweredIn block lines ctx bj j cj ->
  forall ctxE bE,
    emitterLines block lines ctx = (ctxE, Some bE) ->
    exists cj' k,
      emitterLine bj j cj = (cj', Some k) /\
      grows ctx cj /\ grows cj' ctxE.
Proof.
  induction 1 as [block pre j post ctx c0 b0 Hpre
                 | block pre s post ctx c0 b0 bj j cj Hpre Et _ IH
                 | block pre s post ctx c0 b0 l bj j cj Hpre Et El _ IH
                 | block pre s post ctx c0 b0 l r cF bj j cj Hpre Et El Er
                         Hl _ IH];
    intros ctxE bE H; apply emitterLines_app_run in H;
    destruct H as (c0' & b0' & c1 & k & Hp & Hs & Hpost);
    rewrite Hpre in Hp; inversion Hp; subst c0' b0'; clear Hp;
    pose proof (grows_run _ (grows_emitterLines _ _) Hpre) as G0;
    pose proof (grows_run _ (grows_emitterLines _ _) Hpost) as G1.
  - exists c1, k. auto.
  - apply emitterLine_run in Hs. destruct Hs as (c2 & Hd & ->).
    rewrite (dispatch_code b0 _ Et) in Hd.
    inv_bind Hd. inv_prim Hrun.
    inv_bind Hd. inv_prim Hd. units.
    apply emitterCode_run in Hrun. destruct Hrun as (cc & b & Hl & ->).
    destruct (IH _ _ Hl) as (cj' & kj & Hj & Ga & Gb).
    exists cj', kj. split; [exact Hj |]. split.
    + eapply grows_trans; [exact G0 |].
      eapply grows_trans; [| exact Ga].
      eapply grows_trans; [apply grows_logged | apply (grows_newBlocks 1)].
    + eapply grows_trans; [exact Gb |].
      eapply grows_trans; [apply grows_emit |].
      eapply grows_trans; [apply grows_logged | exact G1].
  - apply emitterLine_run in Hs. destruct Hs as (c2 & Hd & ->).
    rewrite (dispatch_branch b0 _ Et) in Hd.
    inv_bind Hd. inv_prim Hd.
    apply emitterBranch_run in Hrun.
    destruct Hrun as (l' & r & cl & _ & El' & Er & Hl & Hr).
    rewrite El in El'. inversion El'; subst l'. cbv zeta in Hl, Hr.
    apply emitterCode_run in Hl. destruct Hl as (cc & b & Hl & ->).
    destruct (IH _ _ Hl) as (cj' & kj & Hj & Ga & Gb).
    exists cj', kj. split; [exact Hj |]. split.
    + eapply grows_trans; [exact G0 |].
      eapply grows_trans; [| exact Ga].
      eapply grows_trans; [apply grows_logged |].
      eapply grows_trans; [apply (grows_newBlocks 3) | apply grows_branched].
    + eapply grows_trans; [exact Gb |].
      eapply grows_trans; [apply grows_emit |].
      eapply grows_trans;
        [eapply grows_run; [apply grows_emitterCode | exact Hr] |].
      eapply grows_trans; [apply grows_logged | exact G1].
  - apply emitterLine_run in Hs. destruct Hs as (c2 & Hd & ->).
    rewrite (dispatch_branch b0 _ Et) in Hd.
    inv_bind Hd. inv_prim Hd.
    apply emitterBranch_run in Hrun.
    destruct Hrun as (l' & r' & cl & _ & El' & Er' & Hl' & Hr).
    rewrite El in El'. inversion El'; subst l'.
    rewrite Er in Er'. inversion Er'; subst r'. cbv zeta in Hl', Hr.
    assert (E : cl = cF).
    { unfold branchContext in Hl. cbn in Hl, Hl'.
      rewrite Hl in Hl'. inversion Hl'. reflexivity. }
    subst cl.
    apply emitterCode_run in Hr. destruct Hr as (cc & b & Hr & ->).
    destruct (IH _ _ Hr) as (cj' & kj & Hj & Ga & Gb).
    exists cj', kj. split; [exact Hj |]. split.
    + eapply grows_trans; [exact G0 |].
      eapply grows_trans; [| exact Ga].
      eapply grows_trans; [apply grows_logged |].
      eapply grows_trans; [apply (grows_newBlocks 3) |].
      eapply grows_trans; [apply grows_branched |].
      eapply grows_run; [apply grows_emitterCode | exact Hl].
    + eapply grows_trans; [exact Gb |].
      eapply grows_trans; [apply grows_emit |].
      eapply grows_trans; [apply grows_logged | exact G1].
Qed.

(** A statement of tag [t] that no loop encloses is reached when the
    lines around it are lowered. *)
Section Reached.

Variable t : astTag.

Let PL (n : ast) : Prop :=
  forall block pre post ctx c0 b0 c1 k,
    loose t n = true ->
    emitterLines block pre ctx = (c0, Some b0) ->
    emitterLine b0 n c0 = (c1, Some k) ->
    exists bj j cj,
      loweredIn block (pre ++ n :: post) ctx bj j cj /\ ast_tag j = t.

Let PC (n : ast) : Prop :=
  forall block ctx ctxE bE,
    looseIn t n = true ->
    emitterLines block (ast_children n) ctx = (ctxE, Some bE) ->
    exists bj j cj,
      loweredIn block (ast_children n) ctx bj j cj /\ ast_tag j = t.




End Reached.





(** ** The function lowerer *)

Lemma reportSymbols_run l ctx :
  reportSymbols l ctx
  = (set_debug (debug ctx ++ map dbgReportSymbol l) ctx, Some tt).
Proof.
  revert ctx. induction l as [| s l IH]; intros ctx.
  - cbn. unfold ret. destruct ctx; cbn. rewrite app_nil_r. reflexivity.
  - cbn [reportSymbols]. unfold reportSymbol.
    erewrite bind_ok_intro; [| reflexivity].
    rewrite IH. cbn. unfold set_debug. cbn.
    rewrite <- app_assoc. reflexivity.
Qed.

Lemma emitterFnImpl_run Node ctx ctx' :
  emitterFnImpl Node ctx = (ctx', Some tt) ->
  exists symbol body ctxb ctx1,
    let block := S (blockCount (ir ctx)) in
    let epilogue := S block in
    ast_symbol Node = Some symbol /\
    ast_r Node = Some body /\
    emitterCode block body epilogue ctxb = (ctx1, Some tt) /\
    ctx' = logged dbgLeave (emit epilogue opFnEpilogue ctx1) /\
    returnTo ctxb = epilogue /\
    breakTo ctxb = breakTo ctx /\
    continueTo ctxb = continueTo ctx /\
    arch ctxb = arch ctx /\
    symtab ctxb = symtab ctx ++ [fnSymbolAfter (arch ctx) symbol] /\
    emitted (ir ctxb)
    = emitted (ir ctx)
      ++ [(block,
           opFnPrologue (sym_label (fnSymbolAfter (arch ctx) symbol))
                        (fnStackSize (arch ctx) symbol))].
Proof.
  intros H. unfold emitterFnImpl in H.
  inv_bind H. inv_prim Hrun.
  inv_bind H. apply deref_ok in Hrun. destruct Hrun as [Es ->].
  inv_bind H. inv_prim Hrun.
  destruct (fnAssignParams (arch ctx) a) as [symbol1 reported1] eqn:EP.
  inv_bind H. rewrite reportSymbols_run in Hrun. inv_prim Hrun.
  destruct (emitterScopeAssignOffsets (arch ctx) symbol1 0)
    as [[symbol2 offset] reported2] eqn:ES.
  inv_bind H. rewrite reportSymbols_run in Hrun. inv_prim Hrun.
  inv_bind H. inv_prim Hrun.
  inv_bind H. inv_prim Hrun.
  inv_bind H. inv_prim Hrun.
  inv_bind H. inv_prim Hrun.
  inv_bind H. inv_prim Hrun.
  inv_bind H. apply deref_ok in Hrun. destruct Hrun as [Er ->].
  inv_bind H. units.
  inv_bind H. inv_prim Hrun0. inv_prim H.
  eexists a, a0, _, c. cbv zeta.
  split; [exact Es |]. split; [exact Er |]. split; [exact Hrun |].
  unfold fnSymbolAfter, fnStackSize. rewrite EP. cbn [fst]. rewrite ES.
  repeat split; reflexivity.
Qed.

(** The run of [emitterFnImpl], around the body. *)
Lemma emitterFnImpl_body Node ctx ctx' :
  emitterFnImpl Node ctx = (ctx', Some tt) ->
  let block := S (blockCount (ir ctx)) in
  let epilogue := S block in
  exists symbol body ctx1,
    ast_symbol Node = Some symbol /\
    ast_r Node = Some body /\
    emitterCode block body epilogue (fnBodyContext ctx symbol)
    = (ctx1, Some tt) /\
    ctx' = logged dbgLeave (emit epilogue opFnEpilogue ctx1).
Proof.
  intros H. unfold emitterFnImpl in H.
  inv_bind H. inv_prim Hrun.
  inv_bind H. apply deref_ok in Hrun. destruct Hrun as [Es ->].
  inv_bind H. inv_prim Hrun.
  destruct (fnAssignParams (arch ctx) a) as [symbol1 reported1] eqn:EP.
  inv_bind H. rewrite reportSymbols_run in Hrun. inv_prim Hrun.
  destruct (emitterScopeAssignOffsets (arch ctx) symbol1 0)
    as [[symbol2 offset] reported2] eqn:ES.
  inv_bind H. rewrite reportSymbols_run in Hrun. inv_prim Hrun.
  inv_bind H. inv_prim Hrun.
  inv_bind H. inv_prim Hrun.
  inv_bind H. inv_prim Hrun.
  inv_bind H. inv_prim Hrun.
  inv_bind H. inv_prim Hrun.
  inv_bind H. apply deref_ok in Hrun. destruct Hrun as [Er ->].
  inv_bind H. units.
  inv_bind H. inv_prim Hrun0. inv_prim H.
  exists a, a0, c. cbv zeta.
  split; [exact Es |]. split; [exact Er |]. split; [| reflexivity].
  match type of Hrun with
  | emitterCode _ _ _ ?s = _ => assert (E : fnBodyContext ctx a = s)
  end.
  { unfold fnBodyContext. cbv zeta. rewrite EP. cbn [fst snd]. rewrite ES.
    cbn [fst snd]. clear Hrun.
    rewrite map_app, <- !app_assoc. cbn [app]. reflexivity. }
  rewrite E. exact Hrun.
Qed.

(** C1.  When the function lowerer has a result, it has lowered the body
    in the context it reaches after the prologue, in which [returnTo] is
    the epilogue block, a block it has created and so not null; every
    statement of the body that no loop encloses is lowered in that run
    with that [returnTo] and leaves it so, as no statement changes
    [returnTo], and at exit [returnTo] is still that block: it is not put
    back to what it was.  [breakTo] and [continueTo] are at exit what
    they were at entry. *)
Theorem fn_impl_return_target Node ctx ctx' :
  emitterFnImpl Node ctx = (ctx', Some tt) ->
  let block := S (blockCount (ir ctx)) in
  let epilogue := S block in
  exists symbol body ctx1,
    let ctxb := fnBodyContext ctx symbol in
    ast_symbol Node = Some symbol /\
    ast_r Node = Some body /\
    emitterCode block body epilogue ctxb = (ctx1, Some tt) /\
    ctx' = logged dbgLeave (emit epilogue opFnEpilogue ctx1) /\
    returnTo ctxb = epilogue /\
    epilogue <> nullBlock /\
    (forall bj j cj,
        loweredIn block (ast_children body) ctxb bj j cj ->
        returnTo cj = epilogue /\
        exists cj' k,
          emitterLine bj j cj = (cj', Some k) /\ returnTo cj' = epilogue) /\
    (forall b s c, returnTo (fst (emitterLine b s c)) = returnTo c) /\
    returnTo ctx1 = epilogue /\
    returnTo ctx' = epilogue /\
    breakTo ctx' = breakTo ctx /\
    continueTo ctx' = continueTo ctx.
Proof.
  intros H block epilogue. subst block epilogue.
  apply emitterFnImpl_body in H.
  destruct H as (symbol & body & ctx1 & Es & Er & Hbody & ->).
  cbv zeta in *. exists symbol, body, ctx1. cbv zeta.
  pose proof (grows_run _ (grows_emitterCode _ _ _) Hbody) as G.
  destruct (targets_emitterCode _ _ _ _ Hbody) as [Tb Tc].
  assert (Rb : returnTo (fnBodyContext ctx symbol)
               = S (S (blockCount (ir ctx)))) by reflexivity.
  split; [exact Es |]. split; [exact Er |]. split; [exact Hbody |].
  split; [reflexivity |]. split; [exact Rb |].
  split; [discriminate |].
  split.
  { intros bj j cj R.
    assert (Rj : returnTo cj = S (S (blockCount (ir ctx)))).
    { apply loweredIn_targets in R.
      unfold jumpTargets in R. inversion R. congruence. }
    split; [exact Rj |].
    destruct (emitterCode_run _ _ _ _ Hbody) as (cE & bE & Hlines & _).
    destruct (loweredIn_run R Hlines) as (cj' & k & Hj & _ & _).
    exists cj', k. split; [exact Hj |].
    rewrite (grows_returnTo (grows_run _ (grows_emitterLine _ _) Hj)).
    exact Rj. }
  split.
  { intros b s c. apply (grows_returnTo (grows_emitterLine b s c)). }
  split; [rewrite (grows_returnTo G); exact Rb |].
  cbn. rewrite (grows_returnTo G), Tb, Tc. auto.
Qed.

(** ** [break], [continue] and [return] *)



(** ** Jumps to the null block *)

Lemma guarded_eq inLoop s :
  guarded inLoop s =
  if astTag_eqb (ast_tag s) astBreak then inLoop
  else if astTag_eqb (ast_tag s) astContinue then inLoop
  else if astTag_eqb (ast_tag s) astCode then guardedCode inLoop s
  else if astTag_eqb (ast_tag s) astBranch
       then guardedPtr inLoop (ast_l s) && guardedPtr inLoop (ast_r s)
  else if astTag_eqb (ast_tag s) astLoop then
    match ast_l s with
    | Some _ => guardedPtr true (loopCode s)
    | None => true
    end
  else if astTag_eqb (ast_tag s) astIter then guardedPtr true (ast_l s)
  else true.
Proof.
  destruct s as [tag children [[ltag]|] [[]|] symbol dt]; cbn;
    try reflexivity;
    destruct (astTag_eqb ltag astCode); reflexivity.
Qed.

Lemma S_not_null (n : nat) : S n <> nullBlock.
Proof. discriminate. Qed.

Lemma appendsNonNull_refl c : appendsNonNull c c.
Proof.
  exists []. split; [symmetry; apply app_nil_r | intros b T []].
Qed.

Lemma appendsNonNull_trans a b c :
  appendsNonNull a b -> appendsNonNull b c -> appendsNonNull a c.
Proof.
  intros (n1 & E1 & J1) (n2 & E2 & J2).
  exists (n1 ++ n2). split.
  - rewrite E2, E1. symmetry. apply app_assoc.
  - intros blk T Hin. apply in_app_or in Hin. destruct Hin; eauto.
Qed.

Lemma appendsNonNull_same a b :
  emitted (ir b) = emitted (ir a) -> appendsNonNull a b.
Proof.
  intros E. exists []. split; [rewrite E, app_nil_r; reflexivity |].
  intros blk T [].
Qed.

Lemma appendsNonNull_one a b blk op :
  emitted (ir b) = emitted (ir a) ++ [(blk, op)] ->
  (forall T, op = opJump T -> T <> nullBlock) ->
  appendsNonNull a b.
Proof.
  intros E J. exists [(blk, op)]. split; [exact E |].
  intros b' T [Hin | []]. inversion Hin; subst. apply J. reflexivity.
Qed.

Lemma targetsNonNull_step inLoop a b :
  grows a b -> sameLoopTargets a b ->
  targetsNonNull inLoop a -> targetsNonNull inLoop b.
Proof.
  intros G [Tb Tc] [Hr Hl]. split.
  - rewrite (grows_returnTo G). exact Hr.
  - intros E. rewrite Tb, Tc. auto.
Qed.

Section NonNull.

Let PL (n : ast) : Prop :=
  forall inLoop block ctx ctx' k,
    guarded inLoop n = true ->
    targetsNonNull inLoop ctx ->
    emitterLine block n ctx = (ctx', Some k) ->
    appendsNonNull ctx ctx'.

Let PC (n : ast) : Prop :=
  forall inLoop block K ctx ctx',
    guardedCode inLoop n = true ->
    targetsNonNull inLoop ctx ->
    K <> nullBlock ->
    emitterCode block n K ctx = (ctx', Some tt) ->
    appendsNonNull ctx ctx'.

Lemma nonNull_lines cs :
  Forall PL cs ->
  forall inLoop block ctx ctx' b,
    forallb (guarded inLoop) cs = true ->
    targetsNonNull inLoop ctx ->
    emitterLines block cs ctx = (ctx', Some b) ->
    appendsNonNull ctx ctx'.
Proof.
  induction 1 as [| c rest Hc _ IH]; intros inLoop block ctx ctx' b G T Hrun.
  - inversion Hrun; subst. apply appendsNonNull_refl.
  - apply emitterLines_cons_run in Hrun.
    destruct Hrun as (c1 & b1 & H1 & H2).
    cbn in G. apply andb_true_iff in G. destruct G as [G1 G2].
    eapply appendsNonNull_trans.
    + eapply Hc; eassumption.
    + eapply IH; [exact G2 | | exact H2].
      eapply targetsNonNull_step; [| | exact T].
      * eapply grows_run; [apply grows_emitterLine | exact H1].
      * eapply targets_emitterLine; exact H1.
Qed.

Lemma nonNull_code n : Forall PL (ast_children n) -> PC n.
Proof.
  intros H inLoop block K ctx ctx' G T HK Hrun.
  apply emitterCode_run in Hrun. destruct Hrun as (c1 & b & H1 & ->).
  eapply appendsNonNull_trans.
  - eapply nonNull_lines; eassumption.
  - eapply appendsNonNull_one; [apply emitted_emit |].
    intros T' E. inversion E; subst. exact HK.
Qed.

Lemma nonNull_line n :
  PC n ->
  (forall l, ast_l n = Some l -> PC l) ->
  (forall r, ast_r n = Some r -> PC r) ->
  PL n.
Proof.
  intros C L R inLoop block ctx ctx' k G T Hrun.
  rewrite guarded_eq in G.
  (* break, continue, return *)
  destruct (jumpStatementTarget (ast_tag n) ctx) as [J|] eqn:EJ.
  { destruct (jump_statement_run block n ctx EJ) as (c & Hc & Hem & _).
    rewrite Hc in Hrun. inversion Hrun; subst.
    eapply appendsNonNull_one; [exact Hem |].
    intros T' E. inversion E; subst T'. destruct T as [Tr Tl].
    destruct (ast_tag n); try discriminate EJ; cbn in EJ, G;
      injection EJ as <-; auto; apply Tl; exact G. }
  apply emitterLine_run in Hrun. destruct Hrun as (c1 & Hrun & ->).
  apply appendsNonNull_trans with (b := c1);
    [| apply appendsNonNull_same; reflexivity].
  apply appendsNonNull_trans
    with (b := logged (dbgEnter (astTagGetStr (ast_tag n))) ctx);
    [apply appendsNonNull_same; reflexivity |].
  assert (T0 : targetsNonNull inLoop
                 (logged (dbgEnter (astTagGetStr (ast_tag n))) ctx))
    by exact T.
  revert Hrun T0.
  generalize (logged (dbgEnter (astTagGetStr (ast_tag n))) ctx).
  clear T. intros c0 Hrun T.
  destruct (ast_tag n) eqn:Et; try discriminate EJ;
    try (assert (Eu : lineHandles (ast_tag n) = false)
          by (rewrite Et; reflexivity);
         rewrite (dispatch_unhandled block n Eu) in Hrun;
         discriminate Hrun);
    try (assert (Ev : astIsValueTag (ast_tag n) = true)
          by (rewrite Et; reflexivity);
         rewrite (dispatch_value block n Ev) in Hrun;
         inv_bind Hrun; inv_prim Hrun;
         apply emitterValue_run in Hrun0;
         eapply appendsNonNull_one;
         [apply (proj1 Hrun0) | discriminate]);
    cbn in G.
  - (* empty *)
    rewrite (dispatch_empty block _ Et) in Hrun. inv_prim Hrun.
    apply appendsNonNull_refl.
  - (* decl *)
    rewrite (dispatch_decl block _ Et) in Hrun.
    inv_bind Hrun. inv_prim Hrun.
    apply emitterDecl_run in Hrun0.
    eapply appendsNonNull_one; [apply (proj1 Hrun0) | discriminate].
  - (* code *)
    rewrite (dispatch_code block _ Et) in Hrun.
    inv_bind Hrun. inv_prim Hrun0.
    inv_bind Hrun. inv_prim Hrun. units.
    eapply appendsNonNull_trans;
      [apply appendsNonNull_same with (b := newBlocks 1 c0); reflexivity |].
    eapply C; [exact G | exact T | apply S_not_null | exact Hrun0].
  - (* branch *)
    rewrite (dispatch_branch block _ Et) in Hrun.
    inv_bind Hrun. inv_prim Hrun.
    apply emitterBranch_run in Hrun0.
    destruct Hrun0 as (l & r & cF & _ & El & Er & Hl & Hr).
    cbv zeta in Hl, Hr.
    rewrite El, Er in G. cbn in G.
    apply andb_true_iff in G. destruct G as [Gl Gr].
    match type of Hl with
    | emitterCode _ _ _ ?s = _ => apply appendsNonNull_trans with (b := s)
    end.
    { eapply appendsNonNull_one;
        [rewrite emitted_branched; reflexivity | discriminate]. }
    match type of Hl with
    | emitterCode _ _ _ ?s = _ => assert (Ts : targetsNonNull inLoop s)
    end.
    { eapply targetsNonNull_step; [| | exact T].
      - eapply grows_trans; [apply (grows_newBlocks 3) | apply grows_branched].
      - apply targets_branched. }
    eapply appendsNonNull_trans.
    + eapply L; [exact El | exact Gl | exact Ts | apply S_not_null | exact Hl].
    + eapply R; [exact Er | exact Gr | | apply S_not_null | exact Hr].
      eapply targetsNonNull_step; [| | exact Ts].
      * eapply grows_run; [apply grows_emitterCode | exact Hl].
      * eapply targets_emitterCode; exact Hl.
  - (* loop *)
    rewrite (dispatch_loop block _ Et) in Hrun.
    inv_bind Hrun. inv_prim Hrun.
    apply emitterLoop_emitted in Hrun0.
    destruct Hrun0 as (code & ctxb & ctx1 & bodyOps & _ & Hcode & Hbody
                       & Hb & Hc & Hr & Eb & E1 & E' & _).
    cbv zeta in *.
    assert (Gc : guardedCode true code = true).
    { unfold loopCode in Hcode, G.
      destruct (ast_l n); [| discriminate Hcode].
      rewrite Hcode in G. exact G. }
    eapply appendsNonNull_trans;
      [eapply appendsNonNull_one; [exact Eb |] |].
    { unfold loopEntry. destruct (ast_l n) as [l|];
        [destruct (astTag_eqb (ast_tag l) astCode) |];
        intros T' E; inversion E; apply S_not_null. }
    eapply appendsNonNull_trans.
    + assert (Pcode : PC code).
      { unfold loopCode in Hcode.
        destruct (ast_l n) as [l|] eqn:El; [| discriminate Hcode].
        destruct (astTag_eqb (ast_tag l) astCode).
        - inversion Hcode; subst. apply L. reflexivity.
        - apply R. exact Hcode. }
      eapply Pcode; [exact Gc | | apply S_not_null | exact Hbody].
      split; [rewrite Hr; apply T |].
      intros _. rewrite Hb, Hc. split; apply S_not_null.
    + eapply appendsNonNull_one;
        [rewrite E', E1, Eb, <- !app_assoc; reflexivity | discriminate].
  - (* iter *)
    rewrite (dispatch_iter block _ Et) in Hrun.
    inv_bind Hrun. inv_prim Hrun.
    apply emitterIter_emitted in Hrun0.
    destruct Hrun0 as (init & cond & after & code & ctxb & ctx1 & bodyOps
                       & block1 & block2 & _ & _ & El & Hbody & Hb & Hc
                       & Hr & Eb & E1 & E' & _).
    cbv zeta in *.
    rewrite El in G. cbn in G.
    apply appendsNonNull_trans with (b := ctxb).
    { eexists. split; [exact Eb |].
      intros b T' [Hin | [Hin | []]]; inversion Hin.
      unfold iterInit in *.
      destruct (astTag_eqb (ast_tag init) astDecl); discriminate. }
    apply appendsNonNull_trans with (b := ctx1).
    + eapply (L code El); [exact G | | apply S_not_null | exact Hbody].
      split; [rewrite Hr; apply T |].
      intros _. rewrite Hb, Hc. split; apply S_not_null.
    + eexists. split.
      * rewrite E', E1, Eb. rewrite <- !app_assoc. reflexivity.
      * intros b T' [Hin | [Hin | []]]; inversion Hin.
Qed.

Lemma nonNull_statements : forall n : ast, PL n /\ PC n.
Proof. apply emitter_ind; [apply nonNull_code | apply nonNull_line]. Qed.

End NonNull.

(** ** The module lowerer *)

Lemma keeps_refl a : keeps a a.
Proof.
  split; [exists []; symmetry; apply app_nil_r | apply sameLoopTargets_refl].
Qed.

Lemma keeps_trans a b c : keeps a b -> keeps b c -> keeps a c.
Proof.
  intros [[n1 E1] T1] [[n2 E2] T2]. split.
  - exists (n1 ++ n2). rewrite E2, E1. symmetry. apply app_assoc.
  - eapply sameLoopTargets_trans; eassumption.
Qed.

Lemma keeps_of_grows a b : grows a b -> sameLoopTargets a b -> keeps a b.
Proof. intros G T. split; [apply (grows_emitted G) | exact T]. Qed.

Lemma keeps_debugLog e : preserves_ok keeps (debugLog e).
Proof.
  intros ctx ctx' a H. apply keeps_of_grows.
  - eapply grows_run; [apply grows_debugLog | exact H].
  - eapply targets_debugLog; exact H.
Qed.

Lemma keeps_emitterDeclAsm Node : preserves_ok keeps (emitterDeclAsm Node).
Proof.
  intros ctx ctx' a H. apply keeps_of_grows.
  - eapply grows_run; [apply grows_emitterDeclAsm | exact H].
  - unfold emitterDeclAsm, bind, get, asmEmit, setRegs in H. cbn in H.
    inversion H; subst. split; reflexivity.
Qed.

Lemma keeps_emitterFnImpl Node : preserves_ok keeps (emitterFnImpl Node).
Proof.
  intros ctx ctx' [] H. apply emitterFnImpl_run in H.
  destruct H as (symbol & body & ctxb & ctx1 & _ & _ & Hbody & -> & _ & Hb
                 & Hc & _ & _ & Eb).
  cbv zeta in *.
  destruct (grows_run _ (grows_emitterCode _ _ _) Hbody)
    as [_ _ _ [new N] _ _].
  destruct (targets_emitterCode _ _ _ _ Hbody) as [Tb Tc].
  split.
  - eexists. cbn. rewrite N, Eb, <- !app_assoc. reflexivity.
  - split; cbn; congruence.
Qed.

Lemma keeps_moduleChildren cs :
  Forall (fun n => preserves_ok keeps (emitterModuleChild n)) cs ->
  preserves_ok keeps (emitterModuleChildren cs).
Proof.
  induction 1 as [| c rest Hc _ IH].
  - apply (preserves_ok_ret keeps keeps_refl).
  - change (emitterModuleChildren (c :: rest))
      with (emitterModuleChild c ;; emitterModuleChildren rest).
    apply (preserves_ok_bind keeps_trans); [exact Hc | intros _; exact IH].
Qed.

Lemma keeps_module :
  forall n : ast,
    preserves_ok keeps (emitterModule n) /\
    preserves_ok keeps (emitterModuleChild n).
Proof.
  apply ast_nested_ind.
  intros tag children l r symbol dt Hc _ Hr. split.
  - rewrite emitterModule_eq.
    apply (preserves_ok_bind keeps_trans); [apply keeps_debugLog | intros _].
    apply (preserves_ok_bind keeps_trans);
      [| intros _; apply keeps_debugLog].
    apply keeps_moduleChildren. cbn.
    eapply Forall_impl; [| exact Hc]. intros a [_ H]. exact H.
  - unfold emitterModuleChild, emitterModuleChild_of. cbn.
    destruct (astTag_eqb tag astUsing).
    { destruct r as [r|].
      - apply (Hr r eq_refl).
      - apply (preserves_ok_ret keeps keeps_refl). }
    destruct (astTag_eqb tag astFnImpl); [apply keeps_emitterFnImpl |].
    destruct (astTag_eqb tag astDecl); [apply keeps_emitterDeclAsm |].
    destruct (astTag_eqb tag astEmpty); apply keeps_debugLog.
Qed.

Lemma moduleChildren_app_run pre Current post ctx ctx' :
  emitterModuleChildren (pre ++ Current :: post) ctx = (ctx', Some tt) ->
  exists c1 c2,
    emitterModuleChildren pre ctx = (c1, Some tt) /\
    emitterModuleChild Current c1 = (c2, Some tt) /\
    emitterModuleChildren post c2 = (ctx', Some tt).
Proof.
  revert ctx. induction pre as [| p pre IH]; intros ctx H.
  - cbn [app] in H.
    change (emitterModuleChildren (Current :: post))
      with (emitterModuleChild Current ;; emitterModuleChildren post) in H.
    inv_bind H. units. exists ctx, c. auto.
  - cbn [app] in H.
    change (emitterModuleChildren (p :: pre ++ Current :: post))
      with (emitterModuleChild p ;;
            emitterModuleChildren (pre ++ Current :: post)) in H.
    inv_bind H. units.
    destruct (IH _ H) as (c1 & c2 & H1 & H2 & H3).
    exists c1, c2. split; [| auto].
    change (emitterModuleChildren (p :: pre))
      with (emitterModuleChild p ;; emitterModuleChildren pre).
    erewrite bind_ok_intro; [| exact Hrun]. exact H1.
Qed.

Lemma emitsJump_member a b T :
  emitsJump a b T -> exists blk, In (blk, opJump T) (emitted (ir b)).
Proof.
  intros (blk & pre & post & E). exists blk. rewrite E.
  apply in_or_app. right. apply in_or_app. right. left. reflexivity.
Qed.

Lemma keeps_member a b p :
  keeps a b -> In p (emitted (ir a)) -> In p (emitted (ir b)).
Proof.
  intros [[new E] _] H. rewrite E. apply in_or_app. left. exact H.
Qed.

(** C10.  [emitterInit] sets [breakTo] and [continueTo] to the null block.
    A function of the tree whose body has a [break] or [continue] outside
    every loop and iter is lowered with a jump to the null block.  When
    every [break] and [continue] of the body is inside a loop or iter,
    no jump that lowering the function appends goes to the null block. *)
Theorem break_continue_null_targets :
  (forall out a,
      breakTo (emitterInit out a) = nullBlock /\
      continueTo (emitterInit out a) = nullBlock) /\
  (forall t Tree pre fn post body out a ctx',
      t = astBreak \/ t = astContinue ->
      ast_children Tree = pre ++ fn :: post ->
      ast_tag fn = astFnImpl ->
      ast_r fn = Some body ->
      looseIn t body = true ->
      emitter Tree out a = (ctx', Some tt) ->
      exists b, In (b, opJump nullBlock) (emitted (ir ctx'))) /\
  (forall Node body ctx ctx',
      ast_r Node = Some body ->
      guardedCode false body = true ->
      emitterFnImpl Node ctx = (ctx', Some tt) ->
      exists new,
        emitted (ir ctx') = emitted (ir ctx) ++ new /\
        forall b T, In (b, opJump T) new -> T <> nullBlock).
Proof.
  split; [| split].
  - intros out a. split; reflexivity.
  - intros t Tree pre fn post body out a ctx' Ht Ech Etag Er L H.
    unfold emitter in H. rewrite emitterModule_eq in H.
    inv_bind H. inv_prim Hrun.
    inv_bind H. inv_prim H. units.
    rewrite Ech in Hrun.
    apply moduleChildren_app_run in Hrun.
    destruct Hrun as (c1 & c2 & Hpre & Hfn & Hpost).
    pose proof (keeps_moduleChildren
                  (proj2 (Forall_forall _ pre)
                         (fun n _ => proj2 (keeps_module n)))
                  _ Hpre) as [_ [Kb Kc]].
    cbn in Kb, Kc.
    pose proof (keeps_moduleChildren
                  (proj2 (Forall_forall _ post)
                         (fun n _ => proj2 (keeps_module n)))
                  _ Hpost) as Kpost.
    unfold emitterModuleChild, emitterModuleChild_of in Hfn.
    rewrite Etag in Hfn. cbn in Hfn.
    apply emitterFnImpl_run in Hfn.
    destruct Hfn as (symbol & body' & ctxb & ctx1 & _ & Er' & Hbody & ->
                     & _ & Hb & Hc & _).
    cbv zeta in *.
    rewrite Er in Er'. inversion Er'; subst body'.
    assert (J : emitsJump ctxb ctx1 nullBlock).
    { eapply (proj2 (loose_statements Ht body)); [exact L | | exact Hbody].
      destruct Ht as [-> | ->]; cbn; congruence. }
    destruct (@emitsJump_member _ _ _ J) as [blk Hin].
    exists blk. cbn.
    eapply keeps_member; [exact Kpost |]. cbn.
    apply in_or_app. left. exact Hin.
  - intros Node body ctx ctx' Er G H.
    apply emitterFnImpl_run in H.
    destruct H as (symbol & body' & ctxb & ctx1 & _ & Er' & Hbody & ->
                   & Hr & _ & _ & _ & _ & Eb).
    cbv zeta in *.
    rewrite Er in Er'. inversion Er'; subst body'.
    assert (N : appendsNonNull ctxb ctx1).
    { eapply (proj2 (nonNull_statements body));
        [exact G | | apply S_not_null | exact Hbody].
      split; [rewrite Hr; apply S_not_null | discriminate]. }
    destruct N as (new & E & J).
    eexists. split.
    + cbn. rewrite E, Eb, <- !app_assoc. reflexivity.
    + intros b T Hin.
      apply in_app_or in Hin. destruct Hin as [[Hin | []] | Hin];
        [inversion Hin |].
      apply in_app_or in Hin. destruct Hin as [Hin | [Hin | []]].
      * eapply J; exact Hin.
      * inversion Hin.
Qed.

(** ** Parameter offsets *)

Lemma wrap_add_l x y : CInt.wrap (CInt.wrap x + y) = CInt.wrap (x + y).
Proof.
  unfold CInt.wrap.
  replace ((x + 2 ^ 31) mod 2 ^ 32 - 2 ^ 31 + y + 2 ^ 31)
    with ((x + 2 ^ 31) mod 2 ^ 32 + y) by lia.
  rewrite Z.add_mod_idemp_l by lia.
  replace (x + 2 ^ 31 + y) with (x + y + 2 ^ 31) by lia. reflexivity.
Qed.

Lemma wrap_in_range z : CInt.in_range z -> CInt.wrap z = z.
Proof.
  unfold CInt.in_range, CInt.int_min, CInt.int_max, CInt.wrap. intros H.
  rewrite Z.mod_small by lia. lia.
Qed.

Lemma fnParamOffsets_spec a cs o :
  fnParamOffsets a cs o
  = (offsetsInOrder a (leadingParams cs) o
       ++ skipn (List.length (leadingParams cs)) cs,
     addSizes a (leadingParams cs) o,
     offsetsInOrder a (leadingParams cs) o).
Proof.
  revert o. induction cs as [| Symbol rest IH]; intros o.
  - reflexivity.
  - cbn [fnParamOffsets leadingParams].
    destruct (sym_tag Symbol) eqn:Et; try reflexivity.
    rewrite IH. reflexivity.
Qed.


Lemma fnFirstParamOffset_wrap a symbol :
  fnFirstParamOffset a symbol
  = CInt.wrap (2 * wordsize a
               + (if typeGetSize a (typeGetReturn (sym_dt symbol))
                     >? wordsize a
                  then wordsize a else 0)).
Proof.
  unfold fnFirstParamOffset.
  destruct (typeGetSize a (typeGetReturn (sym_dt symbol)) >? wordsize a).
  - unfold CInt.add, CInt.mul. rewrite wrap_add_l. reflexivity.
  - unfold CInt.mul. rewrite Z.add_0_r. reflexivity.
Qed.

(** ** Offsets of the locals *)

Lemma scopeChildren_spec a cs offset :
  fst (scopeChildren (emitterScopeAssignOffsets a) a cs offset)
  = (scopeChildrenAfter a cs offset, fold_left (scopeStep a) cs offset).
Proof.
  revert offset. induction cs as [| Symbol rest IH]; intros offset.
  - reflexivity.
  - cbn [scopeChildren scopeChildrenAfter fold_left].
    unfold scopeChildAfter at 1. unfold scopeStep at 1 3.
    destruct (sym_tag Symbol).
    + destruct (emitterScopeAssignOffsets a Symbol offset)
        as [[Symbol' offset'] reported]. cbn [fst snd].
      specialize (IH offset').
      destruct (scopeChildren (emitterScopeAssignOffsets a) a rest offset')
        as [[rest' final] reported'].
      cbn [fst] in *. inversion IH; subst. reflexivity.
    + specialize (IH (CInt.sub offset (typeGetSize a (sym_dt Symbol)))).
      destruct (scopeChildren (emitterScopeAssignOffsets a) a rest
                              (CInt.sub offset (typeGetSize a (sym_dt Symbol))))
        as [[rest' final] reported'].
      cbn [fst] in *. inversion IH; subst. reflexivity.
    + specialize (IH offset).
      destruct (scopeChildren (emitterScopeAssignOffsets a) a rest offset)
        as [[rest' final] reported'].
      cbn [fst] in *. inversion IH; subst. reflexivity.
    + specialize (IH offset).
      destruct (scopeChildren (emitterScopeAssignOffsets a) a rest offset)
        as [[rest' final] reported'].
      cbn [fst] in *. inversion IH; subst. reflexivity.
Qed.

Lemma emitterScopeAssignOffsets_spec a Scope offset :
  fst (emitterScopeAssignOffsets a Scope offset)
  = (sym_set_children Scope
       (scopeChildrenAfter a (sym_children Scope) offset),
     fold_left (scopeStep a) (sym_children Scope) offset).
Proof.
  destruct Scope as [tag dt children label off].
  cbn [emitterScopeAssignOffsets sym_children sym_set_children].
  pose proof (scopeChildren_spec a children offset) as E.
  destruct (scopeChildren (emitterScopeAssignOffsets a) a children offset)
    as [[children' final] reported].
  cbn [fst] in *. inversion E; subst. reflexivity.
Qed.

Lemma scopeSize_eq a Scope :
  scopeSize a Scope = childrenSize a (sym_children Scope).
Proof. destruct Scope; reflexivity. Qed.

Lemma sizesNonNeg_eq a Scope :
  sizesNonNeg a Scope = forallb (childNonNeg a) (sym_children Scope).
Proof. destruct Scope; reflexivity. Qed.

Lemma offsetsBetween_weaken lo hi lo' hi' l :
  lo' <= lo -> hi <= hi' -> offsetsBetween lo hi l -> offsetsBetween lo' hi' l.
Proof.
  intros H1 H2 H. eapply Forall_impl; [| exact H].
  cbn. intros s Hs. lia.
Qed.

Lemma sym_offset_set s o : sym_offset (sym_set_offset s o) = o.
Proof. destruct s; reflexivity. Qed.

Lemma children_exact a cs :
  Forall (scopeExact a) cs ->
  forallb (childNonNeg a) cs = true ->
  0 <= childrenSize a cs /\
  forall x,
    CInt.in_range x ->
    CInt.in_range (x - childrenSize a cs) ->
    snd (fst (scopeChildren (emitterScopeAssignOffsets a) a cs x))
    = x - childrenSize a cs /\
    offsetsBetween (x - childrenSize a cs) x
      (snd (scopeChildren (emitterScopeAssignOffsets a) a cs x)).
Proof.
  induction 1 as [| c rest Hc _ IH]; intros NN.
  - split; [cbn; lia |]. intros x _ _. cbn. split; [lia | constructor].
  - cbn [forallb] in NN. apply andb_true_iff in NN. destruct NN as [Nc Nr].
    destruct (IH Nr) as [Sr IHr]. clear IH.
    change (childrenSize a (c :: rest))
      with (childSize a c + childrenSize a rest).
    unfold childSize, childNonNeg in *.
    cbn [scopeChildren].
    destruct (sym_tag c) eqn:Et.
    + (* a nested scope *)
      destruct (Hc Nc) as [Sc Hx]. split; [lia |].
      intros x Rx Rt.
      assert (R1 : CInt.in_range (x - scopeSize a c))
        by (unfold CInt.in_range in *; lia).
      destruct (Hx x Rx R1) as [E1 B1].
      destruct (emitterScopeAssignOffsets a c x)
        as [[c' offset'] reported]. cbn [fst snd] in E1, B1. subst offset'.
      assert (R2 : CInt.in_range (x - scopeSize a c - childrenSize a rest))
        by (unfold CInt.in_range in *; lia).
      destruct (IHr (x - scopeSize a c) R1 R2) as [E2 B2].
      destruct (scopeChildren (emitterScopeAssignOffsets a) a rest
                              (x - scopeSize a c))
        as [[rest' final] reported']. cbn [fst snd] in *.
      split; [lia |].
      apply Forall_app. split.
      * eapply offsetsBetween_weaken; [| | exact B1]; lia.
      * eapply offsetsBetween_weaken; [| | exact B2]; lia.
    + (* an identifier *)
      apply Z.leb_le in Nc. split; [lia |].
      intros x Rx Rt.
      assert (R1 : CInt.in_range (x - typeGetSize a (sym_dt c)))
        by (unfold CInt.in_range in *; lia).
      unfold CInt.sub. rewrite (wrap_in_range R1).
      assert (R2 : CInt.in_range
                     (x - typeGetSize a (sym_dt c) - childrenSize a rest))
        by (unfold CInt.in_range in *; lia).
      destruct (IHr _ R1 R2) as [E2 B2].
      destruct (scopeChildren (emitterScopeAssignOffsets a) a rest
                              (x - typeGetSize a (sym_dt c)))
        as [[rest' final] reported']. cbn [fst snd] in *.
      split; [lia |].
      constructor.
      * rewrite sym_offset_set. lia.
      * eapply offsetsBetween_weaken; [| | exact B2]; lia.
    + (* a parameter *)
      split; [lia |]. intros x Rx Rt.
      rewrite Z.add_0_l in Rt. destruct (IHr x Rx Rt) as [E2 B2].
      destruct (scopeChildren (emitterScopeAssignOffsets a) a rest x)
        as [[rest' final] reported']. cbn [fst snd] in *.
      split; [lia | exact B2].
    + split; [lia |]. intros x Rx Rt.
      rewrite Z.add_0_l in Rt. destruct (IHr x Rx Rt) as [E2 B2].
      destruct (scopeChildren (emitterScopeAssignOffsets a) a rest x)
        as [[rest' final] reported']. cbn [fst snd] in *.
      split; [lia | exact B2].
Qed.

Lemma scope_exact a : forall Scope, scopeExact a Scope.
Proof.
  apply sym_nested_ind.
  intros tag dt children label offset H NN.
  rewrite sizesNonNeg_eq in NN. cbn [sym_children] in NN.
  rewrite scopeSize_eq. cbn [sym_children].
  destruct (children_exact H NN) as [S0 Hx].
  split; [exact S0 |].
  intros x Rx Rt. destruct (Hx x Rx Rt) as [E B].
  cbn [emitterScopeAssignOffsets].
  destruct (scopeChildren (emitterScopeAssignOffsets a) a children x)
    as [[children' final] reported].
  cbn [fst snd] in *. auto.
Qed.

Lemma fnImpl_symtab Node ctx ctx' symbol :
  ast_symbol Node = Some symbol ->
  emitterFnImpl Node ctx = (ctx', Some tt) ->
  symtab ctx' = symtab ctx ++ [fnSymbolAfter (arch ctx) symbol] /\
  In (S (blockCount (ir ctx)),
      opFnPrologue (sym_label (fnSymbolAfter (arch ctx) symbol))
                   (fnStackSize (arch ctx) symbol))
     (emitted (ir ctx')).
Proof.
  intros Es H. apply emitterFnImpl_run in H.
  destruct H as (symbol' & body & ctxb & ctx1 & Es' & _ & Hbody & -> & _ & _
                 & _ & _ & Est & Eb).
  cbv zeta in *. rewrite Es in Es'. inversion Es'; subst symbol'.
  pose proof (grows_run _ (grows_emitterCode _ _ _) Hbody) as G.
  split.
  - cbn. rewrite (grows_symtab G). exact Est.
  - cbn. destruct (grows_emitted G) as [new N]. rewrite N, Eb.
    apply in_or_app. left. apply in_or_app. left.
    apply in_or_app. right. left. reflexivity.
Qed.

(** C2.  [emitterScopeAssignOffsets] walks the children in order from the
    starting offset: an identifier takes the running offset less its size,
    which is written to its [offset] and becomes the running offset; a
    nested scope is walked from the running offset and what it returns
    becomes the running offset; any other child is left alone.  It returns
    the running offset after the last child.  When no size is negative and
    nothing overflows, that is the starting offset less the sizes of all
    the locals, those of sibling scopes added up, and no offset written is
    below it.  [emitterFnImpl] passes its negation, from the offset 0, to
    the prologue as the stack size. *)
Theorem scope_assign_offsets_walk a Scope offset :
  fst (emitterScopeAssignOffsets a Scope offset)
  = (sym_set_children Scope
       (scopeChildrenAfter a (sym_children Scope) offset),
     fold_left (scopeStep a) (sym_children Scope) offset) /\
  (sizesNonNeg a Scope = true ->
   CInt.in_range offset ->
   CInt.in_range (offset - scopeSize a Scope) ->
   snd (fst (emitterScopeAssignOffsets a Scope offset))
   = offset - scopeSize a Scope /\
   offsetsBetween (snd (fst (emitterScopeAssignOffsets a Scope offset)))
                  offset
                  (snd (emitterScopeAssignOffsets a Scope offset))) /\
  (forall Node ctx ctx' symbol,
      ast_symbol Node = Some symbol ->
      emitterFnImpl Node ctx = (ctx', Some tt) ->
      let locals := fst (fnAssignParams (arch ctx) symbol) in
      exists label,
        In (S (blockCount (ir ctx)),
            opFnPrologue
              label
              (CInt.neg
                 (snd (fst (emitterScopeAssignOffsets (arch ctx) locals 0)))))
           (emitted (ir ctx'))).
Proof.
  split; [apply emitterScopeAssignOffsets_spec |]. split.
  - intros NN R1 R2. destruct (scope_exact a Scope NN) as [_ H].
    destruct (H offset R1 R2) as [E B]. rewrite E. auto.
  - intros Node ctx ctx' symbol Es H locals.
    destruct (@fnImpl_symtab Node ctx ctx' symbol Es H) as [_ Hin].
    eexists. exact Hin.
Qed.


Lemma sym_tag_set s o : sym_tag (sym_set_offset s o) = sym_tag s.
Proof. destruct s; reflexivity. Qed.

Lemma sym_dt_set s o : sym_dt (sym_set_offset s o) = sym_dt s.
Proof. destruct s; reflexivity. Qed.

Lemma sym_children_set s c : sym_children (sym_set_children s c) = c.
Proof. destruct s; reflexivity. Qed.




(** * Further properties of the lowering *)

(** ** When a statement can be lowered *)

Lemma defined_lines block cs ctx ctx' b :
  Forall (fun n => forall block ctx ctx' k,
              emitterLine block n ctx = (ctx', Some k) ->
              wellFormed n = true) cs ->
  emitterLines block cs ctx = (ctx', Some b) ->
  forallb wellFormed cs = true.
Proof.
  intros H. revert block ctx.
  induction H as [| c rest Hc _ IH]; intros block ctx Hrun.
  - reflexivity.
  - apply emitterLines_cons_run in Hrun.
    destruct Hrun as (ctx1 & b1 & H1 & H2).
    cbn [forallb]. apply andb_true_iff. split.
    + eapply Hc; exact H1.
    + eapply IH; exact H2.
Qed.

Lemma defined_statements :
  forall n : ast,
    (forall block ctx ctx' k,
        emitterLine block n ctx = (ctx', Some k) -> wellFormed n = true) /\
    (forall block K ctx ctx',
        emitterCode block n K ctx = (ctx', Some tt) ->
        wellFormedCode n = true).
Proof.
  apply emitter_ind.
  - intros n H block K ctx ctx' Hrun.
    apply emitterCode_run in Hrun. destruct Hrun as (ctx1 & b & Hl & _).
    unfold wellFormedCode. eapply defined_lines; eassumption.
  - intros n C L R block ctx ctx' k Hrun.
    apply emitterLine_run in Hrun. destruct Hrun as (ctx1 & Hd & _).
    rewrite wellFormed_eq.
    destruct (astTag_eqb (ast_tag n) astBranch) eqn:Eb.
    { apply astTag_eqb_eq in Eb. rewrite (dispatch_branch block _ Eb) in Hd.
      inv_bind Hd. apply emitterBranch_run in Hrun.
      destruct Hrun as (l & r & c1 & _ & El & Er & Hl & Hr).
      cbv zeta in *. rewrite El, Er. cbn.
      apply andb_true_iff. split.
      - eapply (L l El); exact Hl.
      - eapply (R r Er); exact Hr. }
    destruct (astTag_eqb (ast_tag n) astLoop) eqn:Elo.
    { apply astTag_eqb_eq in Elo. rewrite (dispatch_loop block _ Elo) in Hd.
      inv_bind Hd. apply emitterLoop_run in Hrun.
      destruct Hrun as (l & code & c1 & _ & El & Hcode & Hbody & _).
      cbv zeta in *. unfold loopCode. rewrite El.
      destruct (astTag_eqb (ast_tag l) astCode).
      - subst code. cbn. eapply (L l El); exact Hbody.
      - rewrite Hcode. cbn. eapply (R code Hcode); exact Hbody. }
    destruct (astTag_eqb (ast_tag n) astIter) eqn:Ei.
    { apply astTag_eqb_eq in Ei. rewrite (dispatch_iter block _ Ei) in Hd.
      inv_bind Hd. apply emitterIter_run in Hrun.
      destruct Hrun as (init & cond & after & code & c1 & b1 & c2 & c3 & lo
                        & _ & Ech & El & _ & Hbody & _).
      cbv zeta in *. rewrite Ech, El. cbn.
      eapply (L code El); exact Hbody. }
    destruct (astTag_eqb (ast_tag n) astCode) eqn:Ec.
    { apply astTag_eqb_eq in Ec. rewrite (dispatch_code block _ Ec) in Hd.
      inv_bind Hd. inv_bind Hd. units. eapply C; exact Hrun0. }
    destruct (lineHandles (ast_tag n)) eqn:Eh; [reflexivity |].
    rewrite (dispatch_unhandled block _ Eh) in Hd.
    inv_bind Hd. inv_prim Hd.
Qed.

(** X1.  The statement lowerer has a result exactly for the statements
    that are well formed: every branch that is reached has both arms,
    every loop its left child and its body, every iter two children and
    its body, and every statement a tag that a branch of [emitterLine]
    handles.  For any other statement it reads through a null pointer or
    returns the continuation that no branch has assigned.  The same holds
    of [emitterCode] and the lines of its block. *)
Theorem statement_defined_iff_well_formed Node :
  (forall block ctx,
      (exists k, snd (emitterLine block Node ctx) = Some k)
      <-> wellFormed Node = true) /\
  (forall block K ctx,
      snd (emitterCode block Node K ctx) = Some tt
      <-> wellFormedCode Node = true).
Proof.
  split.
  - intros block ctx. split.
    + intros [k Hk].
      destruct (emitterLine block Node ctx) as [ctx' r] eqn:E.
      cbn in Hk. subst r.
      eapply (proj1 (defined_statements Node)); exact E.
    + intros W. destruct (@total_emitterLine block Node W ctx) as (c & k & E).
      exists k. rewrite E. reflexivity.
  - intros block K ctx. split.
    + intros Hk.
      destruct (emitterCode block Node K ctx) as [ctx' r] eqn:E.
      cbn in Hk. subst r.
      eapply (proj2 (defined_statements Node)); exact E.
    + intros W.
      destruct (@total_emitterCode block Node K W ctx) as (c & [] & E).
      rewrite E. reflexivity.
Qed.

(** ** The iter lowerer *)

Lemma emitterCode_emitted block Node K ctx ctx' :
  emitterCode block Node K ctx = (ctx', Some tt) ->
  exists ctx1 last lineOps,
    emitterLines block (ast_children Node) ctx = (ctx1, Some last) /\
    emitted (ir ctx1) = emitted (ir ctx) ++ lineOps /\
    emitted (ir ctx') = emitted (ir ctx) ++ lineOps ++ [(last, opJump K)].
Proof.
  intros H. apply emitterCode_run in H.
  destruct H as (ctx1 & last & Hl & ->).
  destruct (grows_run _ (grows_emitterLines _ _) Hl)
    as [_ _ _ [lineOps E] _ _].
  exists ctx1, last, lineOps. split; [exact Hl |]. split; [exact E |].
  rewrite emitted_emit, E, <- app_assoc. reflexivity.
Qed.

(** X2.  An iter with an initializer, a condition and a well-formed body
    is lowered with a result, the continuation block, created first.  The
    initializer is lowered into the incoming block, as a declaration when
    it is one and as an expression otherwise; the condition is tested from
    the block the initializer leaves, to [body] or the continuation; in
    the context so reached, with [breakTo] the continuation and
    [continueTo] the block [iterate], the lines of the body are lowered,
    from [body], and the jump to [iterate] is appended to the block they
    leave; then, with the two targets put back, the step, which may be
    absent, is lowered into [iterate], and the condition is tested again
    from the block the step leaves.  The IR appended is these operations,
    in this order, with what the lines of the body have appended. *)
Theorem iter_lowering_shape block Node ctx init cond after code :
  ast_children Node = init :: cond :: after ->
  ast_l Node = Some code ->
  wellFormedCode code = true ->
  let continuation := S (blockCount (ir ctx)) in
  let body := S continuation in
  let iterate := S body in
  exists ctx' ctx1 block1 ctx2 last ctx3 lowered lineOps,
    let ctxb :=
      enterLoop continuation iterate
                (branched block1 (Some cond) body continuation ctx1) in
    emitterIter block Node ctx = (ctx', Some continuation) /\
    (if astTag_eqb (ast_tag init) astDecl
     then emitterDecl block init (newBlocks 3 ctx) = (ctx1, Some block1)
     else exists o, emitterValue block (Some init) requestVoid
                                 (newBlocks 3 ctx)
                    = (ctx1, Some (block1, o))) /\
    emitterLines body (ast_children code) ctxb = (ctx2, Some last) /\
    emitted (ir ctx2) = emitted (ir ctxb) ++ lineOps /\
    emitterValue iterate (hd_error after) requestVoid
                 (leaveLoop (breakTo ctx) (continueTo ctx)
                            (emit last (opJump iterate) ctx2))
    = (ctx3, Some lowered) /\
    ctx' = branched (fst lowered) (Some cond) body continuation ctx3 /\
    emitted (ir ctx')
    = emitted (ir ctx)
      ++ [(block, iterInit init);
          (block1, opBranchOnValue (Some cond) body continuation)]
      ++ lineOps ++ [(last, opJump iterate)]
      ++ [(iterate, opValue (hd_error after) requestVoid);
          (fst lowered, opBranchOnValue (Some cond) body continuation)].
Proof.
  intros Ech El W continuation body iterate.
  subst continuation body iterate.
  assert (T : total (emitterIter block Node)).
  { unfold emitterIter, emitterIter_of. rewrite Ech, El.
    change (emitterCode_of emitterLine) with emitterCode.
    pose proof total_emitterValue. pose proof total_emitterDecl.
    pose proof (fun b K => @total_emitterCode b code K W).
    unfold emitterBranchOnValue, irAppend, irBlockCreate,
      emitterSetBreakTo, emitterSetContinueTo, assignBreakTo,
      assignContinueTo, ret.
    total_tac. }
  destruct (T ctx) as (ctx' & K & Hrun).
  pose proof Hrun as Hrun'.
  apply emitterIter_run in Hrun'.
  destruct Hrun' as (init' & cond' & after' & code' & ctx1 & block1 & ctxj
                     & ctx3 & lowered & HK & Ech' & El' & Hinit & Hbody
                     & Hstep & E').
  cbv zeta in *.
  rewrite Ech in Ech'. inversion Ech'; subst init' cond' after'.
  rewrite El in El'. inversion El'; subst code'. subst K.
  apply emitterCode_run in Hbody. destruct Hbody as (ctx2 & last & Hl & ->).
  destruct (grows_run _ (grows_emitterLines _ _) Hl)
    as [_ _ _ [lineOps Eb] _ _].
  assert (I : emitted (ir ctx1)
              = emitted (ir ctx) ++ [(block, iterInit init)]).
  { unfold iterInit. destruct (astTag_eqb (ast_tag init) astDecl).
    - apply emitterDecl_run in Hinit. cbn in Hinit. tauto.
    - destruct Hinit as [o Hinit]. apply emitterValue_run in Hinit.
      cbn in Hinit. tauto. }
  exists ctx', ctx1, block1, ctx2, last, ctx3, lowered, lineOps.
  split; [exact Hrun |]. split; [exact Hinit |].
  split; [exact Hl |]. split; [exact Eb |].
  split; [exact Hstep |]. split; [exact E' |].
  apply emitterValue_run in Hstep. destruct Hstep as (S1 & _).
  rewrite E', emitted_branched, S1.
  cbn [leaveLoop set_continueTo set_breakTo ir].
  rewrite emitted_emit, Eb.
  cbn [enterLoop set_continueTo set_breakTo ir].
  rewrite emitted_branched, I. rewrite <- !app_assoc. reflexivity.
Qed.

(** ** The function lowerer, as a whole *)

Lemma sym_label_set_offset s o : sym_label (sym_set_offset s o) = sym_label s.
Proof. destruct s; reflexivity. Qed.

Lemma sym_label_set_children s c :
  sym_label (sym_set_children s c) = sym_label s.
Proof. destruct s; reflexivity. Qed.

Lemma sym_label_assigned a Scope offset :
  sym_label (fst (fst (emitterScopeAssignOffsets a Scope offset)))
  = sym_label Scope.
Proof.
  rewrite emitterScopeAssignOffsets_spec. cbn [fst].
  apply sym_label_set_children.
Qed.

Lemma fnSymbolAfter_label a symbol :
  sym_label (fnSymbolAfter a symbol)
  = match sym_label symbol with
    | Some l => Some l
    | None => sym_label (symbolMangler a symbol)
    end.
Proof.
  unfold fnSymbolAfter, fnAssignParams.
  rewrite sym_label_assigned.
  destruct (fnParamOffsets a (sym_children (fnLabelled a symbol))
                           (fnFirstParamOffset a (fnLabelled a symbol)))
    as [[children final] reported].
  cbn [fst]. rewrite sym_label_set_children.
  unfold fnLabelled. destruct (sym_label symbol) eqn:E; [exact E |].
  reflexivity.
Qed.

Lemma total_reportSymbols l : total (reportSymbols l).
Proof.
  intros ctx. rewrite reportSymbols_run. eexists. eexists. reflexivity.
Qed.

Lemma total_emitterFnImpl Node :
  fnWellFormed Node = true -> total (emitterFnImpl Node).
Proof.
  unfold fnWellFormed. intros W.
  destruct (ast_symbol Node) as [symbol|] eqn:Es; [| discriminate W].
  destruct (ast_r Node) as [body|] eqn:Er; [| discriminate W].
  intros ctx. unfold emitterFnImpl. rewrite Es, Er.
  repeat (erewrite bind_ok_intro; [| reflexivity]).
  destruct (fnAssignParams _ symbol) as [symbol1 reported1].
  erewrite bind_ok_intro; [| apply reportSymbols_run].
  destruct (emitterScopeAssignOffsets _ symbol1 0)
    as [[symbol2 offset] reported2].
  erewrite bind_ok_intro; [| apply reportSymbols_run].
  repeat (erewrite bind_ok_intro; [| reflexivity]).
  match goal with
  | |- context [bind (emitterCode ?b body ?K) _ ?c] =>
      destruct (@total_emitterCode b body K W c) as (c1 & [] & Hc)
  end.
  erewrite bind_ok_intro; [| exact Hc].
  eexists. eexists. reflexivity.
Qed.

Lemma defined_emitterFnImpl Node ctx ctx' :
  emitterFnImpl Node ctx = (ctx', Some tt) -> fnWellFormed Node = true.
Proof.
  intros H. apply emitterFnImpl_run in H.
  destruct H as (symbol & body & ctxb & ctx1 & Es & Er & Hbody & _).
  cbv zeta in *. unfold fnWellFormed. rewrite Es, Er.
  eapply (proj2 (defined_statements body)); exact Hbody.
Qed.

(** X3.  A function whose symbol and body are there, the body well
    formed, is lowered with a result.  What it appends to the IR is the
    prologue, in a block created for it, with the label of the function
    and the stack size; the lines of the body, from that block; the jump
    to the epilogue block, from the block the last line leaves; and the
    epilogue, in the epilogue block, created second.  The label is the
    one the symbol has; [symbolMangler] is asked for one only when the
    symbol has none. *)
Theorem fn_impl_lowering_shape Node ctx symbol body :
  ast_symbol Node = Some symbol ->
  ast_r Node = Some body ->
  wellFormedCode body = true ->
  let block := S (blockCount (ir ctx)) in
  let epilogue := S block in
  let label :=
    match sym_label symbol with
    | Some l => Some l
    | None => sym_label (symbolMangler (arch ctx) symbol)
    end in
  exists ctx' ctxb ctx1 lineOps last,
    emitterFnImpl Node ctx = (ctx', Some tt) /\
    emitterLines block (ast_children body) ctxb = (ctx1, Some last) /\
    emitted (ir ctx1) = emitted (ir ctxb) ++ lineOps /\
    emitted (ir ctx')
    = emitted (ir ctx)
      ++ [(block, opFnPrologue label (fnStackSize (arch ctx) symbol))]
      ++ lineOps
      ++ [(last, opJump epilogue); (epilogue, opFnEpilogue)].
Proof.
  intros Es Er W block epilogue label. subst block epilogue label.
  assert (F : fnWellFormed Node = true)
    by (unfold fnWellFormed; rewrite Es, Er; exact W).
  destruct (@total_emitterFnImpl Node F ctx) as (ctx' & [] & Hrun).
  pose proof Hrun as H. apply emitterFnImpl_run in H.
  destruct H as (symbol' & body' & ctxb & ctx1 & Es' & Er' & Hbody & ->
                 & _ & _ & _ & _ & _ & Eb).
  cbv zeta in *.
  rewrite Es in Es'. inversion Es'; subst symbol'.
  rewrite Er in Er'. inversion Er'; subst body'.
  destruct (emitterCode_emitted _ _ _ _ Hbody)
    as (c1 & last & lineOps & Hl & El & E1).
  exists (logged dbgLeave
            (emit (S (S (blockCount (ir ctx)))) opFnEpilogue ctx1)),
         ctxb, c1, lineOps, last.
  split; [exact Hrun |]. split; [exact Hl |]. split; [exact El |].
  cbn. rewrite E1, Eb, fnSymbolAfter_label.
  rewrite <- !app_assoc. reflexivity.
Qed.

(** ** When a module can be lowered *)

Lemma moduleChildWellFormed_eq Current :
  moduleChildWellFormed Current
  = match Current with
    | mkAst tag _ _ r symbol _ =>
        if astTag_eqb tag astUsing then
          match r with
          | Some m => moduleWellFormed m
          | None => true
          end
        else if astTag_eqb tag astFnImpl then
          match symbol, r with
          | Some _, Some body => wellFormedCode body
          | _, _ => false
          end
        else true
    end.
Proof. destruct Current; reflexivity. Qed.

Lemma moduleWellFormed_eq Node :
  moduleWellFormed Node = forallb moduleChildWellFormed (ast_children Node).
Proof.
  destruct Node as [tag children l r symbol dt].
  cbn [moduleWellFormed ast_children].
  induction children as [| c rest IH]; [reflexivity |].
  cbn [forallb]. rewrite IH, moduleChildWellFormed_eq. reflexivity.
Qed.

Lemma snd_bind_unit (m f : M unit) ctx :
  snd ((m ;; f) ctx) = Some tt
  <-> snd (m ctx) = Some tt /\ snd (f (fst (m ctx))) = Some tt.
Proof.
  rewrite bind_run. destruct (m ctx) as [c [[]|]]; cbn.
  - tauto.
  - split; [discriminate | intros [H _]; discriminate H].
Qed.

Lemma emitterModuleChildren_cons Current rest :
  emitterModuleChildren (Current :: rest)
  = (emitterModuleChild Current ;; emitterModuleChildren rest).
Proof. reflexivity. Qed.

Lemma defined_moduleChildren cs :
  Forall (fun n => forall ctx,
              snd (emitterModuleChild n ctx) = Some tt
              <-> moduleChildWellFormed n = true) cs ->
  forall ctx,
    snd (emitterModuleChildren cs ctx) = Some tt
    <-> forallb moduleChildWellFormed cs = true.
Proof.
  induction 1 as [| c rest Hc _ IH]; intros ctx.
  - cbn. tauto.
  - rewrite emitterModuleChildren_cons, snd_bind_unit.
    cbn [forallb]. rewrite andb_true_iff, Hc, IH. tauto.
Qed.

Lemma defined_module :
  forall n : ast,
    (forall ctx,
        snd (emitterModule n ctx) = Some tt <-> moduleWellFormed n = true) /\
    (forall ctx,
        snd (emitterModuleChild n ctx) = Some tt
        <-> moduleChildWellFormed n = true).
Proof.
  apply ast_nested_ind.
  intros tag children l r symbol dt Hc _ Hr. split.
  - intros ctx. rewrite emitterModule_eq, moduleWellFormed_eq.
    cbn [ast_children].
    rewrite snd_bind_unit, snd_bind_unit.
    rewrite defined_moduleChildren.
    + cbn. tauto.
    + eapply Forall_impl; [| exact Hc]. intros a [_ H]. exact H.
  - intros ctx.
    unfold emitterModuleChild, emitterModuleChild_of, moduleChildWellFormed.
    cbn [ast_tag ast_r].
    destruct (astTag_eqb tag astUsing).
    { destruct r as [m|].
      - apply (Hr m eq_refl).
      - cbn. tauto. }
    destruct (astTag_eqb tag astFnImpl).
    { split.
      - intros H.
        destruct (emitterFnImpl (mkAst tag children l r symbol dt) ctx)
          as [c' res] eqn:E.
        cbn in H. subst res. eapply defined_emitterFnImpl; exact E.
      - intros W. destruct (@total_emitterFnImpl _ W ctx) as (c' & [] & E).
        rewrite E. reflexivity. }
    destruct (astTag_eqb tag astDecl); [cbn; tauto |].
    destruct (astTag_eqb tag astEmpty); cbn; tauto.
Qed.

(** X4.  The module lowerer, and with it [emitter], has a result exactly
    when every function it reaches, in the module itself and in the
    modules its [using] children point at, has its symbol and its body,
    the body well formed.  Declarations, empty children, [using] children
    that point at no module and children of a tag it does not handle
    never stop it. *)
Theorem module_defined_iff_well_formed Tree :
  (forall ctx,
      snd (emitterModule Tree ctx) = Some tt
      <-> moduleWellFormed Tree = true) /\
  (forall out a,
      snd (emitter Tree out a) = Some tt <-> moduleWellFormed Tree = true) /\
  (forall Node ctx,
      snd (emitterFnImpl Node ctx) = Some tt <-> fnWellFormed Node = true).
Proof.
  split; [| split].
  - apply defined_module.
  - intros out a. apply defined_module.
  - intros Node ctx. split.
    + intros H. destruct (emitterFnImpl Node ctx) as [c' res] eqn:E.
      cbn in H. subst res. eapply defined_emitterFnImpl; exact E.
    + intros W. destruct (@total_emitterFnImpl Node W ctx) as (c' & [] & E).
      rewrite E. reflexivity.
Qed.

(** ** Functions in the IR of a module *)

(** *** Statements add neither prologue nor epilogue *)

Lemma appendsBody_refl c : appendsBody c c.
Proof. exists []. split; [symmetry; apply app_nil_r | reflexivity]. Qed.

Lemma noFnBracket_app l1 l2 :
  noFnBracket (l1 ++ l2) = noFnBracket l1 && noFnBracket l2.
Proof. apply forallb_app. Qed.

Lemma appendsBody_trans a b c :
  appendsBody a b -> appendsBody b c -> appendsBody a c.
Proof.
  intros (n1 & E1 & B1) (n2 & E2 & B2). exists (n1 ++ n2). split.
  - rewrite E2, E1. symmetry. apply app_assoc.
  - rewrite noFnBracket_app, B1, B2. reflexivity.
Qed.

Lemma body_bind {A B : Type} (m : M A) (f : A -> M B) :
  preserves appendsBody m -> (forall a, preserves appendsBody (f a)) ->
  preserves appendsBody (bind m f).
Proof. apply (preserves_bind appendsBody_trans). Qed.

Ltac body_prim :=
  intros ctx; unfold regAllocM, regRequestM; cbn;
  repeat match goal with
         | |- context [let (_, _) := ?x in _] => destruct x
         end;
  cbn;
  first [ exists []; split; [symmetry; apply app_nil_r | reflexivity]
        | eexists; split; reflexivity ].

Lemma body_debugLog e : preserves appendsBody (debugLog e).
Proof. body_prim. Qed.
Lemma body_irJump block target : preserves appendsBody (irJump block target).
Proof. body_prim. Qed.
Lemma body_irBlockCreate : preserves appendsBody irBlockCreate.
Proof. body_prim. Qed.
Lemma body_irBlocksCreated k : preserves appendsBody (irBlocksCreated k).
Proof. body_prim. Qed.
Lemma body_setRegs r : preserves appendsBody (setRegs r).
Proof. body_prim. Qed.
Lemma body_asmEmit op : preserves appendsBody (asmEmit op).
Proof. body_prim. Qed.
Lemma body_emitterSetBreakTo b : preserves appendsBody (emitterSetBreakTo b).
Proof. body_prim. Qed.
Lemma body_emitterSetContinueTo b :
  preserves appendsBody (emitterSetContinueTo b).
Proof. body_prim. Qed.
Lemma body_assignBreakTo b : preserves appendsBody (assignBreakTo b).
Proof. body_prim. Qed.
Lemma body_assignContinueTo b : preserves appendsBody (assignContinueTo b).
Proof. body_prim. Qed.
Lemma body_regAllocM size : preserves appendsBody (regAllocM size).
Proof. body_prim. Qed.
Lemma body_regRequestM r size : preserves appendsBody (regRequestM r size).
Proof. body_prim. Qed.
Lemma body_regFreeM r : preserves appendsBody (regFreeM r).
Proof. body_prim. Qed.
Lemma body_operandFreeM o : preserves appendsBody (operandFreeM o).
Proof. body_prim. Qed.
Lemma body_opValue block Node request :
  preserves appendsBody (irAppend block (opValue Node request)).
Proof. body_prim. Qed.
Lemma body_opDecl block Node :
  preserves appendsBody (irAppend block (opDecl Node)).
Proof. body_prim. Qed.
Lemma body_opBranchOnValue block cond t f :
  preserves appendsBody (irAppend block (opBranchOnValue cond t f)).
Proof. body_prim. Qed.

Ltac body_tac :=
  repeat first
    [ apply body_debugLog | apply body_irJump | apply body_irBlockCreate
    | apply body_irBlocksCreated | apply body_setRegs | apply body_asmEmit
    | apply body_emitterSetBreakTo | apply body_emitterSetContinueTo
    | apply body_assignBreakTo | apply body_assignContinueTo
    | apply body_regAllocM | apply body_regRequestM | apply body_regFreeM
    | apply body_operandFreeM | apply body_opValue | apply body_opDecl
    | apply body_opBranchOnValue
    | assumption
    | match goal with
      | H : forall _, _ |- _ => solve [eapply H; eauto]
      | |- preserves _ (bind _ _) => apply body_bind; [| intros ?]
      | |- preserves _ (ret _) =>
          apply (preserves_ret appendsBody appendsBody_refl)
      | |- preserves _ undefined =>
          apply (preserves_undefined appendsBody appendsBody_refl)
      | |- preserves _ (get _) =>
          apply (preserves_get appendsBody appendsBody_refl)
      | |- preserves _ (deref _) =>
          apply (preserves_deref appendsBody appendsBody_refl)
      | |- preserves _ (match ?x with _ => _ end) => destruct x eqn:?
      end ].

Lemma body_emitterLines_of block cs :
  Forall (fun n => forall b, preserves appendsBody (emitterLine b n)) cs ->
  preserves appendsBody (emitterLines block cs).
Proof.
  intros H. revert block. induction H as [| c rest Hc _ IH]; intros block.
  - apply (preserves_ret appendsBody appendsBody_refl).
  - rewrite emitterLines_cons. apply body_bind; [apply Hc | exact IH].
Qed.

Lemma body_statements :
  forall n : ast,
    (forall block, preserves appendsBody (emitterLine block n)) /\
    (forall block k, preserves appendsBody (emitterCode block n k)).
Proof.
  apply emitter_ind.
  - intros n H block k. rewrite emitterCode_eq.
    apply body_bind; [apply body_emitterLines_of; exact H | intros b].
    apply body_irJump.
  - intros n C L R block. rewrite emitterLine_eq.
    unfold emitterLineDispatch, emitterLineDispatch_of, emitterBranch_of,
      emitterLoop_of, emitterIter_of, emitterReturn, emitterReturnValue,
      returnThroughTemp, emitterValue, emitterValueAsm, emitterDecl,
      emitterBranchOnValue, debugEnter, debugLeave,
      debugErrorUnhandled, debugError.
    change (emitterCode_of emitterLine) with emitterCode.
    body_tac.
Qed.

(** *** A module adds whole functions, in order *)

Lemma fnBracketed_body inFn ops rest :
  noFnBracket ops = true ->
  inFn = true ->
  fnBracketed inFn (ops ++ rest) = fnBracketed inFn rest.
Proof.
  intros N ->. induction ops as [| [b op] ops IH]; [reflexivity |].
  cbn in N. apply andb_true_iff in N. destruct N as [N1 N2].
  cbn [app fnBracketed].
  destruct op; try discriminate N1; cbn [andb]; apply IH; exact N2.
Qed.

Lemma fnBracketed_app inFn l1 l2 :
  fnBracketed inFn l1 = true ->
  fnBracketed inFn (l1 ++ l2) = fnBracketed false l2.
Proof.
  revert inFn. induction l1 as [| [b op] l1 IH]; intros inFn H.
  - cbn in H. destruct inFn; [discriminate H | reflexivity].
  - cbn [app fnBracketed] in *.
    destruct op; destruct inFn; cbn [negb andb] in *;
      try discriminate H; apply IH; exact H.
Qed.

Lemma prologues_app l1 l2 :
  prologues (l1 ++ l2) = prologues l1 ++ prologues l2.
Proof. apply flat_map_app. Qed.

Lemma prologues_body ops : noFnBracket ops = true -> prologues ops = [].
Proof.
  induction ops as [| [b op] ops IH]; [reflexivity |].
  cbn. intros N. apply andb_true_iff in N. destruct N as [N1 N2].
  destruct op; try discriminate N1; cbn; apply IH; exact N2.
Qed.

Lemma fnSymbols_app l1 l2 : fnSymbols (l1 ++ l2) = fnSymbols l1 ++ fnSymbols l2.
Proof. apply flat_map_app. Qed.

Lemma moduleFunctions_eq Node :
  moduleFunctions Node = flat_map moduleChildFunctions (ast_children Node).
Proof.
  destruct Node as [tag children l r symbol dt].
  cbn [moduleFunctions ast_children].
  induction children as [| c rest IH]; [reflexivity |].
  cbn [flat_map]. rewrite IH. destruct c; reflexivity.
Qed.

(** What lowering the functions [fns] does to the IR and to the symbols
    stored. *)
Let lowersFunctions (fns : list ast) (ctx ctx' : emitterCtx) : Prop :=
  arch ctx' = arch ctx /\
  symtab ctx'
  = symtab ctx ++ map (fnSymbolAfter (arch ctx)) (fnSymbols fns) /\
  List.length (fnSymbols fns) = List.length fns /\
  exists new,
    emitted (ir ctx') = emitted (ir ctx) ++ new /\
    fnBracketed false new = true /\
    prologues new
    = map (fun s => (sym_label (fnSymbolAfter (arch ctx) s),
                     fnStackSize (arch ctx) s))
          (fnSymbols fns).

Lemma lowersFunctions_none ctx ctx' :
  arch ctx' = arch ctx ->
  symtab ctx' = symtab ctx ->
  emitted (ir ctx') = emitted (ir ctx) ->
  lowersFunctions [] ctx ctx'.
Proof.
  intros Ea Es Ee. split; [exact Ea |]. split.
  - rewrite Es. cbn. symmetry. apply app_nil_r.
  - split; [reflexivity |]. exists [].
    rewrite Ee, app_nil_r. repeat split; reflexivity.
Qed.

Lemma lowersFunctions_app f1 f2 a b c :
  lowersFunctions f1 a b -> lowersFunctions f2 b c ->
  lowersFunctions (f1 ++ f2) a c.
Proof.
  intros (A1 & S1 & L1 & n1 & E1 & B1 & P1) (A2 & S2 & L2 & n2 & E2 & B2 & P2).
  rewrite A1 in *. split; [exact A2 |]. split; [| split].
  - rewrite S2, S1, fnSymbols_app, map_app. symmetry. apply app_assoc.
  - rewrite fnSymbols_app, !length_app, L1, L2. reflexivity.
  - exists (n1 ++ n2). split; [| split].
    + rewrite E2, E1. symmetry. apply app_assoc.
    + rewrite (@fnBracketed_app _ _ n2 B1). exact B2.
    + rewrite prologues_app, P1, P2, fnSymbols_app, map_app. reflexivity.
Qed.

Lemma lowersFunctions_before fns a b c :
  lowersFunctions [] a b -> lowersFunctions fns b c ->
  lowersFunctions fns a c.
Proof. intros H1 H2. exact (lowersFunctions_app H1 H2). Qed.

Lemma lowersFunctions_after fns a b c :
  lowersFunctions fns a b -> lowersFunctions [] b c ->
  lowersFunctions fns a c.
Proof.
  intros H1 H2. rewrite <- (app_nil_r fns).
  exact (lowersFunctions_app H1 H2).
Qed.

Lemma lowersFunctions_fn Node ctx ctx' :
  emitterFnImpl Node ctx = (ctx', Some tt) ->
  lowersFunctions [Node] ctx ctx'.
Proof.
  intros H. apply emitterFnImpl_run in H.
  destruct H as (symbol & body & ctxb & ctx1 & Es & _ & Hbody & -> & _ & _
                 & _ & Ea & Est & Eb).
  cbv zeta in *.
  pose proof (grows_run _ (grows_emitterCode _ _ _) Hbody) as G.
  pose proof (proj2 (body_statements body) (S (blockCount (ir ctx)))
                    (S (S (blockCount (ir ctx)))) ctxb) as B.
  rewrite Hbody in B. cbn [fst] in B. destruct B as (ops & Eo & No).
  unfold lowersFunctions, fnSymbols. cbn [flat_map]. rewrite Es.
  cbn [app map List.length].
  split; [cbn; rewrite (grows_arch G); exact Ea |].
  split; [cbn; rewrite (grows_symtab G); exact Est |].
  split; [reflexivity |].
  eexists. split; [| split].
  - cbn. rewrite Eo, Eb, <- !app_assoc. reflexivity.
  - cbn [app fnBracketed negb andb].
    rewrite (@fnBracketed_body true ops _ No eq_refl). reflexivity.
  - cbn [app prologues flat_map snd].
    change (flat_map _ (ops ++ ?l)) with (prologues (ops ++ l)).
    rewrite prologues_app, (@prologues_body ops No). reflexivity.
Qed.

Lemma lowersFunctions_children cs :
  Forall (fun n => forall ctx ctx',
              emitterModuleChild n ctx = (ctx', Some tt) ->
              lowersFunctions (moduleChildFunctions n) ctx ctx') cs ->
  forall ctx ctx',
    emitterModuleChildren cs ctx = (ctx', Some tt) ->
    lowersFunctions (flat_map moduleChildFunctions cs) ctx ctx'.
Proof.
  induction 1 as [| c rest Hc _ IH]; intros ctx ctx' Hrun.
  - inv_prim Hrun. apply lowersFunctions_none; reflexivity.
  - rewrite emitterModuleChildren_cons in Hrun. inv_bind Hrun. units.
    cbn [flat_map]. eapply lowersFunctions_app.
    + eapply Hc; exact Hrun0.
    + eapply IH; exact Hrun.
Qed.

Lemma lowersFunctions_module :
  forall n : ast,
    (forall ctx ctx',
        emitterModule n ctx = (ctx', Some tt) ->
        lowersFunctions (moduleFunctions n) ctx ctx') /\
    (forall ctx ctx',
        emitterModuleChild n ctx = (ctx', Some tt) ->
        lowersFunctions (moduleChildFunctions n) ctx ctx').
Proof.
  apply ast_nested_ind.
  intros tag children l r symbol dt Hc _ Hr. split.
  - intros ctx ctx' H. rewrite emitterModule_eq in H.
    inv_bind H. inv_prim Hrun. inv_bind H. inv_prim H. units.
    rewrite moduleFunctions_eq. cbn [ast_children] in *.
    eapply lowersFunctions_before;
      [| eapply lowersFunctions_after;
         [eapply lowersFunctions_children; [| exact Hrun] |]].
    + apply lowersFunctions_none; reflexivity.
    + eapply Forall_impl; [| exact Hc]. intros a [_ Ha]. exact Ha.
    + apply lowersFunctions_none; reflexivity.
  - intros ctx ctx'.
    unfold emitterModuleChild, emitterModuleChild_of, moduleChildFunctions.
    cbn [ast_tag ast_r].
    destruct (astTag_eqb tag astUsing).
    { destruct r as [m|].
      - apply (Hr m eq_refl).
      - intros H. inv_prim H. apply lowersFunctions_none; reflexivity. }
    destruct (astTag_eqb tag astFnImpl); [apply lowersFunctions_fn |].
    destruct (astTag_eqb tag astDecl).
    { intros H. unfold emitterDeclAsm, bind, get, asmEmit, setRegs in H.
      inv_prim H. apply lowersFunctions_none; reflexivity. }
    destruct (astTag_eqb tag astEmpty);
      intros H; inv_prim H; apply lowersFunctions_none; reflexivity.
Qed.

(** X5.  No statement adds a prologue or an epilogue to the IR, whether
    or not it can be lowered.  What a module adds is a sequence of whole
    functions: each a prologue, operations of its body, and its epilogue,
    one function closed before the next is opened and nothing between
    them; declarations and the other children of a module add nothing.
    The IR that [emitter] hands to [irEmit] is such a sequence. *)
Theorem module_ir_is_whole_functions :
  (forall block Node ctx,
      appendsBody ctx (fst (emitterLine block Node ctx))) /\
  (forall Node ctx ctx',
      emitterModule Node ctx = (ctx', Some tt) ->
      appendsFunctions ctx ctx') /\
  (forall Tree out a ctx',
      emitter Tree out a = (ctx', Some tt) ->
      fnBracketed false (emitted (ir ctx')) = true).
Proof.
  split; [| split].
  - intros block Node ctx. apply body_statements.
  - intros Node ctx ctx' H.
    destruct (proj1 (lowersFunctions_module Node) _ _ H)
      as (_ & _ & _ & new & E & B & _).
    exists new. split; assumption.
  - intros Tree out a ctx' H. unfold emitter in H.
    destruct (proj1 (lowersFunctions_module Tree) _ _ H)
      as (_ & _ & _ & new & E & B & _).
    rewrite E. exact B.
Qed.

(** X6.  When [emitter] has a result, the IR holds one prologue for each
    function node the module lowerer reaches, those of a used module at
    the place of the [using], in the order of the tree; each carries the
    label of its function and, as the stack size, the size of its locals.
    The function symbols are stored in the same order, with the offsets
    assigned. *)
Theorem module_functions_in_order Tree out a ctx' :
  emitter Tree out a = (ctx', Some tt) ->
  let symbols := fnSymbols (moduleFunctions Tree) in
  List.length symbols = List.length (moduleFunctions Tree) /\
  prologues (emitted (ir ctx'))
  = map (fun s => (sym_label (fnSymbolAfter a s), fnStackSize a s)) symbols /\
  symtab ctx' = map (fnSymbolAfter a) symbols.
Proof.
  intros H symbols. unfold emitter in H.
  destruct (proj1 (lowersFunctions_module Tree) _ _ H)
    as (_ & S & L & new & E & _ & P).
  split; [exact L |]. split.
  - rewrite E. exact P.
  - exact S.
Qed.

(** ** The debug sink *)

Lemma debugDepth_app d l1 l2 :
  debugDepth d (l1 ++ l2)
  = match debugDepth d l1 with
    | Some d' => debugDepth d' l2
    | None => None
    end.
Proof.
  revert d. induction l1 as [| e l1 IH]; intros d; [reflexivity |].
  cbn [app debugDepth]. destruct e; try apply IH.
  destruct d; [reflexivity | apply IH].
Qed.

Lemma debugDepth_reports d l rest :
  debugDepth d (map dbgReportSymbol l ++ rest) = debugDepth d rest.
Proof. induction l as [| s l IH]; [reflexivity | exact IH]. Qed.

Lemma debugBalanced_refl c : debugBalanced c c.
Proof.
  exists []. split; [symmetry; apply app_nil_r | reflexivity].
Qed.

Lemma debugBalanced_trans a b c :
  debugBalanced a b -> debugBalanced b c -> debugBalanced a c.
Proof.
  intros (n1 & E1 & B1) (n2 & E2 & B2). exists (n1 ++ n2). split.
  - rewrite E2, E1. symmetry. apply app_assoc.
  - intros d. rewrite debugDepth_app, B1. apply B2.
Qed.

Lemma debugBalanced_same a b : debug b = debug a -> debugBalanced a b.
Proof.
  intros E. exists []. split; [rewrite app_nil_r; exact E | reflexivity].
Qed.

(** What lies between a [debugEnter] and the [debugLeave] that closes
    it. *)
Lemma debugBalanced_wrap s ctx c1 :
  debugBalanced (logged (dbgEnter s) ctx) c1 ->
  debugBalanced ctx (logged dbgLeave c1).
Proof.
  intros (new & E & B). cbn in E.
  exists (dbgEnter s :: new ++ [dbgLeave]). split.
  - cbn. rewrite E, <- !app_assoc. reflexivity.
  - intros d. cbn [debugDepth]. rewrite debugDepth_app, B. reflexivity.
Qed.

Lemma bal_bind {A B : Type} (m : M A) (f : A -> M B) :
  preserves_ok debugBalanced m ->
  (forall a, preserves_ok debugBalanced (f a)) ->
  preserves_ok debugBalanced (bind m f).
Proof. apply (preserves_ok_bind debugBalanced_trans). Qed.

Ltac bal_prim :=
  intros ctx ctx' res H; unfold regAllocM, regRequestM in H; cbn in H;
  repeat match type of H with
         | context [let (_, _) := ?x in _] => destruct x
         end;
  inversion H; subst; clear H;
  first [ apply debugBalanced_same; reflexivity
        | eexists; split; [reflexivity | intros depth; reflexivity] ].

Lemma bal_irAppend block op : preserves_ok debugBalanced (irAppend block op).
Proof. bal_prim. Qed.
Lemma bal_irBlockCreate : preserves_ok debugBalanced irBlockCreate.
Proof. bal_prim. Qed.
Lemma bal_irBlocksCreated k : preserves_ok debugBalanced (irBlocksCreated k).
Proof. bal_prim. Qed.
Lemma bal_setRegs r : preserves_ok debugBalanced (setRegs r).
Proof. bal_prim. Qed.
Lemma bal_asmEmit op : preserves_ok debugBalanced (asmEmit op).
Proof. bal_prim. Qed.
Lemma bal_emitterSetBreakTo b :
  preserves_ok debugBalanced (emitterSetBreakTo b).
Proof. bal_prim. Qed.
Lemma bal_emitterSetContinueTo b :
  preserves_ok debugBalanced (emitterSetContinueTo b).
Proof. bal_prim. Qed.
Lemma bal_assignBreakTo b : preserves_ok debugBalanced (assignBreakTo b).
Proof. bal_prim. Qed.
Lemma bal_assignContinueTo b :
  preserves_ok debugBalanced (assignContinueTo b).
Proof. bal_prim. Qed.
Lemma bal_regAllocM size : preserves_ok debugBalanced (regAllocM size).
Proof. bal_prim. Qed.
Lemma bal_regRequestM r size :
  preserves_ok debugBalanced (regRequestM r size).
Proof. bal_prim. Qed.
Lemma bal_regFreeM r : preserves_ok debugBalanced (regFreeM r).
Proof. bal_prim. Qed.
Lemma bal_operandFreeM o : preserves_ok debugBalanced (operandFreeM o).
Proof. bal_prim. Qed.
Lemma bal_debugErrorUnhandled fn what which :
  preserves_ok debugBalanced (debugErrorUnhandled fn what which).
Proof. bal_prim. Qed.
Lemma bal_debugError fn msg : preserves_ok debugBalanced (debugError fn msg).
Proof. bal_prim. Qed.
Lemma bal_debugMsg msg : preserves_ok debugBalanced (debugMsg msg).
Proof. bal_prim. Qed.

Ltac bal_tac :=
  repeat first
    [ apply bal_irAppend | apply bal_irBlockCreate
    | apply bal_irBlocksCreated | apply bal_setRegs | apply bal_asmEmit
    | apply bal_emitterSetBreakTo | apply bal_emitterSetContinueTo
    | apply bal_assignBreakTo | apply bal_assignContinueTo
    | apply bal_regAllocM | apply bal_regRequestM | apply bal_regFreeM
    | apply bal_operandFreeM | apply bal_debugErrorUnhandled
    | apply bal_debugError | apply bal_debugMsg
    | assumption
    | match goal with
      | H : forall _, _ |- _ => solve [eapply H; eauto]
      | |- preserves_ok _ (bind _ _) => apply bal_bind; [| intros ?]
      | |- preserves_ok _ (ret _) =>
          apply (preserves_ok_ret debugBalanced debugBalanced_refl)
      | |- preserves_ok _ undefined =>
          apply (preserves_ok_undefined debugBalanced)
      | |- preserves_ok _ (get _) =>
          apply (preserves_ok_get debugBalanced debugBalanced_refl)
      | |- preserves_ok _ (deref _) =>
          apply (preserves_ok_deref debugBalanced debugBalanced_refl)
      | |- preserves_ok _ (match ?x with _ => _ end) => destruct x eqn:?
      end ].

Lemma bal_emitterLines_of block cs :
  Forall (fun n => forall b, preserves_ok debugBalanced (emitterLine b n))
         cs ->
  preserves_ok debugBalanced (emitterLines block cs).
Proof.
  intros H. revert block. induction H as [| c rest Hc _ IH]; intros block.
  - apply (preserves_ok_ret debugBalanced debugBalanced_refl).
  - rewrite emitterLines_cons. apply bal_bind; [apply Hc | exact IH].
Qed.

Lemma bal_statements :
  forall n : ast,
    (forall block, preserves_ok debugBalanced (emitterLine block n)) /\
    (forall block k, preserves_ok debugBalanced (emitterCode block n k)).
Proof.
  apply emitter_ind.
  - intros n H block k. rewrite emitterCode_eq.
    apply bal_bind; [apply bal_emitterLines_of; exact H | intros b].
    apply bal_irAppend.
  - intros n C L R block ctx ctx' k Hrun.
    apply emitterLine_run in Hrun. destruct Hrun as (ctx1 & Hd & ->).
    apply (@debugBalanced_wrap (astTagGetStr (ast_tag n)) ctx ctx1).
    assert (D : preserves_ok debugBalanced (emitterLineDispatch block n));
      [| eapply D; exact Hd].
    clear Hd.
    unfold emitterLineDispatch, emitterLineDispatch_of, emitterBranch_of,
      emitterLoop_of, emitterIter_of, emitterReturn, emitterReturnValue,
      returnThroughTemp, emitterValue, emitterValueAsm, emitterDecl,
      emitterBranchOnValue, irJump.
    change (emitterCode_of emitterLine) with emitterCode.
    bal_tac.
Qed.

(** The run of [emitterFnImpl], in terms of what is written to the debug
    sink. *)
Lemma emitterFnImpl_debug Node ctx ctx' :
  emitterFnImpl Node ctx = (ctx', Some tt) ->
  exists symbol body ctxb ctx1,
    let block := S (blockCount (ir ctx)) in
    let epilogue := S block in
    let params := fnAssignParams (arch ctx) symbol in
    ast_symbol Node = Some symbol /\
    ast_r Node = Some body /\
    emitterCode block body epilogue ctxb = (ctx1, Some tt) /\
    debug ctxb
    = debug ctx
      ++ dbgEnter "FnImpl"
         :: map dbgReportSymbol
              (snd params
               ++ snd (emitterScopeAssignOffsets (arch ctx) (fst params) 0)) /\
    debug ctx' = debug ctx1 ++ [dbgLeave] /\
    ctx' = logged dbgLeave (emit epilogue opFnEpilogue ctx1) /\
    blockCount (ir ctxb) = epilogue /\
    jumpTargets ctxb = [breakTo ctx; continueTo ctx; epilogue] /\
    exists label stacksize,
      emitted (ir ctxb)
      = emitted (ir ctx) ++ [(block, opFnPrologue label stacksize)].
Proof.
  intros H. unfold emitterFnImpl in H.
  inv_bind H. inv_prim Hrun.
  inv_bind H. apply deref_ok in Hrun. destruct Hrun as [Es ->].
  inv_bind H. inv_prim Hrun.
  destruct (fnAssignParams (arch ctx) a) as [symbol1 reported1] eqn:EP.
  inv_bind H. rewrite reportSymbols_run in Hrun. inv_prim Hrun.
  destruct (emitterScopeAssignOffsets (arch ctx) symbol1 0)
    as [[symbol2 offset] reported2] eqn:ES.
  inv_bind H. rewrite reportSymbols_run in Hrun. inv_prim Hrun.
  inv_bind H. inv_prim Hrun.
  inv_bind H. inv_prim Hrun.
  inv_bind H. inv_prim Hrun.
  inv_bind H. inv_prim Hrun.
  inv_bind H. inv_prim Hrun.
  inv_bind H. apply deref_ok in Hrun. destruct Hrun as [Er ->].
  inv_bind H. units.
  inv_bind H. inv_prim Hrun0. inv_prim H.
  eexists a, a0, _, c. cbv zeta.
  split; [exact Es |]. split; [exact Er |]. split; [exact Hrun |].
  rewrite EP. cbn [snd fst]. rewrite ES. cbn [snd].
  split; [cbn; rewrite map_app, <- !app_assoc; reflexivity |].
  split; [reflexivity |]. split; [reflexivity |].
  split; [reflexivity |]. split; [reflexivity |].
  eexists. eexists. reflexivity.
Qed.

Lemma bal_emitterFnImpl Node :
  preserves_ok debugBalanced (emitterFnImpl Node).
Proof.
  intros ctx ctx' [] H. apply emitterFnImpl_debug in H.
  destruct H as (symbol & body & ctxb & ctx1 & _ & _ & Hbody & Eb & E' & _).
  cbv zeta in *.
  destruct (proj2 (bal_statements body) _ _ _ _ _ Hbody) as (new & E1 & B1).
  eexists. split.
  - rewrite E', E1, Eb, <- !app_assoc. reflexivity.
  - intros d. cbn [app debugDepth].
    rewrite debugDepth_reports, debugDepth_app, B1. reflexivity.
Qed.

Lemma bal_emitterDeclAsm Node :
  preserves_ok debugBalanced (emitterDeclAsm Node).
Proof. unfold emitterDeclAsm. bal_tac. Qed.

Lemma bal_moduleChildren cs :
  Forall (fun n => preserves_ok debugBalanced (emitterModuleChild n)) cs ->
  preserves_ok debugBalanced (emitterModuleChildren cs).
Proof.
  induction 1 as [| c rest Hc _ IH].
  - apply (preserves_ok_ret debugBalanced debugBalanced_refl).
  - rewrite emitterModuleChildren_cons.
    apply bal_bind; [exact Hc | intros _; exact IH].
Qed.

Lemma bal_module :
  forall n : ast,
    preserves_ok debugBalanced (emitterModule n) /\
    preserves_ok debugBalanced (emitterModuleChild n).
Proof.
  apply ast_nested_ind.
  intros tag children l r symbol dt Hc _ Hr. split.
  - intros ctx ctx' [] H. rewrite emitterModule_eq in H.
    inv_bind H. inv_prim Hrun. inv_bind H. inv_prim H. units.
    apply (@debugBalanced_wrap "Module" ctx c).
    eapply bal_moduleChildren; [| exact Hrun]. cbn [ast_children].
    eapply Forall_impl; [| exact Hc]. intros a [_ Ha]. exact Ha.
  - unfold emitterModuleChild, emitterModuleChild_of. cbn [ast_tag ast_r].
    destruct (astTag_eqb tag astUsing).
    { destruct r as [m|].
      - apply (Hr m eq_refl).
      - apply (preserves_ok_ret debugBalanced debugBalanced_refl). }
    destruct (astTag_eqb tag astFnImpl); [apply bal_emitterFnImpl |].
    destruct (astTag_eqb tag astDecl); [apply bal_emitterDeclAsm |].
    destruct (astTag_eqb tag astEmpty);
      [apply bal_debugMsg | apply bal_debugErrorUnhandled].
Qed.

(** X7.  Every [debugEnter] of the emitter is closed by its
    [debugLeave]: when a statement, a function, a module or a whole tree
    has been lowered, the debug sink has only been appended to and is
    back at the nesting depth it was at, without a [debugLeave] that
    closes nothing.  A function writes [debugEnter], then reports its
    parameters and after them its locals, each with its offset, then
    lowers its body, and then writes [debugLeave]. *)
Theorem debug_sink_is_balanced :
  (forall block Node ctx ctx' k,
      emitterLine block Node ctx = (ctx', Some k) ->
      debugBalanced ctx ctx') /\
  (forall Node ctx ctx',
      emitterFnImpl Node ctx = (ctx', Some tt) ->
      debugBalanced ctx ctx' /\
      exists symbol rest,
        ast_symbol Node = Some symbol /\
        let params := fnAssignParams (arch ctx) symbol in
        debug ctx'
        = debug ctx
          ++ dbgEnter "FnImpl"
             :: map dbgReportSymbol
                  (snd params
                   ++ snd (emitterScopeAssignOffsets (arch ctx)
                                                     (fst params) 0))
          ++ rest ++ [dbgLeave]) /\
  (forall Node ctx ctx',
      emitterModule Node ctx = (ctx', Some tt) ->
      debugBalanced ctx ctx') /\
  (forall Tree out a ctx',
      emitter Tree out a = (ctx', Some tt) ->
      debugDepth 0 (debug ctx') = Some 0%nat).
Proof.
  split; [| split; [| split]].
  - intros block Node ctx ctx' k H.
    eapply (proj1 (bal_statements Node)); exact H.
  - intros Node ctx ctx' H. split.
    + eapply bal_emitterFnImpl; exact H.
    + apply emitterFnImpl_debug in H.
      destruct H
        as (symbol & body & ctxb & ctx1 & Es & _ & Hbody & Eb & E' & _).
      cbv zeta in *.
      destruct (grows_run _ (grows_emitterCode _ _ _) Hbody)
        as [_ _ _ _ [rest Er] _].
      exists symbol, rest. split; [exact Es |].
      rewrite E', Er, Eb, <- !app_assoc. reflexivity.
  - intros Node ctx ctx' H.
    eapply (proj1 (bal_module Node)); exact H.
  - intros Tree out a ctx' H. unfold emitter in H.
    destruct (proj1 (bal_module Tree) _ _ _ H) as (new & E & B).
    rewrite E. cbn. apply B.
Qed.

(** ** The locals in the frame *)

Lemma sym_tag_assigned a Scope offset :
  sym_tag (fst (fst (emitterScopeAssignOffsets a Scope offset)))
  = sym_tag Scope.
Proof.
  rewrite emitterScopeAssignOffsets_spec. cbn [fst].
  destruct Scope; reflexivity.
Qed.

Lemma sym_dt_assigned a Scope offset :
  sym_dt (fst (fst (emitterScopeAssignOffsets a Scope offset)))
  = sym_dt Scope.
Proof.
  rewrite emitterScopeAssignOffsets_spec. cbn [fst].
  destruct Scope; reflexivity.
Qed.

Lemma sym_offset_assigned a Scope offset :
  sym_offset (fst (fst (emitterScopeAssignOffsets a Scope offset)))
  = sym_offset Scope.
Proof.
  rewrite emitterScopeAssignOffsets_spec. cbn [fst].
  destruct Scope; reflexivity.
Qed.

Lemma scopeIds_eq Scope :
  scopeIds Scope = flat_map childIds (sym_children Scope).
Proof. destruct Scope; reflexivity. Qed.

Lemma emitterScopeAssignOffsets_eq a Scope offset :
  emitterScopeAssignOffsets a Scope offset
  = (sym_set_children Scope
       (fst (fst (scopeChildren (emitterScopeAssignOffsets a) a
                                (sym_children Scope) offset))),
     snd (fst (scopeChildren (emitterScopeAssignOffsets a) a
                             (sym_children Scope) offset)),
     snd (scopeChildren (emitterScopeAssignOffsets a) a
                        (sym_children Scope) offset)).
Proof.
  destruct Scope as [tag dt children label off].
  cbn [emitterScopeAssignOffsets sym_children sym_set_children].
  destruct (scopeChildren (emitterScopeAssignOffsets a) a children offset)
    as [[children' final] reported].
  reflexivity.
Qed.

(** One step of the loop over the children. *)
Lemma scopeChildren_cons a Symbol rest offset :
  scopeChildren (emitterScopeAssignOffsets a) a (Symbol :: rest) offset
  = let next :=
      scopeChildren (emitterScopeAssignOffsets a) a rest
                    (scopeStep a offset Symbol) in
    (scopeChildAfter a offset Symbol :: fst (fst next),
     snd (fst next),
     match sym_tag Symbol with
     | symScope => snd (emitterScopeAssignOffsets a Symbol offset)
     | symId => [scopeChildAfter a offset Symbol]
     | _ => []
     end ++ snd next).
Proof.
  cbn [scopeChildren]. unfold scopeStep, scopeChildAfter. cbv zeta.
  destruct (sym_tag Symbol).
  - destruct (emitterScopeAssignOffsets a Symbol offset)
      as [[Symbol' offset'] reported]. cbn [fst snd].
    destruct (scopeChildren (emitterScopeAssignOffsets a) a rest offset')
      as [[rest' final] reported']. reflexivity.
  - destruct (scopeChildren (emitterScopeAssignOffsets a) a rest
                            (CInt.sub offset (typeGetSize a (sym_dt Symbol))))
      as [[rest' final] reported']. reflexivity.
  - destruct (scopeChildren (emitterScopeAssignOffsets a) a rest offset)
      as [[rest' final] reported']. reflexivity.
  - destruct (scopeChildren (emitterScopeAssignOffsets a) a rest offset)
      as [[rest' final] reported']. reflexivity.
Qed.

Lemma sym_tag_childAfter a offset Symbol :
  sym_tag (scopeChildAfter a offset Symbol) = sym_tag Symbol.
Proof.
  unfold scopeChildAfter. destruct (sym_tag Symbol) eqn:E;
    try exact E.
  - rewrite sym_tag_assigned. exact E.
  - rewrite sym_tag_set. exact E.
Qed.

Lemma sym_dt_childAfter a offset Symbol :
  sym_dt (scopeChildAfter a offset Symbol) = sym_dt Symbol.
Proof.
  unfold scopeChildAfter. destruct (sym_tag Symbol); try reflexivity.
  - apply sym_dt_assigned.
  - apply sym_dt_set.
Qed.

(** The symbols reported are the identifiers of the scope as it is
    left. *)
Lemma reported_children a cs :
  Forall (fun c => forall x,
              snd (emitterScopeAssignOffsets a c x)
              = scopeIds (fst (fst (emitterScopeAssignOffsets a c x)))) cs ->
  forall x,
    snd (scopeChildren (emitterScopeAssignOffsets a) a cs x)
    = flat_map childIds
               (fst (fst (scopeChildren (emitterScopeAssignOffsets a) a cs x))).
Proof.
  induction 1 as [| c rest Hc _ IH]; intros x; [reflexivity |].
  rewrite scopeChildren_cons. cbv zeta. cbn [fst snd flat_map].
  rewrite IH. f_equal.
  unfold childIds. rewrite sym_tag_childAfter.
  unfold scopeChildAfter. destruct (sym_tag c); try reflexivity.
  apply Hc.
Qed.

Lemma reported_scope a :
  forall Scope x,
    snd (emitterScopeAssignOffsets a Scope x)
    = scopeIds (fst (fst (emitterScopeAssignOffsets a Scope x))).
Proof.
  apply (@sym_nested_ind
           (fun Scope => forall x,
                snd (emitterScopeAssignOffsets a Scope x)
                = scopeIds (fst (fst (emitterScopeAssignOffsets a Scope x))))).
  intros tag dt children label offset H x.
  rewrite emitterScopeAssignOffsets_eq. cbn [fst snd sym_children].
  rewrite scopeIds_eq. cbn [sym_set_children sym_children].
  apply reported_children. exact H.
Qed.

Lemma stackedBelow_app a top l1 mid l2 bottom :
  stackedBelow a top l1 mid -> stackedBelow a mid l2 bottom ->
  stackedBelow a top (l1 ++ l2) bottom.
Proof.
  revert top. induction l1 as [| s l1 IH]; intros top H1 H2.
  - cbn in H1. subst mid. exact H2.
  - cbn [app stackedBelow] in *. destruct H1 as [E H1].
    split; [exact E | apply IH; assumption].
Qed.

(** In a run without overflow the locals of a scope lie one below the
    other. *)
Let stacks (a : architecture) (Scope : sym) : Prop :=
  sizesNonNeg a Scope = true ->
  forall x,
    CInt.in_range x ->
    CInt.in_range (x - scopeSize a Scope) ->
    stackedBelow a x (snd (emitterScopeAssignOffsets a Scope x))
                 (x - scopeSize a Scope) /\
    Forall (fun s => 0 <= typeGetSize a (sym_dt s))
           (snd (emitterScopeAssignOffsets a Scope x)).

Lemma children_stack a cs :
  Forall (stacks a) cs ->
  forallb (childNonNeg a) cs = true ->
  forall x,
    CInt.in_range x ->
    CInt.in_range (x - childrenSize a cs) ->
    stackedBelow a x
      (snd (scopeChildren (emitterScopeAssignOffsets a) a cs x))
      (x - childrenSize a cs) /\
    Forall (fun s => 0 <= typeGetSize a (sym_dt s))
      (snd (scopeChildren (emitterScopeAssignOffsets a) a cs x)).
Proof.
  induction 1 as [| c rest Hc Hrest IH]; intros NN x Rx Rt.
  - cbn. split; [lia | constructor].
  - cbn [forallb] in NN. apply andb_true_iff in NN. destruct NN as [Nc Nr].
    assert (Srest : 0 <= childrenSize a rest).
    { apply (children_exact (a := a) (cs := rest)); [| exact Nr].
      apply Forall_forall. intros s _. apply scope_exact. }
    change (childrenSize a (c :: rest))
      with (childSize a c + childrenSize a rest) in *.
    rewrite scopeChildren_cons. cbv zeta. cbn [snd].
    unfold childSize, childNonNeg, scopeStep, scopeChildAfter in *.
    destruct (sym_tag c) eqn:Et.
    + destruct (scope_exact a c Nc) as [Sc Hx].
      assert (R1 : CInt.in_range (x - scopeSize a c))
        by (unfold CInt.in_range in *; lia).
      destruct (Hx x Rx R1) as [E1 _]. rewrite E1.
      destruct (Hc Nc x Rx R1) as [K1 F1].
      assert (R2 : CInt.in_range (x - scopeSize a c - childrenSize a rest))
        by (unfold CInt.in_range in *; lia).
      destruct (IH Nr _ R1 R2) as [K2 F2].
      split.
      * eapply stackedBelow_app; [exact K1 |].
        replace (x - (scopeSize a c + childrenSize a rest))
          with (x - scopeSize a c - childrenSize a rest) by lia.
        exact K2.
      * apply Forall_app. split; assumption.
    + apply Z.leb_le in Nc.
      assert (R1 : CInt.in_range (x - typeGetSize a (sym_dt c)))
        by (unfold CInt.in_range in *; lia).
      unfold CInt.sub. rewrite (wrap_in_range R1).
      assert (R2 : CInt.in_range
                     (x - typeGetSize a (sym_dt c) - childrenSize a rest))
        by (unfold CInt.in_range in *; lia).
      destruct (IH Nr _ R1 R2) as [K2 F2].
      cbn [app stackedBelow]. rewrite sym_offset_set, sym_dt_set.
      split;
        [split; [lia |]
        | constructor; [rewrite ?sym_dt_set; exact Nc | exact F2]].
      replace (x - (typeGetSize a (sym_dt c) + childrenSize a rest))
        with (x - typeGetSize a (sym_dt c) - childrenSize a rest) by lia.
      exact K2.
    + rewrite Z.add_0_l in *. cbn [app]. apply IH; assumption.
    + rewrite Z.add_0_l in *. cbn [app]. apply IH; assumption.
Qed.

Lemma scope_stacks a : forall Scope, stacks a Scope.
Proof.
  apply sym_nested_ind.
  intros tag dt children label offset H NN x Rx Rt.
  rewrite sizesNonNeg_eq in NN. rewrite scopeSize_eq in *.
  cbn [sym_children] in *.
  rewrite emitterScopeAssignOffsets_eq. cbn [snd sym_children].
  apply children_stack; assumption.
Qed.

(** Below a symbol of a stack lie all the symbols after it. *)
Lemma stackedBelow_le a top l bottom :
  stackedBelow a top l bottom ->
  Forall (fun s => 0 <= typeGetSize a (sym_dt s)) l ->
  bottom <= top /\
  Forall (fun s => sym_offset s + typeGetSize a (sym_dt s) <= top
                   /\ bottom <= sym_offset s) l.
Proof.
  revert top. induction l as [| s l IH]; intros top H F.
  - cbn in H. split; [lia | constructor].
  - cbn [stackedBelow] in H. destruct H as [E H].
    inversion F as [| ? ? Fs Fl]; subst.
    destruct (IH _ H Fl) as [Le A].
    split; [lia |]. constructor; [lia |].
    eapply Forall_impl; [| exact A]. cbn. intros t Ht. lia.
Qed.

Lemma stackedBelow_split a top pre s post bottom :
  stackedBelow a top (pre ++ s :: post) bottom ->
  stackedBelow a (sym_offset s) post bottom.
Proof.
  revert top. induction pre as [| p pre IH]; intros top H.
  - cbn in H. apply H.
  - cbn [app stackedBelow] in H. destruct H as [_ H]. eapply IH; exact H.
Qed.

(** X8.  [emitterScopeAssignOffsets] reports exactly the identifiers of
    the scope, those of nested scopes included, once each, in declaration
    order and with the offset it has written.  When no size is negative
    and nothing overflows, the locals lie one below the other from the
    starting offset down to the offset returned: each ends where the one
    before it begins, so that no two of them overlap and none lies
    outside. *)
Theorem locals_are_stacked a Scope offset :
  let result := emitterScopeAssignOffsets a Scope offset in
  snd result = scopeIds (fst (fst result)) /\
  (sizesNonNeg a Scope = true ->
   CInt.in_range offset ->
   CInt.in_range (offset - scopeSize a Scope) ->
   stackedBelow a offset (snd result) (snd (fst result)) /\
   (forall pre s mid t post,
       snd result = pre ++ s :: mid ++ t :: post ->
       sym_offset t + typeGetSize a (sym_dt t) <= sym_offset s) /\
   (forall s,
       In s (snd result) ->
       snd (fst result) <= sym_offset s /\
       sym_offset s + typeGetSize a (sym_dt s) <= offset)).
Proof.
  intros result. subst result. split; [apply reported_scope |].
  intros NN R1 R2.
  destruct (@scope_stacks a Scope NN offset R1 R2) as [K F].
  destruct (scope_exact a Scope NN) as [_ Hx].
  destruct (Hx offset R1 R2) as [E _]. rewrite E.
  split; [exact K |]. split.
  - intros pre s mid t post Eq. rewrite Eq in K, F.
    apply stackedBelow_split in K.
    apply Forall_app in F. destruct F as [_ F].
    inversion F as [| ? ? _ Fpost]; subst.
    destruct (@stackedBelow_le _ _ _ _ K Fpost) as [_ A].
    apply Forall_app in A. destruct A as [_ A].
    inversion A as [| ? ? At _]; subst. lia.
  - intros s Hin.
    destruct (@stackedBelow_le _ _ _ _ K F) as [_ A].
    rewrite Forall_forall in A. specialize (A s Hin). lia.
Qed.

(** ** What the two offset passes leave alone *)

Lemma eraseOffsets_set_offset s o :
  eraseOffsets (sym_set_offset s o) = eraseOffsets s.
Proof. destruct s; reflexivity. Qed.

Lemma eraseOffsets_set_children s c :
  eraseOffsets (sym_set_children s c)
  = sym_set_children (eraseOffsets s) (map eraseOffsets c).
Proof. destruct s; reflexivity. Qed.

Lemma eraseOffsets_children s :
  sym_set_children (eraseOffsets s) (map eraseOffsets (sym_children s))
  = eraseOffsets s.
Proof. destruct s; reflexivity. Qed.

Lemma erase_scopeChildren a cs :
  Forall (fun c => forall x,
              eraseOffsets (fst (fst (emitterScopeAssignOffsets a c x)))
              = eraseOffsets c) cs ->
  forall x,
    map eraseOffsets (scopeChildrenAfter a cs x) = map eraseOffsets cs.
Proof.
  induction 1 as [| c rest Hc _ IH]; intros x; [reflexivity |].
  cbn [scopeChildrenAfter map]. rewrite IH. f_equal.
  unfold scopeChildAfter. destruct (sym_tag c); try reflexivity.
  - apply Hc.
  - apply eraseOffsets_set_offset.
Qed.

Lemma erase_scope a :
  forall Scope x,
    eraseOffsets (fst (fst (emitterScopeAssignOffsets a Scope x)))
    = eraseOffsets Scope.
Proof.
  apply (@sym_nested_ind
           (fun Scope => forall x,
                eraseOffsets (fst (fst (emitterScopeAssignOffsets a Scope x)))
                = eraseOffsets Scope)).
  intros tag dt children label offset H x.
  rewrite emitterScopeAssignOffsets_spec. cbn [fst].
  rewrite eraseOffsets_set_children. cbn [sym_children].
  rewrite (@erase_scopeChildren a children H). reflexivity.
Qed.

Lemma erase_fnParamOffsets a cs o :
  map eraseOffsets (fst (fst (fnParamOffsets a cs o))) = map eraseOffsets cs.
Proof.
  revert o. induction cs as [| c rest IH]; intros o; [reflexivity |].
  cbn [fnParamOffsets]. destruct (sym_tag c); try reflexivity.
  specialize (IH (CInt.add o (typeGetSize a (sym_dt c)))).
  destruct (fnParamOffsets a rest (CInt.add o (typeGetSize a (sym_dt c))))
    as [[rest' final] reported].
  cbn [fst map] in *. rewrite IH, eraseOffsets_set_offset. reflexivity.
Qed.

Lemma fnSymbolAfter_eq a symbol :
  fnSymbolAfter a symbol
  = let s0 := fnLabelled a symbol in
    sym_set_children s0
      (scopeChildrenAfter a
         (fst (fst (fnParamOffsets a (sym_children s0)
                                   (fnFirstParamOffset a s0))))
         0).
Proof.
  unfold fnSymbolAfter, fnAssignParams. cbv zeta.
  destruct (fnParamOffsets a (sym_children (fnLabelled a symbol))
                           (fnFirstParamOffset a (fnLabelled a symbol)))
    as [[children final] reported].
  cbn [fst]. rewrite emitterScopeAssignOffsets_spec. cbn [fst].
  rewrite sym_children_set.
  destruct (fnLabelled a symbol); reflexivity.
Qed.

Lemma fnLabelled_labelled a symbol :
  sym_label symbol <> None -> fnLabelled a symbol = symbol.
Proof.
  unfold fnLabelled. destruct (sym_label symbol); [reflexivity |].
  intros H. contradiction H. reflexivity.
Qed.

(** X9.  The two offset passes write offsets and nothing else: the scope
    that [emitterScopeAssignOffsets] leaves, and the function symbol that
    [emitterFnImpl] stores, have the tags, types, labels and children they
    had, in the same order; the offset of the scope itself is not
    written.  For a function without a label this holds from the symbol
    that [symbolMangler] has returned. *)
Theorem offset_passes_write_offsets_only a :
  (forall Scope offset,
      let Scope' := fst (fst (emitterScopeAssignOffsets a Scope offset)) in
      eraseOffsets Scope' = eraseOffsets Scope /\
      sym_offset Scope' = sym_offset Scope) /\
  (forall symbol,
      eraseOffsets (fnSymbolAfter a symbol)
      = eraseOffsets (fnLabelled a symbol) /\
      sym_offset (fnSymbolAfter a symbol)
      = sym_offset (fnLabelled a symbol)) /\
  (forall symbol,
      sym_label symbol <> None ->
      eraseOffsets (fnSymbolAfter a symbol) = eraseOffsets symbol).
Proof.
  assert (F : forall symbol,
             eraseOffsets (fnSymbolAfter a symbol)
             = eraseOffsets (fnLabelled a symbol)).
  { intros symbol. rewrite fnSymbolAfter_eq. cbv zeta.
    rewrite eraseOffsets_set_children.
    rewrite erase_scopeChildren, erase_fnParamOffsets.
    - apply eraseOffsets_children.
    - apply Forall_forall. intros c _. apply erase_scope. }
  split; [| split].
  - intros Scope offset. split; [apply erase_scope |].
    apply sym_offset_assigned.
  - intros symbol. split; [apply F |].
    rewrite fnSymbolAfter_eq. cbv zeta.
    destruct (fnLabelled a symbol); reflexivity.
  - intros symbol L. rewrite F, (@fnLabelled_labelled a symbol L). reflexivity.
Qed.

(** ** A second pass over the same symbol *)

Lemma sym_set_offset_twice s o1 o2 :
  sym_set_offset (sym_set_offset s o1) o2 = sym_set_offset s o2.
Proof. destruct s; reflexivity. Qed.

Lemma sym_set_children_twice s c1 c2 :
  sym_set_children (sym_set_children s c1) c2 = sym_set_children s c2.
Proof. destruct s; reflexivity. Qed.

Lemma sym_dt_set_children s c : sym_dt (sym_set_children s c) = sym_dt s.
Proof. destruct s; reflexivity. Qed.

Lemma scopeStep_eq a offset Symbol :
  scopeStep a offset Symbol
  = match sym_tag Symbol with
    | symScope => fold_left (scopeStep a) (sym_children Symbol) offset
    | symId => CInt.sub offset (typeGetSize a (sym_dt Symbol))
    | _ => offset
    end.
Proof.
  unfold scopeStep at 1. destruct (sym_tag Symbol); try reflexivity.
  rewrite emitterScopeAssignOffsets_spec. reflexivity.
Qed.

(** What a pass has written does not influence the next pass. *)
Let again (a : architecture) (Scope : sym) : Prop :=
  forall x o,
    fst (emitterScopeAssignOffsets
           a (fst (fst (emitterScopeAssignOffsets a Scope x))) o)
    = fst (emitterScopeAssignOffsets a Scope o).

Lemma children_again a cs :
  Forall (again a) cs ->
  forall x o,
    scopeChildrenAfter a (scopeChildrenAfter a cs x) o
    = scopeChildrenAfter a cs o /\
    fold_left (scopeStep a) (scopeChildrenAfter a cs x) o
    = fold_left (scopeStep a) cs o.
Proof.
  induction 1 as [| c rest Hc _ IH]; intros x o; [split; reflexivity |].
  cbn [scopeChildrenAfter fold_left].
  assert (S1 : scopeStep a o (scopeChildAfter a x c) = scopeStep a o c).
  { unfold scopeStep. rewrite sym_tag_childAfter, sym_dt_childAfter.
    unfold scopeChildAfter. destruct (sym_tag c); try reflexivity.
    rewrite Hc. reflexivity. }
  assert (S2 : scopeChildAfter a o (scopeChildAfter a x c)
               = scopeChildAfter a o c).
  { unfold scopeChildAfter at 1. rewrite sym_tag_childAfter.
    rewrite sym_dt_childAfter.
    unfold scopeChildAfter. destruct (sym_tag c); try reflexivity.
    - rewrite Hc. reflexivity.
    - apply sym_set_offset_twice. }
  rewrite S1, S2.
  destruct (IH (scopeStep a x c) (scopeStep a o c)) as [E1 E2].
  rewrite E1, E2. split; reflexivity.
Qed.

Lemma scope_again a : forall Scope, again a Scope.
Proof.
  apply sym_nested_ind.
  intros tag dt children label offset H x o.
  rewrite !emitterScopeAssignOffsets_spec. cbn [fst sym_children].
  cbn [sym_set_children sym_children].
  destruct (@children_again a children H x o) as [E1 E2].
  rewrite E1, E2. reflexivity.
Qed.

Lemma fnParamOffsets_again a cs o1 o2 :
  fst (fst (fnParamOffsets a (fst (fst (fnParamOffsets a cs o1))) o2))
  = fst (fst (fnParamOffsets a cs o2)).
Proof.
  revert o1 o2. induction cs as [| c rest IH]; intros o1 o2; [reflexivity |].
  cbn [fnParamOffsets]. destruct (sym_tag c) eqn:Et;
    try (cbn [fst fnParamOffsets]; rewrite Et; reflexivity).
  specialize (IH (CInt.add o1 (typeGetSize a (sym_dt c)))
                 (CInt.add o2 (typeGetSize a (sym_dt c)))).
  destruct (fnParamOffsets a rest (CInt.add o1 (typeGetSize a (sym_dt c))))
    as [[rest1 final1] reported1].
  cbn [fst fnParamOffsets] in *. rewrite sym_tag_set, Et, sym_dt_set.
  destruct (fnParamOffsets a rest1 (CInt.add o2 (typeGetSize a (sym_dt c))))
    as [[rest2 final2] reported2].
  destruct (fnParamOffsets a rest (CInt.add o2 (typeGetSize a (sym_dt c))))
    as [[rest3 final3] reported3].
  cbn [fst] in *. rewrite IH, sym_set_offset_twice. reflexivity.
Qed.

(** The parameter pass and the scope pass write to different children. *)
Lemma fnParamOffsets_scope a cs x o :
  fst (fst (fnParamOffsets a (scopeChildrenAfter a cs x) o))
  = scopeChildrenAfter a (fst (fst (fnParamOffsets a cs o))) x.
Proof.
  revert x o. induction cs as [| c rest IH]; intros x o; [reflexivity |].
  cbn [scopeChildrenAfter fnParamOffsets].
  rewrite sym_tag_childAfter.
  destruct (sym_tag c) eqn:Et;
    try (cbn [fst scopeChildrenAfter]; reflexivity).
  rewrite sym_dt_childAfter.
  assert (Ec : scopeChildAfter a x c = c)
    by (unfold scopeChildAfter; rewrite Et; reflexivity).
  assert (Es : scopeStep a x c = x)
    by (unfold scopeStep; rewrite Et; reflexivity).
  rewrite Ec, Es.
  specialize (IH x (CInt.add o (typeGetSize a (sym_dt c)))).
  destruct (fnParamOffsets a (scopeChildrenAfter a rest x)
                           (CInt.add o (typeGetSize a (sym_dt c))))
    as [[rest1 final1] reported1].
  destruct (fnParamOffsets a rest (CInt.add o (typeGetSize a (sym_dt c))))
    as [[rest2 final2] reported2].
  cbn [fst scopeChildrenAfter] in *.
  unfold scopeChildAfter at 1. unfold scopeStep at 1.
  rewrite sym_tag_set, Et, IH. reflexivity.
Qed.

(** X10.  Lowering is insensitive to offsets written before: a second
    pass of [emitterScopeAssignOffsets] over a scope it has left, from
    any offset, gives what a first pass from that offset gives, and
    lowering a function again leaves the symbol that [emitterFnImpl] has
    stored as it is, provided the symbol has a label or [symbolMangler]
    has given it one. *)
Theorem offset_passes_are_idempotent a :
  (forall Scope x o,
      fst (emitterScopeAssignOffsets
             a (fst (fst (emitterScopeAssignOffsets a Scope x))) o)
      = fst (emitterScopeAssignOffsets a Scope o)) /\
  (forall symbol,
      sym_label (fnLabelled a symbol) <> None ->
      fnSymbolAfter a (fnSymbolAfter a symbol) = fnSymbolAfter a symbol).
Proof.
  split; [intros Scope; apply scope_again |].
  intros symbol L.
  assert (L' : sym_label (fnSymbolAfter a symbol) <> None).
  { rewrite fnSymbolAfter_eq. cbv zeta.
    rewrite sym_label_set_children. exact L. }
  rewrite (fnSymbolAfter_eq a (fnSymbolAfter a symbol)). cbv zeta.
  rewrite (@fnLabelled_labelled a _ L').
  rewrite fnSymbolAfter_eq. cbv zeta.
  generalize dependent (fnLabelled a symbol). intros s0 _.
  rewrite sym_children_set, sym_set_children_twice.
  unfold fnFirstParamOffset. rewrite !sym_dt_set_children.
  fold (fnFirstParamOffset a s0).
  rewrite fnParamOffsets_scope, fnParamOffsets_again.
  match goal with
  | |- context [scopeChildrenAfter a (scopeChildrenAfter a ?cs 0) 0] =>
      destruct (@children_again a cs
                  (proj2 (Forall_forall (again a) cs)
                         (fun c _ => scope_again a c))
                  0 0) as [E _]
  end.
  rewrite E. reflexivity.
Qed.

(** ** The frame of a function *)

Lemma sizeSum_nonneg a ps :
  Forall (fun p => 0 <= paramSize a p) ps -> 0 <= sizeSum a ps.
Proof.
  induction 1 as [| p ps Hp _ IH]; cbn; [lia |].
  change (fold_right (fun p acc => paramSize a p + acc) 0 ps)
    with (sizeSum a ps). lia.
Qed.

Lemma offsetsInOrder_from a ps o :
  Forall (fun p => 0 <= paramSize a p) ps ->
  CInt.in_range o ->
  CInt.in_range (o + sizeSum a ps) ->
  Forall (fun p => o <= sym_offset p) (offsetsInOrder a ps o).
Proof.
  intros H. revert o. induction H as [| p ps Hp Hps IH]; intros o R1 R2.
  - constructor.
  - cbn [offsetsInOrder].
    change (sizeSum a (p :: ps)) with (paramSize a p + sizeSum a ps) in R2.
    pose proof (@sizeSum_nonneg a ps Hps) as S0.
    assert (R3 : CInt.in_range (o + paramSize a p))
      by (unfold CInt.in_range in *; lia).
    constructor; [rewrite sym_offset_set; lia |].
    unfold CInt.add. rewrite (wrap_in_range R3).
    eapply Forall_impl; [| apply IH].
    + cbn. intros q Hq. lia.
    + exact R3.
    + replace (o + paramSize a p + sizeSum a ps)
        with (o + (paramSize a p + sizeSum a ps)) by lia.
      exact R2.
Qed.

(** X11.  In the frame that [emitterFnImpl] lays out, when the word size
    and the sizes are not negative and nothing overflows, every parameter
    lies at or above [2 * wordsize] and every local ends at or below 0 and
    begins at or above the negated stack size: neither reaches into the
    two words between them, the saved base pointer and the return
    address, and the locals fit into the stack space that the prologue is
    given. *)
Theorem frame_layout a symbol :
  let s0 := fnLabelled a symbol in
  let params := leadingParams (sym_children s0) in
  let extra :=
    if typeGetSize a (typeGetReturn (sym_dt s0)) >? wordsize a
    then wordsize a else 0 in
  let locals := fst (fnAssignParams a symbol) in
  0 <= wordsize a ->
  Forall (fun p => 0 <= paramSize a p) params ->
  CInt.in_range (2 * wordsize a + extra + sizeSum a params) ->
  sizesNonNeg a locals = true ->
  CInt.in_range (- scopeSize a locals) ->
  CInt.in_range (scopeSize a locals) ->
  (forall p,
      In p (snd (fnAssignParams a symbol)) ->
      2 * wordsize a <= sym_offset p) /\
  (forall s,
      In s (snd (emitterScopeAssignOffsets a locals 0)) ->
      sym_offset s + typeGetSize a (sym_dt s) <= 0 /\
      - fnStackSize a symbol <= sym_offset s) /\
  fnStackSize a symbol = scopeSize a locals.
Proof.
  intros s0 params extra locals Hw Hp Rp NN Rl Rs.
  assert (S0 : 0 <= sizeSum a params) by (apply sizeSum_nonneg; exact Hp).
  assert (E0 : 0 <= extra)
    by (subst extra;
        destruct (typeGetSize a (typeGetReturn (sym_dt s0)) >? wordsize a);
        lia).
  assert (Rf : CInt.in_range (2 * wordsize a + extra)).
  { assert (CInt.in_range 0) by (unfold CInt.in_range; cbn; lia).
    unfold CInt.in_range in *. lia. }
  assert (F : fnStackSize a symbol = scopeSize a locals).
  { unfold fnStackSize. fold locals.
    destruct (scope_exact a locals NN) as [_ Hx].
    assert (R0 : CInt.in_range 0) by (unfold CInt.in_range; cbn; lia).
    destruct (Hx 0 R0 Rl) as [E _]. rewrite E.
    unfold CInt.neg. rewrite wrap_in_range; [lia |].
    replace (- (0 - scopeSize a locals)) with (scopeSize a locals) by lia.
    exact Rs. }
  split; [| split; [| exact F]].
  - intros p Hin. unfold fnAssignParams in Hin. fold s0 in Hin.
    rewrite fnParamOffsets_spec in Hin. cbn [snd] in Hin. fold params in Hin.
    rewrite fnFirstParamOffset_wrap in Hin. fold extra in Hin.
    rewrite (wrap_in_range Rf) in Hin.
    assert (A : Forall (fun p => 2 * wordsize a + extra <= sym_offset p)
                       (offsetsInOrder a params (2 * wordsize a + extra)))
      by (apply offsetsInOrder_from; assumption).
    rewrite Forall_forall in A. specialize (A p Hin). lia.
  - intros s Hin. rewrite F.
    assert (R0 : CInt.in_range 0) by (unfold CInt.in_range; cbn; lia).
    destruct (@scope_stacks a locals NN 0 R0 Rl) as [K Fn].
    destruct (@stackedBelow_le _ _ _ _ K Fn) as [_ A].
    rewrite Forall_forall in A. specialize (A s Hin). lia.
Qed.

(** ** The error of the return lowerer *)

Lemma emitterReturnValue_debug value ctx :
  exists ctx1,
    emitterReturnValue value ctx = (ctx1, Some tt) /\
    debug ctx1 = debug ctx ++ returnDebug ctx value.
Proof.
  unfold emitterReturnValue, returnDebug.
  unfold emitterValueAsm, returnThroughTemp, regAllocM, regRequestM,
    regFreeM, operandFreeM, asmEmit, setRegs, debugError, debugLog,
    bind, get, ret.
  cbn.
  destruct (valueLoweredAsm ctx value requestValue) as [Ret rf]. cbn.
  destruct (typeGetSize (arch ctx) (ast_dt value) >? wordsize (arch ctx)).
  - cbn. destruct (regAlloc rf (wordsize (arch ctx))) as [rf1 base]. cbn.
    destruct (regRequest (operandFree rf1 Ret) regRAX (wordsize (arch ctx)))
      as [rf2 [rax|]]; cbn.
    + eexists. split; [reflexivity |]. cbn. rewrite app_nil_r. reflexivity.
    + destruct (reg_eqb base (regGet regRAX)); cbn;
        (eexists; split; [reflexivity |]; cbn;
         rewrite ?app_nil_r; reflexivity).
  - cbn.
    destruct (regRequest rf regRAX (typeGetSize (arch ctx) (ast_dt value)))
      as [rf2 [rax|]]; cbn.
    + eexists. split; [reflexivity |]. cbn. rewrite app_nil_r. reflexivity.
    + destruct (reg_eqb (operand_base Ret) (regGet regRAX)); cbn;
        (eexists; split; [reflexivity |]; cbn;
         rewrite ?app_nil_r; reflexivity).
Qed.

Lemma reg_eqb_false a b : reg_eqb a b = false -> a <> b.
Proof.
  intros H E. subst b. destruct a as [[]|]; discriminate H.
Qed.

Lemma returnDebug_no_move ctx value dst src :
  returnDebug ctx value <> [] ->
  In (asmMove dst src) (returnAsm ctx value) ->
  dst <> operandCreateReg (regGet regRAX).
Proof.
  unfold returnDebug, returnAsm.
  destruct (valueLoweredAsm ctx value requestValue) as [Ret rf].
  destruct (typeGetSize (arch ctx) (ast_dt value) >? wordsize (arch ctx)).
  - destruct (regAlloc rf (wordsize (arch ctx))) as [rf1 base].
    destruct (regRequest (operandFree rf1 Ret) regRAX (wordsize (arch ctx)))
      as [rf2 [rax|]]; cbn [snd].
    + intros H. contradiction H. reflexivity.
    + destruct (reg_eqb base (regGet regRAX)) eqn:Eb.
      * intros H. contradiction H. reflexivity.
      * intros _ Hin. apply reg_eqb_false in Eb.
        cbn in Hin. destruct Hin as [Hin | [Hin | [Hin | []]]];
          inversion Hin; subst; [| discriminate].
        intros E. inversion E. contradiction.
  - destruct (regRequest rf regRAX (typeGetSize (arch ctx) (ast_dt value)))
      as [rf2 [rax|]]; cbn [snd].
    + intros H. contradiction H. reflexivity.
    + intros _ Hin. cbn in Hin. destruct Hin as [Hin | []]. inversion Hin.
Qed.

(** X13.  When the request for RAX is refused and the operand to return
    is not in RAX, the return lowerer reports the error
    "unable to allocate RAX for return" to the debug sink, and in no other
    case; it reports nothing else.  The error does not stop it: the jump
    to [returnTo] is appended all the same and the lowerer has its
    result, but nothing has been moved into RAX. *)
Theorem return_reports_refused_rax block Node ctx value :
  ast_r Node = Some value ->
  let ctx' := fst (emitterReturn block Node ctx) in
  snd (emitterReturn block Node ctx) = Some tt /\
  debug ctx' = debug ctx ++ returnDebug ctx value /\
  emitted (ir ctx') = emitted (ir ctx) ++ [(block, opJump (returnTo ctx))] /\
  (returnDebug ctx value <> [] ->
   returnDebug ctx value
   = [dbgError "emitterLine" "unable to allocate RAX for return"] /\
   forall dst src,
     In (asmMove dst src) (returnAsm ctx value) ->
     dst <> operandCreateReg (regGet regRAX)).
Proof.
  intros Er ctx'. subst ctx'.
  destruct (emitterReturnValue_debug value ctx) as (c1 & Hv & Ed).
  destruct (emitterReturnValue_run value ctx)
    as (c1' & Hv' & Hir & Hr & _).
  rewrite Hv in Hv'. inversion Hv'; subst c1'. clear Hv'.
  assert (Hrun : emitterReturn block Node ctx
                 = (emit block (opJump (returnTo c1)) c1, Some tt)).
  { unfold emitterReturn. rewrite Er.
    erewrite bind_ok_intro; [| exact Hv]. reflexivity. }
  rewrite Hrun. cbn [fst snd].
  split; [reflexivity |]. split; [| split].
  - exact Ed.
  - rewrite emitted_emit, Hir, Hr. reflexivity.
  - intros N. split.
    + revert N. unfold returnDebug.
      destruct (valueLoweredAsm ctx value requestValue) as [Ret rf].
      destruct (typeGetSize (arch ctx) (ast_dt value) >? wordsize (arch ctx)).
      * destruct (regAlloc rf (wordsize (arch ctx))) as [rf1 base].
        destruct (snd (regRequest (operandFree rf1 Ret) regRAX
                                  (wordsize (arch ctx))));
          [intros N; contradiction N; reflexivity |].
        destruct (reg_eqb base (regGet regRAX));
          [intros N; contradiction N; reflexivity | reflexivity].
      * destruct (snd (regRequest rf regRAX
                                  (typeGetSize (arch ctx) (ast_dt value))));
          [intros N; contradiction N; reflexivity |].
        destruct (reg_eqb (operand_base Ret) (regGet regRAX));
          [intros N; contradiction N; reflexivity | reflexivity].
    + intros dst src. apply returnDebug_no_move. exact N.
Qed.

(** ** What no statement does *)

(** X14.  Lowering a statement, whether or not the statement can be
    lowered, only appends to the IR and to the debug sink and only creates
    blocks: what was emitted stays as it was, in its order, and the
    architecture, the function symbols stored and [returnTo] are not
    touched.  When it has a result, [breakTo] and [continueTo] are also
    what they were before, for every statement and not only for loops. *)
Theorem statements_only_append block Node ctx :
  let ctx' := fst (emitterLine block Node ctx) in
  (exists new, emitted (ir ctx') = emitted (ir ctx) ++ new) /\
  (exists new, debug ctx' = debug ctx ++ new) /\
  (blockCount (ir ctx) <= blockCount (ir ctx'))%nat /\
  arch ctx' = arch ctx /\
  symtab ctx' = symtab ctx /\
  returnTo ctx' = returnTo ctx /\
  (forall k,
      snd (emitterLine block Node ctx) = Some k ->
      breakTo ctx' = breakTo ctx /\ continueTo ctx' = continueTo ctx).
Proof.
  intros ctx'. subst ctx'.
  destruct (grows_emitterLine block Node ctx) as [Hr Ha Hb He Hd Hs].
  repeat (split; [assumption |]).
  intros k Hk.
  destruct (emitterLine block Node ctx) as [c' res] eqn:E.
  cbn in Hk. subst res.
  exact (targets_emitterLine _ _ _ E).
Qed.

(** ** Where the jumps of a statement go *)

Lemma appendsWithin_refl lo hi al c : appendsWithin lo hi al c c.
Proof.
  exists []. split; [symmetry; apply app_nil_r | intros blk op T []].
Qed.

Lemma appendsWithin_trans lo hi al a b c :
  appendsWithin lo hi al a b -> appendsWithin lo hi al b c ->
  appendsWithin lo hi al a c.
Proof.
  intros (n1 & E1 & J1) (n2 & E2 & J2). exists (n1 ++ n2). split.
  - rewrite E2, E1. symmetry. apply app_assoc.
  - intros blk op T Hin. apply in_app_or in Hin. destruct Hin; eauto.
Qed.

Lemma appendsWithin_same lo hi al a b :
  emitted (ir b) = emitted (ir a) -> appendsWithin lo hi al a b.
Proof.
  intros E. exists []. split; [rewrite E, app_nil_r; reflexivity |].
  intros blk op T [].
Qed.

Lemma appendsWithin_one lo hi al a b blk op :
  emitted (ir b) = emitted (ir a) ++ [(blk, op)] ->
  (forall T, In T (opTargets op) -> (lo < T <= hi)%nat \/ In T al) ->
  appendsWithin lo hi al a b.
Proof.
  intros E J. exists [(blk, op)]. split; [exact E |].
  intros b' o T [Hin | []] HT. inversion Hin; subst. apply J. exact HT.
Qed.

Lemma appendsWithin_widen lo hi al lo' hi' al' a b :
  appendsWithin lo hi al a b ->
  (forall T, (lo < T <= hi)%nat \/ In T al ->
             (lo' < T <= hi')%nat \/ In T al') ->
  appendsWithin lo' hi' al' a b.
Proof.
  intros (new & E & J) W. exists new. split; [exact E |].
  intros blk op T Hin HT. apply W. eapply J; eassumption.
Qed.

Lemma appendsWithin_base lo hi al a a' b :
  emitted (ir a') = emitted (ir a) ->
  appendsWithin lo hi al a' b -> appendsWithin lo hi al a b.
Proof.
  intros E (new & En & J). exists new. rewrite <- E. split; assumption.
Qed.


Lemma scoped_trans extra a b c :
  grows a b -> sameLoopTargets a b -> grows b c ->
  scoped extra a b -> scoped extra b c -> scoped extra a c.
Proof.
  intros Gab Tab Gbc Sab Sbc. unfold scoped in *.
  pose proof (grows_blocks Gab). pose proof (grows_blocks Gbc).
  rewrite (jumpTargets_same Gab Tab) in Sbc.
  eapply appendsWithin_trans.
  - eapply appendsWithin_widen; [exact Sab |].
    intros T [HT | HT]; [left; lia | right; exact HT].
  - eapply appendsWithin_widen; [exact Sbc |].
    intros T [HT | HT]; [left; lia | right; exact HT].
Qed.

Lemma scoped_refl extra c : scoped extra c c.
Proof. apply appendsWithin_refl. Qed.

(** A member of a short list of blocks is one of them. *)
Ltac blocks_tac :=
  let T := fresh "T" in
  let HT := fresh "HT" in
  intros T HT; unfold jumpTargets in *; cbn in HT;
  repeat match type of HT with
         | _ \/ _ => destruct HT as [HT | HT]
         end;
  try contradiction;
  try (subst T);
  first [ left; lia
        | right; cbn; tauto
        | left; cbn in *; lia
        | right; cbn in *; tauto ].

Section Scoped.

Let PL (n : ast) : Prop :=
  forall block ctx ctx' k,
    emitterLine block n ctx = (ctx', Some k) -> scoped [] ctx ctx'.

Let PC (n : ast) : Prop :=
  forall block K ctx ctx',
    emitterCode block n K ctx = (ctx', Some tt) -> scoped [K] ctx ctx'.

Lemma scoped_lines cs :
  Forall PL cs ->
  forall block ctx ctx' b,
    emitterLines block cs ctx = (ctx', Some b) -> scoped [] ctx ctx'.
Proof.
  induction 1 as [| c rest Hc _ IH]; intros block ctx ctx' b Hrun.
  - inversion Hrun; subst. apply scoped_refl.
  - apply emitterLines_cons_run in Hrun.
    destruct Hrun as (c1 & b1 & H1 & H2).
    eapply scoped_trans.
    + eapply grows_run; [apply grows_emitterLine | exact H1].
    + eapply targets_emitterLine; exact H1.
    + eapply grows_run; [apply grows_emitterLines | exact H2].
    + eapply Hc; exact H1.
    + eapply IH; exact H2.
Qed.

Lemma scoped_code n : Forall PL (ast_children n) -> PC n.
Proof.
  intros H block K ctx ctx' Hrun.
  apply emitterCode_run in Hrun. destruct Hrun as (c1 & b & H1 & ->).
  pose proof (scoped_lines H _ _ H1) as S1.
  unfold scoped in *.
  change (blockCount (ir (emit b (opJump K) c1))) with (blockCount (ir c1)).
  eapply appendsWithin_trans.
  - eapply appendsWithin_widen; [exact S1 |].
    intros T [HT | HT]; [left; exact HT | right; right; exact HT].
  - eapply appendsWithin_one; [apply emitted_emit |].
    intros T [<- | []]. right. left. reflexivity.
Qed.

Lemma scoped_line n :
  PC n ->
  (forall l, ast_l n = Some l -> PC l) ->
  (forall r, ast_r n = Some r -> PC r) ->
  PL n.
Proof.
  intros C L R block ctx ctx' k Hrun.
  (* break, continue, return *)
  destruct (jumpStatementTarget (ast_tag n) ctx) as [J|] eqn:EJ.
  { destruct (jump_statement_run block n ctx EJ) as (c & Hc & Hem & _).
    rewrite Hc in Hrun. inversion Hrun; subst.
    eapply appendsWithin_one; [exact Hem |].
    intros T [<- | []]. right. cbn.
    destruct (ast_tag n); try discriminate EJ; cbn in EJ;
      injection EJ as <-; tauto. }
  apply emitterLine_run in Hrun. destruct Hrun as (c1 & Hrun & ->).
  change (scoped [] (logged (dbgEnter (astTagGetStr (ast_tag n))) ctx) c1).
  revert Hrun.
  generalize (logged (dbgEnter (astTagGetStr (ast_tag n))) ctx).
  intros c0 Hrun. unfold scoped. cbn [app].
  destruct (ast_tag n) eqn:Et; try discriminate EJ;
    try (assert (Eu : lineHandles (ast_tag n) = false)
          by (rewrite Et; reflexivity);
         rewrite (dispatch_unhandled block n Eu) in Hrun;
         discriminate Hrun);
    try (assert (Ev : astIsValueTag (ast_tag n) = true)
          by (rewrite Et; reflexivity);
         rewrite (dispatch_value block n Ev) in Hrun;
         inv_bind Hrun; inv_prim Hrun;
         apply emitterValue_run in Hrun0;
         eapply appendsWithin_one; [apply (proj1 Hrun0) | intros T []]).
  - (* empty *)
    rewrite (dispatch_empty block _ Et) in Hrun. inv_prim Hrun.
    apply appendsWithin_refl.
  - (* decl *)
    rewrite (dispatch_decl block _ Et) in Hrun.
    inv_bind Hrun. inv_prim Hrun.
    apply emitterDecl_run in Hrun0.
    eapply appendsWithin_one; [apply (proj1 Hrun0) | intros T []].
  - (* code *)
    rewrite (dispatch_code block _ Et) in Hrun.
    inv_bind Hrun. inv_prim Hrun0.
    inv_bind Hrun. inv_prim Hrun. units.
    pose proof (grows_blocks (grows_run _ (grows_emitterCode _ _ _) Hrun0))
      as B.
    pose proof (C _ _ _ _ Hrun0) as S1. unfold scoped in S1.
    apply appendsWithin_base with (a := c0) in S1; [| reflexivity].
    unfold jumpTargets in S1. cbn in B, S1.
    eapply appendsWithin_widen; [exact S1 |].
    intros T [HT | HT]; [left; lia |]. revert T HT. blocks_tac.
  - (* branch *)
    rewrite (dispatch_branch block _ Et) in Hrun.
    inv_bind Hrun. inv_prim Hrun.
    apply emitterBranch_run in Hrun0.
    destruct Hrun0 as (l & r & cF & _ & El & Er & Hl & Hr).
    cbv zeta in Hl, Hr.
    match type of Hl with
    | emitterCode _ _ _ ?s = _ => remember s as cT eqn:EcT
    end.
    assert (GT : grows c0 cT)
      by (rewrite EcT; eapply grows_trans;
          [apply (grows_newBlocks 3) | apply grows_branched]).
    assert (BT : (3 + blockCount (ir c0) <= blockCount (ir cT))%nat)
      by (rewrite EcT;
          apply (grows_blocks (grows_branched _ _ _ _ (newBlocks 3 c0)))).
    assert (JT : jumpTargets cT = jumpTargets c0)
      by (apply jumpTargets_same;
          [exact GT | rewrite EcT; apply targets_branched]).
    pose proof (grows_run _ (grows_emitterCode _ _ _) Hl) as Gl.
    pose proof (grows_run _ (grows_emitterCode _ _ _) Hr) as Gr.
    pose proof (grows_blocks Gl) as Bl. pose proof (grows_blocks Gr) as Br.
    pose proof (jumpTargets_same Gl (targets_emitterCode _ _ _ _ Hl)) as JF.
    pose proof (L l El _ _ _ _ Hl) as Sl.
    pose proof (R r Er _ _ _ _ Hr) as Sr.
    unfold scoped in Sl, Sr. rewrite JF, JT in Sr. rewrite JT in Sl.
    apply appendsWithin_trans with (b := cT);
      [| apply appendsWithin_trans with (b := cF)].
    + eapply appendsWithin_one;
        [rewrite EcT, emitted_branched; reflexivity |].
      blocks_tac.
    + eapply appendsWithin_widen; [exact Sl |].
      intros T [HT | HT]; [left; lia |]. revert T HT. blocks_tac.
    + eapply appendsWithin_widen; [exact Sr |].
      intros T [HT | HT]; [left; lia |]. revert T HT. blocks_tac.
  - (* loop *)
    rewrite (dispatch_loop block _ Et) in Hrun.
    inv_bind Hrun. inv_prim Hrun.
    apply emitterLoop_run in Hrun0.
    destruct Hrun0 as (l & code & cb & _ & El & Hcode & Hbody & ->).
    cbv zeta in *.
    assert (Pcode : PC code).
    { destruct (astTag_eqb (ast_tag l) astCode).
      - subst code. apply L. exact El.
      - apply R. exact Hcode. }
    match type of Hbody with
    | emitterCode _ _ _ (enterLoop _ _ ?e) = _ =>
        remember e as entered eqn:Een
    end.
    assert (Ge : grows (newBlocks 3 c0) entered).
    { rewrite Een. destruct (astTag_eqb (ast_tag l) astCode).
      - apply grows_emit.
      - apply grows_branched. }
    assert (Ee : exists op,
               emitted (ir entered) = emitted (ir c0) ++ [(block, op)] /\
               forall T, In T (opTargets op) ->
                         (blockCount (ir c0) < T
                          <= 3 + blockCount (ir c0))%nat).
    { rewrite Een. destruct (astTag_eqb (ast_tag l) astCode).
      - eexists. split; [reflexivity |].
        intros T [<- | []]. lia.
      - eexists. split; [rewrite emitted_branched; reflexivity |].
        intros T [<- | [<- | []]]; lia. }
    destruct Ee as (op & Ee & Te).
    pose proof (grows_blocks Ge) as Be. cbn in Be.
    pose proof (grows_returnTo Ge) as Re. cbn in Re.
    pose proof (grows_run _ (grows_emitterCode _ _ _) Hbody) as Gb.
    pose proof (grows_blocks Gb) as Bb. cbn in Bb.
    pose proof (Pcode _ _ _ _ Hbody) as Sb. unfold scoped in Sb.
    apply appendsWithin_base with (a := entered) in Sb; [| reflexivity].
    unfold jumpTargets in Sb. cbn in Sb. rewrite Re in Sb.
    match goal with
    | |- appendsWithin _ (blockCount (ir (branched ?b ?c ?t ?f ?s))) _ _ _ =>
        pose proof (grows_blocks (grows_branched b c t f s)) as Bc;
        cbn in Bc
    end.
    apply appendsWithin_trans with (b := entered);
      [| apply appendsWithin_trans with (b := cb)].
    + eapply appendsWithin_one; [exact Ee |].
      intros T HT. left. specialize (Te T HT). lia.
    + eapply appendsWithin_widen; [exact Sb |].
      intros T [HT | HT]; [left; lia |]. revert T HT. blocks_tac.
    + eapply appendsWithin_one;
        [rewrite emitted_branched; reflexivity |].
      blocks_tac.
  - (* iter *)
    rewrite (dispatch_iter block _ Et) in Hrun.
    inv_bind Hrun. inv_prim Hrun.
    apply emitterIter_run in Hrun0.
    destruct Hrun0 as (init & cond & after & code & ctx1 & block1 & ctx2
                       & ctx3 & lowered & _ & Ech & El & Hinit & Hbody
                       & Hstep & ->).
    cbv zeta in *.
    assert (Gi : grows (newBlocks 3 c0) ctx1
                 /\ emitted (ir ctx1)
                    = emitted (ir c0) ++ [(block, iterInit init)]).
    { unfold iterInit. destruct (astTag_eqb (ast_tag init) astDecl).
      - split; [eapply grows_run; [apply grows_emitterDecl | exact Hinit] |].
        apply emitterDecl_run in Hinit. apply Hinit.
      - destruct Hinit as [o Hinit].
        split; [eapply grows_run; [apply grows_emitterValue | exact Hinit] |].
        apply emitterValue_run in Hinit. apply Hinit. }
    destruct Gi as [Gi Ei].
    pose proof (grows_blocks Gi) as Bi. cbn in Bi.
    pose proof (grows_returnTo Gi) as Ri. cbn in Ri.
    match type of Hbody with
    | emitterCode _ _ _ (enterLoop _ _ ?e) = _ =>
        remember e as tested eqn:Ete
    end.
    pose proof (grows_branched block1 (Some cond)
                  (S (S (blockCount (ir c0)))) (S (blockCount (ir c0))) ctx1)
      as Gt. rewrite <- Ete in Gt.
    pose proof (grows_blocks Gt) as Bt.
    pose proof (grows_returnTo Gt) as Rt.
    pose proof (grows_run _ (grows_emitterCode _ _ _) Hbody) as Gb.
    pose proof (grows_blocks Gb) as Bb. cbn in Bb.
    pose proof (L code El _ _ _ _ Hbody) as Sb. unfold scoped in Sb.
    apply appendsWithin_base with (a := tested) in Sb; [| reflexivity].
    unfold jumpTargets in Sb. cbn in Sb. rewrite Rt, Ri in Sb.
    pose proof (grows_run _ (grows_emitterValue _ _ _) Hstep) as Gs.
    pose proof (grows_blocks Gs) as Bs. cbn in Bs.
    apply emitterValue_run in Hstep. destruct Hstep as (Es & _).
    cbn in Es.
    match goal with
    | |- appendsWithin _ (blockCount (ir (branched ?b ?c ?t ?f ?s))) _ _ _ =>
        pose proof (grows_blocks (grows_branched b c t f s)) as Bc
    end.
    apply appendsWithin_trans with (b := ctx1);
      [| apply appendsWithin_trans with (b := tested);
         [| apply appendsWithin_trans with (b := ctx2);
            [| apply appendsWithin_trans with (b := ctx3)]]].
    + eapply appendsWithin_one; [exact Ei |].
      unfold iterInit.
      destruct (astTag_eqb (ast_tag init) astDecl); intros T [].
    + eapply appendsWithin_one;
        [rewrite Ete, emitted_branched; reflexivity |].
      blocks_tac.
    + eapply appendsWithin_widen; [exact Sb |].
      intros T [HT | HT]; [left; lia |]. revert T HT. blocks_tac.
    + eapply appendsWithin_one; [exact Es | intros T []].
    + eapply appendsWithin_one;
        [rewrite emitted_branched; reflexivity |].
      blocks_tac.
Qed.

Lemma scoped_statements : forall n : ast, PL n /\ PC n.
Proof. apply emitter_ind; [apply scoped_code | apply scoped_line]. Qed.

End Scoped.

(** X15.  What a statement appends to the IR transfers control only to
    blocks created while the statement is lowered and to the three jump
    targets of the context it is lowered in, and the lines of a block in
    addition to the continuation of the block: no jump and no branch goes
    to any other block that was there before. *)
Theorem jumps_stay_in_scope :
  (forall block Node ctx ctx' k,
      emitterLine block Node ctx = (ctx', Some k) ->
      scoped [] ctx ctx') /\
  (forall block Node K ctx ctx',
      emitterCode block Node K ctx = (ctx', Some tt) ->
      scoped [K] ctx ctx').
Proof.
  split.
  - intros block Node ctx ctx' k H.
    eapply (proj1 (scoped_statements Node)); exact H.
  - intros block Node K ctx ctx' H.
    eapply (proj2 (scoped_statements Node)); exact H.
Qed.

(** ** Jumps and functions *)

(** What the children of a module do to the blocks and the jumps. *)
Let closes (a b : emitterCtx) : Prop :=
  (blockCount (ir a) <= blockCount (ir b))%nat /\
  breakTo b = breakTo a /\
  continueTo b = continueTo a /\
  appendsWithin (blockCount (ir a)) (blockCount (ir b))
                [breakTo a; continueTo a] a b.

Lemma closes_refl c : closes c c.
Proof.
  split; [lia |]. split; [reflexivity |]. split; [reflexivity |].
  apply appendsWithin_refl.
Qed.

Lemma closes_trans a b c : closes a b -> closes b c -> closes a c.
Proof.
  intros (B1 & Tb1 & Tc1 & S1) (B2 & Tb2 & Tc2 & S2).
  split; [lia |]. split; [congruence |]. split; [congruence |].
  rewrite Tb1, Tc1 in S2.
  eapply appendsWithin_trans.
  - eapply appendsWithin_widen; [exact S1 |].
    intros T [HT | HT]; [left; lia | right; exact HT].
  - eapply appendsWithin_widen; [exact S2 |].
    intros T [HT | HT]; [left; lia | right; exact HT].
Qed.

Lemma closes_same a b :
  ir b = ir a -> breakTo b = breakTo a -> continueTo b = continueTo a ->
  closes a b.
Proof.
  intros Ei Eb Ec. split; [rewrite Ei; lia |].
  split; [exact Eb |]. split; [exact Ec |].
  apply appendsWithin_same. rewrite Ei. reflexivity.
Qed.

Lemma closes_emitterFnImpl Node : preserves_ok closes (emitterFnImpl Node).
Proof.
  intros ctx ctx' [] H. apply emitterFnImpl_debug in H.
  destruct H as (symbol & body & ctxb & ctx1 & _ & _ & Hbody & _ & _ & ->
                 & Bb & Jb & label & stacksize & Eb).
  cbv zeta in *.
  pose proof (grows_run _ (grows_emitterCode _ _ _) Hbody) as G.
  pose proof (grows_blocks G) as B.
  destruct (targets_emitterCode _ _ _ _ Hbody) as [Tb Tc].
  pose proof (proj2 (scoped_statements body) _ _ _ _ Hbody) as S1.
  unfold scoped in S1. rewrite Jb in S1.
  unfold jumpTargets in Jb. inversion Jb as [[Jb1 Jb2 Jb3]].
  unfold closes. cbn.
  split; [lia |]. split; [congruence |]. split; [congruence |].
  apply appendsWithin_trans with (b := ctxb);
    [| apply appendsWithin_trans with (b := ctx1)].
  - eapply appendsWithin_one; [exact Eb | intros T []].
  - eapply appendsWithin_widen; [exact S1 |].
    intros T [HT | HT]; [left; lia |]. revert T HT. blocks_tac.
  - eapply appendsWithin_one; [reflexivity | intros T []].
Qed.

Lemma closes_moduleChildren cs :
  Forall (fun n => preserves_ok closes (emitterModuleChild n)) cs ->
  preserves_ok closes (emitterModuleChildren cs).
Proof.
  induction 1 as [| c rest Hc _ IH].
  - apply (preserves_ok_ret closes closes_refl).
  - rewrite emitterModuleChildren_cons.
    apply (preserves_ok_bind closes_trans); [exact Hc | intros _; exact IH].
Qed.

Lemma closes_module :
  forall n : ast,
    preserves_ok closes (emitterModule n) /\
    preserves_ok closes (emitterModuleChild n).
Proof.
  apply ast_nested_ind.
  intros tag children l r symbol dt Hc _ Hr. split.
  - intros ctx ctx' [] H. rewrite emitterModule_eq in H.
    inv_bind H. inv_prim Hrun. inv_bind H. inv_prim H. units.
    apply closes_trans with (b := logged (dbgEnter "Module") ctx);
      [apply closes_same; reflexivity |].
    apply closes_trans with (b := c);
      [| apply closes_same; reflexivity].
    eapply closes_moduleChildren; [| exact Hrun]. cbn [ast_children].
    eapply Forall_impl; [| exact Hc]. intros a [_ Ha]. exact Ha.
  - unfold emitterModuleChild, emitterModuleChild_of. cbn [ast_tag ast_r].
    destruct (astTag_eqb tag astUsing).
    { destruct r as [m|].
      - apply (Hr m eq_refl).
      - apply (preserves_ok_ret closes closes_refl). }
    destruct (astTag_eqb tag astFnImpl); [apply closes_emitterFnImpl |].
    destruct (astTag_eqb tag astDecl).
    { intros ctx ctx' [] H.
      unfold emitterDeclAsm, bind, get, asmEmit, setRegs in H.
      inv_prim H. apply closes_same; reflexivity. }
    destruct (astTag_eqb tag astEmpty);
      intros ctx ctx' [] H; inv_prim H; apply closes_same; reflexivity.
Qed.

(** X16.  No jump leaves its function: what lowering a function appends to
    the IR transfers control only to blocks created for that function and,
    from a [break] or [continue] outside every loop, to [breakTo] and
    [continueTo] of the context.  In the IR that [emitter] hands to
    [irEmit] every jump and every branch goes to a block that exists or to
    the null block. *)
Theorem no_jump_leaves_its_function :
  (forall Node ctx ctx',
      emitterFnImpl Node ctx = (ctx', Some tt) ->
      appendsWithin (blockCount (ir ctx)) (blockCount (ir ctx'))
                    [breakTo ctx; continueTo ctx] ctx ctx') /\
  (forall Tree out a ctx',
      emitter Tree out a = (ctx', Some tt) ->
      jumpsWithin 0 (blockCount (ir ctx')) [nullBlock] (emitted (ir ctx'))).
Proof.
  split.
  - intros Node ctx ctx' H.
    apply (@closes_emitterFnImpl Node ctx ctx' tt H).
  - intros Tree out a ctx' H. unfold emitter in H.
    destruct (proj1 (closes_module Tree) _ _ _ H)
      as (_ & _ & _ & new & E & J).
    cbn in E, J. rewrite E.
    intros blk op T Hin HT.
    destruct (J blk op T Hin HT) as [HJ | [<- | [<- | []]]];
      [left; exact HJ | right; left; reflexivity
       | right; left; reflexivity].
Qed.

(** ** What follows a jump *)

Lemma scoped_emitterLines block cs ctx ctx' b :
  emitterLines block cs ctx = (ctx', Some b) -> scoped [] ctx ctx'.
Proof.
  apply scoped_lines. apply Forall_forall. intros n _.
  apply (proj1 (scoped_statements n)).
Qed.

(** X17.  What follows a [return], a [break] or a [continue] in a block
    cannot be reached: the statement is lowered to a jump and returns a
    block created for it, the lines after it are lowered from that block,
    and nothing that lowering the block appends to the IR, before the
    statement or after it, transfers control to that block.  (The jump
    targets of the context are blocks that exist.) *)
Theorem code_after_jump_is_unreachable block pre j post ctx ctx' b :
  isJumpStatement (ast_tag j) = true ->
  Forall (fun T => (T <= blockCount (ir ctx))%nat) (jumpTargets ctx) ->
  emitterLines block (pre ++ j :: post) ctx = (ctx', Some b) ->
  exists ctx0 b0 ctx1 new,
    let k := S (blockCount (ir ctx0)) in
    emitterLines block pre ctx = (ctx0, Some b0) /\
    emitterLine b0 j ctx0 = (ctx1, Some k) /\
    emitterLines k post ctx1 = (ctx', Some b) /\
    emitted (ir ctx') = emitted (ir ctx) ++ new /\
    forall blk op, In (blk, op) new -> ~ In k (opTargets op).
Proof.
  intros Ej Hv H. apply emitterLines_app_run in H.
  destruct H as (ctx0 & b0 & ctx1 & k & Hpre & Hj & Hpost).
  assert (ET : exists T, jumpStatementTarget (ast_tag j) ctx0 = Some T
                         /\ In T (jumpTargets ctx0)).
  { unfold jumpTargets.
    destruct (ast_tag j); try discriminate Ej; eexists;
      (split; [reflexivity | cbn; tauto]). }
  destruct ET as (T & ET & InT).
  destruct (jump_statement_run b0 j ctx0 ET)
    as (c1 & Hc1 & Em & Bj & Rj & Tbj & Tcj).
  rewrite Hc1 in Hj. inversion Hj; subst c1 k. clear Hj.
  pose proof (grows_run _ (grows_emitterLines _ _) Hpre) as Gpre.
  pose proof (grows_blocks Gpre) as Bpre.
  pose proof (jumpTargets_same Gpre (targets_emitterLines _ _ _ Hpre)) as J0.
  assert (J1 : jumpTargets ctx1 = jumpTargets ctx0)
    by (unfold jumpTargets; rewrite Rj, Tbj, Tcj; reflexivity).
  destruct (scoped_emitterLines _ _ _ Hpre) as (n1 & E1 & S1).
  destruct (scoped_emitterLines _ _ _ Hpost) as (n2 & E2 & S2).
  rewrite J1, J0 in S2. rewrite Bj in S2. rewrite J0 in InT.
  rewrite Forall_forall in Hv.
  exists ctx0, b0, ctx1, (n1 ++ [(b0, opJump T)] ++ n2). cbv zeta.
  split; [exact Hpre |]. split; [exact Hc1 |]. split; [exact Hpost |].
  split; [rewrite E2, Em, E1, <- !app_assoc; reflexivity |].
  intros blk op Hin Hk.
  apply in_app_or in Hin. destruct Hin as [Hin | Hin];
    [| apply in_app_or in Hin; destruct Hin as [Hin | Hin]].
  - destruct (S1 blk op _ Hin Hk) as [HT | HT]; [lia |].
    specialize (Hv _ HT). lia.
  - destruct Hin as [Hin | []]. inversion Hin; subst.
    destruct Hk as [Hk | []]. specialize (Hv _ InT). lia.
  - destruct (S2 blk op _ Hin Hk) as [HT | HT]; [lia |].
    specialize (Hv _ HT). lia.
Qed.

(** ** The statements that go on in a block *)

(** X18.  The four branches of [emitterLine] that are not control flow.
    An empty statement adds nothing to the IR and returns the block it was
    given.  A declaration and an expression statement are handed to their
    lowerer with the block they were given, which appends to it, and the
    block that lowerer leaves is returned; the expression is lowered for
    no value.  A nested block gets a continuation of its own, created
    before its lines are lowered: the lines start in the block that was
    given, end in a jump to that continuation, and the continuation is
    returned. *)
Theorem straight_line_statements block Node ctx :
  let entered := logged (dbgEnter (astTagGetStr (ast_tag Node))) ctx in
  (ast_tag Node = astEmpty ->
   emitterLine block Node ctx = (logged dbgLeave entered, Some block)) /\
  (ast_tag Node = astDecl ->
   exists ctx',
     emitterLine block Node ctx
     = (ctx', Some (snd (fst (declLowered entered block Node)))) /\
     emitted (ir ctx') = emitted (ir ctx) ++ [(block, opDecl Node)]) /\
  (astIsValueTag (ast_tag Node) = true ->
   exists ctx',
     emitterLine block Node ctx
     = (ctx',
        Some (snd (fst (fst (valueLowered entered block (Some Node)
                                          requestVoid))))) /\
     emitted (ir ctx')
     = emitted (ir ctx) ++ [(block, opValue (Some Node) requestVoid)]) /\
  (ast_tag Node = astCode ->
   wellFormedCode Node = true ->
   let continuation := S (blockCount (ir ctx)) in
   exists ctx' ctx1 lineOps last,
     emitterLine block Node ctx = (ctx', Some continuation) /\
     emitterLines block (ast_children Node) (newBlocks 1 entered)
     = (ctx1, Some last) /\
     emitted (ir ctx')
     = emitted (ir ctx) ++ lineOps ++ [(last, opJump continuation)]).
Proof.
  intros entered. subst entered. split; [| split; [| split]].
  - intros Et. apply emitterLine_intro.
    rewrite (dispatch_empty block _ Et). reflexivity.
  - intros Et.
    destruct (declLowered
                (logged (dbgEnter (astTagGetStr (ast_tag Node))) ctx)
                block Node) as [[created block'] rf] eqn:Ed.
    eexists. split.
    + apply emitterLine_intro. rewrite (dispatch_decl block _ Et).
      unfold emitterDecl, bind, get. rewrite Ed. reflexivity.
    + reflexivity.
  - intros Ev.
    destruct (valueLowered
                (logged (dbgEnter (astTagGetStr (ast_tag Node))) ctx)
                block (Some Node) requestVoid)
      as [[[created block'] result] rf] eqn:Ed.
    eexists. split.
    + apply emitterLine_intro. rewrite (dispatch_value block _ Ev).
      unfold emitterValue, bind, get. rewrite Ed. reflexivity.
    + reflexivity.
  - intros Et W continuation. subst continuation.
    destruct (@total_emitterCode block Node (S (blockCount (ir ctx))) W
                (newBlocks 1
                   (logged (dbgEnter (astTagGetStr (ast_tag Node))) ctx)))
      as (c1 & [] & Hc).
    destruct (emitterCode_emitted _ _ _ _ Hc)
      as (ctx1 & last & lineOps & Hl & _ & E).
    exists (logged dbgLeave c1), ctx1, lineOps, last.
    split; [| split; [exact Hl | exact E]].
    apply emitterLine_intro. rewrite (dispatch_code block _ Et).
    erewrite bind_ok_intro; [| reflexivity].
    erewrite bind_ok_intro; [| exact Hc]. reflexivity.
Qed.

End EmitterFacts.

(** * The theorems at concrete inputs *)

Module Examples.

Import Demo.

(** C1: [returnTo] is null before the first function, and after it the
  epilogue block of that function and not what it was. *)
Lemma fn_impl_return_target_not_restored :
snd (emitterFnImpl (fnImpl []) ctx0) = Some tt /\
returnTo ctx0 = nullBlock /\
returnTo (fst (emitterFnImpl (fnImpl []) ctx0)) <> returnTo ctx0 /\
returnTo (fst (emitterFnImpl (fnImpl []) ctx0)) <> nullBlock.
Proof. vm_compute. repeat split; discriminate. Qed.

Lemma fn_impl_return_target_witness :
emitterFnImpl (fnImpl [returnInt]) ctx0
= (fst (emitterFnImpl (fnImpl [returnInt]) ctx0), Some tt) /\
returnTo (fst (emitterFnImpl (fnImpl [returnInt]) ctx0)) = 2%nat /\
breakTo (fst (emitterFnImpl (fnImpl [returnInt]) ctx0)) = breakTo ctx0 /\
continueTo (fst (emitterFnImpl (fnImpl [returnInt]) ctx0))
= continueTo ctx0.
Proof.
assert (H : emitterFnImpl (fnImpl [returnInt]) ctx0
            = (fst (emitterFnImpl (fnImpl [returnInt]) ctx0), Some tt))
  by (vm_compute; reflexivity).
split; [exact H |].
destruct (fn_impl_return_target _ _ H)
  as (symbol & body & ctx1 & _ & _ & _ & _ & _ & _ & _ & _ & _ & Hr & Hb & Hc).
auto.
Defined.

(** C2: the locals of [fnSymbol] take 16 bytes, the two sibling scopes one
  after the other. *)
Lemma scope_assign_offsets_walk_witness :
sizesNonNeg amd64 fnSymbol = true /\
CInt.in_range 0 /\
CInt.in_range (0 - scopeSize amd64 fnSymbol) /\
snd (fst (emitterScopeAssignOffsets amd64 fnSymbol 0)) = -16.
Proof.
assert (H1 : sizesNonNeg amd64 fnSymbol = true) by reflexivity.
assert (H2 : CInt.in_range 0) by (vm_compute; split; discriminate).
assert (H3 : CInt.in_range (0 - scopeSize amd64 fnSymbol))
  by (vm_compute; split; discriminate).
repeat (split; [assumption |]).
destruct (scope_assign_offsets_walk amd64 fnSymbol 0) as (_ & H & _).
destruct (H H1 H2 H3) as [E _]. rewrite E. reflexivity.
Defined.


(** C4: the value is in RAX, which is in use, so that the request for RAX
  is refused and nothing is moved. *)
Lemma return_without_move :
ast_r returnInt = Some literal /\
snd (emitterReturn 1%nat returnInt ctx0) = Some tt /\
forall dst src,
  ~ In (asmMove dst src) (Asm (fst (emitterReturn 1%nat returnInt ctx0))).
Proof.
split; [reflexivity |]. split; [reflexivity |].
intros dst src H. vm_compute in H. destruct H as [H | []]. discriminate H.
Qed.

(** C5 *)
Lemma loop_flavours_differ_in_entry_witness :
loopCode whileLoop = Some (code [leaf astBreak; leaf astContinue]) /\
wellFormedCode (code [leaf astBreak; leaf astContinue]) = true /\
exists ctx', emitterLoop 1%nat whileLoop ctx0 = (ctx', Some 1%nat).
Proof.
assert (H1 : loopCode whileLoop
             = Some (code [leaf astBreak; leaf astContinue]))
  by reflexivity.
assert (H2 : wellFormedCode (code [leaf astBreak; leaf astContinue]) = true)
  by reflexivity.
split; [exact H1 |]. split; [exact H2 |].
destruct (loop_flavours_differ_in_entry 1%nat whileLoop ctx0 H1 H2)
  as (ctx' & _ & _ & _ & H & _).
exists ctx'. exact H.
Defined.

(** C6 *)
Lemma branch_joins_at_continuation_witness :
ast_l ifElse = Some (code []) /\
ast_r ifElse = Some (code []) /\
wellFormedCode (code []) = true /\
exists ctx', emitterBranch 1%nat ifElse ctx0 = (ctx', Some 1%nat).
Proof.
assert (H1 : ast_l ifElse = Some (code [])) by reflexivity.
assert (H2 : ast_r ifElse = Some (code [])) by reflexivity.
assert (H3 : wellFormedCode (code []) = true) by reflexivity.
repeat (split; [assumption |]).
destruct (branch_joins_at_continuation 1%nat ifElse ctx0 H1 H2 H3 H3)
  as (ctx' & _ & _ & _ & _ & _ & _ & H & _).
exists ctx'. exact H.
Defined.



(** C9: the statement [invalid] is reported and has no continuation, and
  the block [{ invalid; ; }] is not lowered past it. *)
Lemma unhandled_tag_reported_witness :
lineHandles (ast_tag invalid) = false /\
emitterLine 1%nat invalid ctx0
= (set_debug [dbgEnter "invalid";
              dbgErrorUnhandled "emitterLine" "AST tag" "invalid";
              dbgLeave] ctx0,
   None) /\
snd (emitterCode 1%nat invalidBlock 2%nat ctx0) = None.
Proof.
assert (H : lineHandles (ast_tag invalid) = false) by reflexivity.
split; [exact H |]. split.
- exact (proj2 (unhandled_tag_reported 1%nat invalid ctx0) H).
- reflexivity.
Defined.

(** C10 *)
Lemma break_continue_null_targets_witness :
looseIn astBreak (code [leaf astBreak]) = true /\
emitter breakModule "out.s" amd64
= (fst (emitter breakModule "out.s" amd64), Some tt) /\
(exists b,
    In (b, opJump nullBlock)
       (emitted (ir (fst (emitter breakModule "out.s" amd64))))) /\
guardedCode false (code [whileLoop]) = true /\
emitterFnImpl loopFn ctx0 = (fst (emitterFnImpl loopFn ctx0), Some tt) /\
forall b T,
  In (b, opJump T) (emitted (ir (fst (emitterFnImpl loopFn ctx0)))) ->
  T <> nullBlock.
Proof.
assert (H1 : looseIn astBreak (code [leaf astBreak]) = true) by reflexivity.
assert (H2 : emitter breakModule "out.s" amd64
             = (fst (emitter breakModule "out.s" amd64), Some tt))
  by (vm_compute; reflexivity).
assert (H3 : guardedCode false (code [whileLoop]) = true) by reflexivity.
assert (H4 : emitterFnImpl loopFn ctx0
             = (fst (emitterFnImpl loopFn ctx0), Some tt))
  by (vm_compute; reflexivity).
destruct (@break_continue_null_targets demo) as (_ & B2 & B3).
split; [exact H1 |]. split; [exact H2 |]. split; [| split; [exact H3 |
                                                   split; [exact H4 |]]].
- exact (B2 astBreak breakModule [] breakFn [] (code [leaf astBreak])
            "out.s"%string amd64 _ (or_introl eq_refl) eq_refl eq_refl
            eq_refl H1 H2).
- destruct (B3 loopFn (code [whileLoop]) ctx0 _ eq_refl H3 H4)
    as (new & E & J).
  intros b T Hin. rewrite E in Hin. cbn in Hin. eapply J. exact Hin.
Defined.

(** X1: the loop [whileLoop] is well formed and is lowered with a
  result. *)
Lemma statement_defined_iff_well_formed_witness :
wellFormed whileLoop = true /\
exists k, snd (emitterLine 1%nat whileLoop ctx0) = Some k.
Proof.
assert (W : wellFormed whileLoop = true) by reflexivity.
split; [exact W |].
apply (proj2 (proj1 (statement_defined_iff_well_formed whileLoop)
                    1%nat ctx0)).
exact W.
Defined.

(** X2 *)
Lemma iter_lowering_shape_witness :
ast_children forLoop = [literal; literal; literal] /\
ast_l forLoop = Some (code [leaf astContinue]) /\
wellFormedCode (code [leaf astContinue]) = true /\
exists ctx', emitterIter 1%nat forLoop ctx0 = (ctx', Some 1%nat).
Proof.
assert (H1 : ast_children forLoop = [literal; literal; literal])
  by reflexivity.
assert (H2 : ast_l forLoop = Some (code [leaf astContinue])) by reflexivity.
assert (H3 : wellFormedCode (code [leaf astContinue]) = true)
  by reflexivity.
repeat (split; [assumption |]).
destruct (iter_lowering_shape 1%nat forLoop ctx0 H1 H2 H3)
  as (ctx' & ctx1 & block1 & ctx2 & last & ctx3 & lowered & lineOps & P).
cbv zeta in P. destruct P as (H & _).
exists ctx'. exact H.
Defined.

(** X3 *)
Lemma fn_impl_lowering_shape_witness :
ast_symbol (fnImpl [returnInt]) = Some fnSymbol /\
ast_r (fnImpl [returnInt]) = Some (code [returnInt]) /\
wellFormedCode (code [returnInt]) = true /\
exists ctx', emitterFnImpl (fnImpl [returnInt]) ctx0 = (ctx', Some tt).
Proof.
assert (H1 : ast_symbol (fnImpl [returnInt]) = Some fnSymbol)
  by reflexivity.
assert (H2 : ast_r (fnImpl [returnInt]) = Some (code [returnInt]))
  by reflexivity.
assert (H3 : wellFormedCode (code [returnInt]) = true) by reflexivity.
repeat (split; [assumption |]).
destruct (fn_impl_lowering_shape (fnImpl [returnInt]) ctx0 H1 H2 H3)
  as (ctx' & _ & _ & _ & _ & H & _).
exists ctx'. exact H.
Defined.

(** X4 *)
Lemma module_defined_iff_well_formed_witness :
moduleWellFormed program = true /\
snd (emitter program "out.s" amd64) = Some tt.
Proof.
assert (W : moduleWellFormed program = true) by reflexivity.
split; [exact W |].
apply (proj2 (proj1 (proj2 (module_defined_iff_well_formed program))
                    "out.s"%string amd64)).
exact W.
Defined.

(** X5 *)
Lemma module_ir_is_whole_functions_witness :
emitter program "out.s" amd64
= (fst (emitter program "out.s" amd64), Some tt) /\
fnBracketed false (emitted (ir (fst (emitter program "out.s" amd64))))
= true.
Proof.
assert (H : emitter program "out.s" amd64
            = (fst (emitter program "out.s" amd64), Some tt))
  by (vm_compute; reflexivity).
split; [exact H |].
apply (proj2 (proj2 module_ir_is_whole_functions) _ _ _ _ H).
Defined.

(** X6: the function of the module used comes first. *)
Lemma module_functions_in_order_witness :
emitter program "out.s" amd64
= (fst (emitter program "out.s" amd64), Some tt) /\
prologues (emitted (ir (fst (emitter program "out.s" amd64))))
= [(Some "_g"%string, 12); (Some "_f"%string, 16)].
Proof.
assert (H : emitter program "out.s" amd64
            = (fst (emitter program "out.s" amd64), Some tt))
  by (vm_compute; reflexivity).
split; [exact H |].
destruct (module_functions_in_order _ _ _ H) as (_ & P & _).
rewrite P. reflexivity.
Defined.

(** X7 *)
Lemma debug_sink_is_balanced_witness :
emitter program "out.s" amd64
= (fst (emitter program "out.s" amd64), Some tt) /\
debugDepth 0 (debug (fst (emitter program "out.s" amd64))) = Some 0%nat.
Proof.
assert (H : emitter program "out.s" amd64
            = (fst (emitter program "out.s" amd64), Some tt))
  by (vm_compute; reflexivity).
split; [exact H |].
apply (proj2 (proj2 (proj2 debug_sink_is_balanced)) _ _ _ _ H).
Defined.

(** X8: the three locals of [fnSymbol], of 4, 8 and 4 bytes, lie at -4,
  -12 and -16. *)
Lemma locals_are_stacked_witness :
sizesNonNeg amd64 fnSymbol = true /\
CInt.in_range 0 /\
CInt.in_range (0 - scopeSize amd64 fnSymbol) /\
stackedBelow amd64 0 (snd (emitterScopeAssignOffsets amd64 fnSymbol 0))
             (snd (fst (emitterScopeAssignOffsets amd64 fnSymbol 0))).
Proof.
assert (H1 : sizesNonNeg amd64 fnSymbol = true) by reflexivity.
assert (H2 : CInt.in_range 0) by (vm_compute; split; discriminate).
assert (H3 : CInt.in_range (0 - scopeSize amd64 fnSymbol))
  by (vm_compute; split; discriminate).
repeat (split; [assumption |]).
destruct (locals_are_stacked amd64 fnSymbol 0) as (_ & H).
destruct (H H1 H2 H3) as (K & _). exact K.
Defined.

(** X9 *)
Lemma offset_passes_write_offsets_only_witness :
sym_label labelled <> None /\
eraseOffsets (fnSymbolAfter amd64 labelled) = eraseOffsets labelled.
Proof.
assert (L : sym_label labelled <> None) by discriminate.
split; [exact L |].
apply (proj2 (proj2 (offset_passes_write_offsets_only amd64)) labelled L).
Defined.

(** X10 *)
Lemma offset_passes_are_idempotent_witness :
sym_label (fnLabelled amd64 fnSymbol) <> None /\
fnSymbolAfter amd64 (fnSymbolAfter amd64 fnSymbol)
= fnSymbolAfter amd64 fnSymbol.
Proof.
assert (L : sym_label (fnLabelled amd64 fnSymbol) <> None)
  by (vm_compute; discriminate).
split; [exact L |].
apply (proj2 (offset_passes_are_idempotent amd64) fnSymbol L).
Defined.

(** X11: the frame of [fnSymbol] has 16 bytes of locals. *)
Lemma frame_layout_witness :
0 <= wordsize amd64 /\
Forall (fun p => 0 <= paramSize amd64 p) [param 4; param 8] /\
CInt.in_range (2 * wordsize amd64 + 0 + 12) /\
sizesNonNeg amd64 (fst (fnAssignParams amd64 fnSymbol)) = true /\
CInt.in_range (- scopeSize amd64 (fst (fnAssignParams amd64 fnSymbol))) /\
CInt.in_range (scopeSize amd64 (fst (fnAssignParams amd64 fnSymbol))) /\
fnStackSize amd64 fnSymbol = 16.
Proof.
assert (H1 : 0 <= wordsize amd64) by (vm_compute; discriminate).
assert (H2 : Forall (fun p => 0 <= paramSize amd64 p) [param 4; param 8])
  by (repeat constructor; vm_compute; discriminate).
assert (H3 : CInt.in_range (2 * wordsize amd64 + 0 + 12))
  by (vm_compute; split; discriminate).
assert (H4 : sizesNonNeg amd64 (fst (fnAssignParams amd64 fnSymbol)) = true)
  by reflexivity.
assert (H5 : CInt.in_range
               (- scopeSize amd64 (fst (fnAssignParams amd64 fnSymbol))))
  by (vm_compute; split; discriminate).
assert (H6 : CInt.in_range
               (scopeSize amd64 (fst (fnAssignParams amd64 fnSymbol))))
  by (vm_compute; split; discriminate).
repeat (split; [assumption |]).
destruct (frame_layout amd64 fnSymbol H1 H2 H3 H4 H5 H6) as (_ & _ & F).
rewrite F. reflexivity.
Defined.

(** X13: with no register to spare the value stays in RBX, the error is
  reported, and the jump is there all the same. *)
Lemma return_reports_refused_rax_witness :
ast_r returnInt = Some literal /\
@returnDebug busy ctx0 literal <> [] /\
debug (fst (@emitterReturn busy 1%nat returnInt ctx0))
= [dbgError "emitterLine" "unable to allocate RAX for return"] /\
emitted (ir (fst (@emitterReturn busy 1%nat returnInt ctx0)))
= [(1%nat, opJump 0%nat)].
Proof.
assert (H1 : ast_r returnInt = Some literal) by reflexivity.
assert (H2 : @returnDebug busy ctx0 literal <> [])
  by (vm_compute; discriminate).
split; [exact H1 |]. split; [exact H2 |].
destruct (@return_reports_refused_rax busy 1%nat returnInt ctx0 literal H1)
  as (_ & D & E & N).
destruct (N H2) as (R & _).
split.
- rewrite D, R. reflexivity.
- rewrite E. reflexivity.
Defined.

(** X14 *)
Lemma statements_only_append_witness :
snd (emitterLine 1%nat whileLoop ctx0) = Some 1%nat /\
breakTo (fst (emitterLine 1%nat whileLoop ctx0)) = breakTo ctx0 /\
continueTo (fst (emitterLine 1%nat whileLoop ctx0)) = continueTo ctx0.
Proof.
assert (H : snd (emitterLine 1%nat whileLoop ctx0) = Some 1%nat)
  by (vm_compute; reflexivity).
split; [exact H |].
destruct (statements_only_append 1%nat whileLoop ctx0)
  as (_ & _ & _ & _ & _ & _ & T).
exact (T _ H).
Defined.

(** X15 *)
Lemma jumps_stay_in_scope_witness :
emitterLine 1%nat whileLoop ctx0
= (fst (emitterLine 1%nat whileLoop ctx0), Some 1%nat) /\
scoped [] ctx0 (fst (emitterLine 1%nat whileLoop ctx0)).
Proof.
assert (H : emitterLine 1%nat whileLoop ctx0
            = (fst (emitterLine 1%nat whileLoop ctx0), Some 1%nat))
  by (vm_compute; reflexivity).
split; [exact H |].
apply (proj1 jumps_stay_in_scope _ _ _ _ _ H).
Defined.

(** X16: the ten blocks of [program]. *)
Lemma no_jump_leaves_its_function_witness :
emitter program "out.s" amd64
= (fst (emitter program "out.s" amd64), Some tt) /\
jumpsWithin 0 10 [nullBlock]
            (emitted (ir (fst (emitter program "out.s" amd64)))).
Proof.
assert (H : emitter program "out.s" amd64
            = (fst (emitter program "out.s" amd64), Some tt))
  by (vm_compute; reflexivity).
split; [exact H |].
apply (proj2 no_jump_leaves_its_function _ _ _ _ H).
Defined.

(** X17: in [1; return; 1;] the second [1] is lowered into block 1, which
  nothing goes to. *)
Lemma code_after_jump_is_unreachable_witness :
isJumpStatement (ast_tag returnVoid) = true /\
Forall (fun T => (T <= blockCount (ir ctx0))%nat) (jumpTargets ctx0) /\
emitterLines 7%nat ([literal] ++ returnVoid :: [literal]) ctx0
= (fst (emitterLines 7%nat deadLines ctx0), Some 1%nat) /\
exists new,
  emitted (ir (fst (emitterLines 7%nat deadLines ctx0)))
  = emitted (ir ctx0) ++ new /\
  forall blk op, In (blk, op) new -> ~ In 1%nat (opTargets op).
Proof.
assert (H1 : isJumpStatement (ast_tag returnVoid) = true) by reflexivity.
assert (H2 : Forall (fun T => (T <= blockCount (ir ctx0))%nat)
                    (jumpTargets ctx0))
  by (repeat constructor).
assert (H3 : emitterLines 7%nat ([literal] ++ returnVoid :: [literal]) ctx0
             = (fst (emitterLines 7%nat deadLines ctx0), Some 1%nat))
  by (vm_compute; reflexivity).
repeat (split; [assumption |]).
destruct (code_after_jump_is_unreachable _ _ _ _ H1 H2 H3)
  as (c0 & b0 & c1 & new & Hpre & _ & _ & E & N).
assert (Ec : c0 = fst (emitterLines 7%nat [literal] ctx0))
  by (rewrite Hpre; reflexivity).
exists new. split; [exact E |].
intros blk op Hin. specialize (N blk op Hin).
rewrite Ec in N. exact N.
Defined.

(** X18: the nested block [{ ; }] *)
Lemma straight_line_statements_witness :
ast_tag (code [leaf astEmpty]) = astCode /\
wellFormedCode (code [leaf astEmpty]) = true /\
exists ctx',
  emitterLine 7%nat (code [leaf astEmpty]) ctx0 = (ctx', Some 1%nat) /\
  emitted (ir ctx') = [(7%nat, opJump 1%nat)].
Proof.
assert (H1 : ast_tag (code [leaf astEmpty]) = astCode) by reflexivity.
assert (H2 : wellFormedCode (code [leaf astEmpty]) = true) by reflexivity.
repeat (split; [assumption |]).
destruct (straight_line_statements 7%nat (code [leaf astEmpty]) ctx0)
  as (_ & _ & _ & H).
destruct (H H1 H2) as (ctx' & c1 & lineOps & last & Hrun & _ & _).
exists ctx'. split; [exact Hrun |].
assert (E : ctx' = fst (emitterLine 7%nat (code [leaf astEmpty]) ctx0))
  by (rewrite Hrun; reflexivity).
rewrite E. reflexivity.
Defined.

End Examples.
